(** * IMP: recursive-descent parser, bytecode container and host primitives

    A shallow embedding of [parser.cpp], [program.h], [program.cpp] and
    [runtime.cpp] of the IMP project, with the properties of the design
    document stated over it.

    Layout:
    - [Token], [Lexer]: the token source the parser pulls from (lexer.h);
    - the parser monad (lexer position, [ParserError], failed assertions);
    - the precedence ladder and the statement parsers of parser.cpp;
    - [Bytecode]: [Program::Read] of program.h;
    - [Opcode]: the opcodes of program.h and their printer of program.cpp;
    - [Runtime]: the host primitives of runtime.cpp;
    - the theorems. *)

From Stdlib Require Import ZArith NArith String List Bool Lia DecimalString.
From Stdlib.Strings Require Import Byte.
Import ListNotations.

Set Implicit Arguments.

Local Open Scope string_scope.

(* ------------------------------------------------------------------------- *)
(** ** Tokens and the token source *)

(** Source position attached to every token: [Location] of lexer.h, whose
    [Line] and [Column] are streamed as decimal integers by [FormatMessage]. *)
Record Location : Type := mkLocation {
  Name : string;
  Line : Z;
  Column : Z
}.

Module Token.

(** Modelled from the spec: [Token::Kind] of lexer.h, which is not part of
    the sources at hand.  These are the kinds parser.cpp dispatches on, plus
    the end-of-stream kind. *)
Inductive Kind : Type :=
| FUNC | RETURN | WHILE | IF | ELSE | LET
| LPAREN | RPAREN | LBRACE | RBRACE | COLON | SEMI | EQUAL | COMMA
| PLUS | SUB | MUL | EQUALS
| INT | STRING | IDENT
| END.

Definition Kind_eq_dec (a b : Kind) : {a = b} + {a <> b}.
Proof. decide equality. Defined.

Definition Kind_eqb (a b : Kind) : bool :=
  if Kind_eq_dec a b then true else false.

(** Modelled from the spec: a token is a kind, a location and a payload.
    The payload union of the C++ class is kept as two fields; which of them
    is meaningful is decided by the kind, and the accessors below are
    guarded by it. *)
Record t : Type := mk {
  GetKind : Kind;
  GetLocation : Location;
  StringValue : string;
  IntValue : N
}.

(** [tk.Is(kind)]. *)
Definition Is (tk : t) (kind : Kind) : bool := Kind_eqb (GetKind tk) kind.

(** [operator bool]: a token is valid unless it is the end of the stream. *)
Definition valid (tk : t) : bool := negb (Is tk END).

(** The token the lexer hands out once the input is exhausted. *)
Definition End (loc : Location) : t := mk END loc EmptyString 0%N.

End Token.

(** Modelled from the spec: the token source ([Lexer] of lexer.h).  It owns
    the current token and the input still to be read; here the input is the
    list of tokens not yet consumed, whose head is the current token, and the
    location the end-of-stream token will carry.  Past the end the lexer keeps
    answering with the end-of-stream token. *)
Record Lexer : Type := mkLexer {
  tokens : list Token.t;
  eofLoc : Location
}.

(** [lexer_.GetToken()]: the lookahead token, not consumed. *)
Definition GetToken (lx : Lexer) : Token.t :=
  match tokens lx with
  | tk :: _ => tk
  | [] => Token.End (eofLoc lx)
  end.

(** The position after one call of [lexer_.Next()]. *)
Definition Advance (lx : Lexer) : Lexer :=
  mkLexer (tl (tokens lx)) (eofLoc lx).

(** Number of tokens still to be consumed; the measure of every loop. *)
Definition remaining (lx : Lexer) : nat := length (tokens lx).

(* ------------------------------------------------------------------------- *)
(** ** Outcomes and the parser monad *)

(** How a call can end: it returns, it throws a [ParserError] (kept as the
    rendered [what()] string, the only thing [std::runtime_error] stores), or
    an [assert] of a payload accessor fails.  [OutOfFuel] is the artefact of
    bounding the loops of the model; [ParseModule_total] shows it never
    comes out of the entry point. *)
Inductive Result (A : Type) : Type :=
| Ok (a : A)
| Throw (what : string)
| Abort
| OutOfFuel.

Arguments Ok {A} a.
Arguments Throw {A} what.
Arguments Abort {A}.
Arguments OutOfFuel {A}.

(** A member function of [Parser]: it reads and moves the lexer position. *)
Definition M (A : Type) : Type := Lexer -> Result (A * Lexer).

Definition ret {A} (a : A) : M A := fun lx => Ok (a, lx).

Definition bind {A B} (m : M A) (k : A -> M B) : M B :=
  fun lx =>
    match m lx with
    | Ok (a, lx') => k a lx'
    | Throw w => Throw w
    | Abort => Abort
    | OutOfFuel => OutOfFuel
    end.

Definition throw {A} (what : string) : M A := fun _ => Throw what.
Definition abort {A} : M A := fun _ => Abort.

Declare Scope parser_scope.
Delimit Scope parser_scope with parser.
Notation "x <- m ;; k" := (bind m (fun x => k))
  (at level 61, m at next level, right associativity) : parser_scope.
Notation "m ;; k" := (bind m (fun _ => k))
  (at level 61, right associativity) : parser_scope.
Local Open Scope parser_scope.

(** Control leaving a loop body: fall through to the next test of the
    condition, or [break]. *)
Inductive LoopCtl (S : Type) : Type :=
| Continue (s : S)
| Break (s : S).

Arguments Continue {S} s.
Arguments Break {S} s.

(** [while (cond) { body }] over the loop-carried variables [s].  The
    condition is itself a computation, since several loops of the parser
    advance the lexer inside it. *)
Fixpoint while_fuel {S} (fuel : nat) (cond : M bool)
         (body : S -> M (LoopCtl S)) (s : S) : M S :=
  fun lx =>
    match fuel with
    | O => OutOfFuel
    | Datatypes.S fuel' =>
        match cond lx with
        | Ok (true, lx1) =>
            match body s lx1 with
            | Ok (Continue s', lx2) => while_fuel fuel' cond body s' lx2
            | Ok (Break s', lx2) => Ok (s', lx2)
            | Throw w => Throw w
            | Abort => Abort
            | OutOfFuel => OutOfFuel
            end
        | Ok (false, lx1) => Ok (s, lx1)
        | Throw w => Throw w
        | Abort => Abort
        | OutOfFuel => OutOfFuel
        end
    end.

(** Every complete iteration of every loop of the parser consumes a token, so
    one round more than the tokens left is enough. *)
Definition While {S} (cond : M bool) (body : S -> M (LoopCtl S)) (s : S)
  : M S :=
  fun lx => while_fuel (Datatypes.S (remaining lx)) cond body s lx.

(* ------------------------------------------------------------------------- *)
(** ** Abstract syntax (ast.h) *)

Module BinaryExpr.
Inductive Kind : Type := ADD | SUB | MUL | EQUALS.
End BinaryExpr.

#[warnings="-register-all"] Inductive Expr : Type :=
| RefExpr (name : string)
| IntExpr (val : N)
| CallExpr (callee : Expr) (args : list Expr)
| BinaryExpr (kind : BinaryExpr.Kind) (lhs rhs : Expr).

#[warnings="-register-all"] Inductive Stmt : Type :=
| ExprStmt (e : Expr)
| ReturnStmt (e : Expr)
| WhileStmt (cond : Expr) (body : Stmt)
| IfStmt (cond : Expr) (ifStmt : Stmt) (elseStmt : option Stmt)
| LetStmt (varDec : string * string) (varVal : Expr)
| BlockStmt (body : list Stmt).

Inductive TopLevelStmt : Type :=
| TopStmt (s : Stmt)
| ProtoDecl (name : string) (args : list (string * string))
            (type : string) (primitive : string)
| FuncDecl (name : string) (args : list (string * string))
           (type : string) (body : Stmt).

(* ------------------------------------------------------------------------- *)
(** ** Diagnostics *)

(** [os << x]: what streaming a value of type [A] appends. *)
Class Show (A : Type) : Type := show : A -> string.

(** [os << n] for an integer: its decimal form. *)
Definition decimal (z : Z) : string := NilZero.string_of_int (Z.to_int z).

(** [FormatMessage] of parser.cpp. *)
Definition FormatMessage (loc : Location) (msg : string) : string :=
  "[" ++ Name loc ++ ":" ++ decimal (Line loc) ++ ":"
      ++ decimal (Column loc) ++ "] " ++ msg.

(** [ParserError::ParserError]: the exception object is the rendered text. *)
Definition ParserError (loc : Location) (msg : string) : string :=
  FormatMessage loc msg.

(* ------------------------------------------------------------------------- *)
(** ** The bytecode container (program.h) *)

Module Bytecode.

Local Open Scope Z_scope.

(** [size_t] arithmetic: unsigned, 64 bits wide, wrapping. *)
Definition SIZE_WIDTH : Z := 64.

Definition size_t_add (a b : Z) : Z := (a + b) mod 2 ^ SIZE_WIDTH.

(** [class Program]: the code buffer. *)
Record Program : Type := mkProgram {
  code_ : list byte
}.

(** [code_.size()]. *)
Definition size (p : Program) : Z := Z.of_nat (length (code_ p)).

(** How [Read] can end: it returns the value and the moved cursor, its
    [assert] fails, or [memcpy] is handed a range that is not inside the
    buffer, which the language leaves undefined. *)
Inductive Outcome (A : Type) : Type :=
| Returns (t : A) (pc : Z)
| AssertionFailed
| ReadsOutside.

Arguments Returns {A} t pc.
Arguments AssertionFailed {A}.
Arguments ReadsOutside {A}.

(** [memcpy(&t, src.data() + from, n)]: defined when the [n] bytes at [from]
    lie inside [src]. *)
Definition memcpy (src : list byte) (from n : Z) : option (list byte) :=
  if (0 <=? from) && (from + n <=? Z.of_nat (length src)) then
    Some (firstn (Z.to_nat n) (skipn (Z.to_nat from) src))
  else None.

(** [Program::Read<T>], for a [T] of [sizeofT] bytes.  The value read is kept
    as its object representation, the [sizeofT] bytes copied into it. *)
Definition Read (sizeofT : Z) (p : Program) (pc : Z) : Outcome (list byte) :=
  if size_t_add pc sizeofT <=? size p then
    match memcpy (code_ p) pc sizeofT with
    | Some t => Returns t (size_t_add pc sizeofT)
    | None => ReadsOutside
    end
  else AssertionFailed.

End Bytecode.

(* ------------------------------------------------------------------------- *)
(** ** Host primitives (runtime.cpp) *)

Module Runtime.

(** Modelled from the spec: the interpreter state a host primitive sees
    ([Interp] of interp.h, which is not part of the sources at hand): the
    operand stack of 64-bit integers, top first, and what was written to
    standard output so far. *)
Record Interp : Type := mkInterp {
  stack_ : list Z;
  cout : string
}.

(** Modelled from the spec: [Interp::PeekInt] reads the integer on top of the
    operand stack and leaves it there; there is nothing to read on an empty
    stack. *)
Definition PeekInt (interp : Interp) : option Z :=
  match stack_ interp with
  | v :: _ => Some v
  | [] => None
  end.

(** Modelled from the spec: [Interp::Push] puts one value on top of the
    operand stack. *)
Definition Push (v : Z) (interp : Interp) : Interp :=
  mkInterp (v :: stack_ interp) (cout interp).

(** [std::cout << v]. *)
Definition print (v : Z) (interp : Interp) : Interp :=
  mkInterp (stack_ interp) (cout interp ++ decimal v).

(** [PrintInt] of runtime.cpp. *)
Definition PrintInt (interp : Interp) : option Interp :=
  match PeekInt interp with
  | Some v => Some (Push v (print v interp))
  | None => None
  end.

End Runtime.

(* ------------------------------------------------------------------------- *)
(** ** The parser (parser.cpp) *)

Section Parser.

(** [operator<<] for tokens and for token kinds lives in lexer.cpp, which is
    not part of the sources at hand: the two printers are parameters. *)
Context {show_token : Show Token.t} {show_kind : Show Token.Kind}.

(** [ParseLetStmt] mentions an identifier [arg] that it never declares; it
    is kept as the free name it is. *)
Variable arg : string.

(** [Current()]: the lookahead token. *)
Definition Current : M Token.t := fun lx => Ok (GetToken lx, lx).

(** [lexer_.Next()]: consume, and return the new current token. *)
Definition Next : M Token.t :=
  fun lx => Ok (GetToken (Advance lx), Advance lx).

(** Modelled from the spec: the payload accessors of [Token].  Reading a
    payload the kind does not carry is a violated precondition, not a parse
    error. *)
Definition GetIdent (tk : Token.t) : M string :=
  if Token.Is tk Token.IDENT then ret (Token.StringValue tk) else abort.

Definition GetString (tk : Token.t) : M string :=
  if Token.Is tk Token.STRING then ret (Token.StringValue tk) else abort.

Definition GetInt (tk : Token.t) : M N :=
  if Token.Is tk Token.INT then ret (Token.IntValue tk) else abort.

(** [Parser::Error]. *)
Definition Error {A} (loc : Location) (msg : string) : M A :=
  throw (ParserError loc msg).

(** [Parser::Check]. *)
Definition Check (kind : Token.Kind) : M Token.t :=
  tk <- Current ;;
  if negb (Token.Kind_eqb kind (Token.GetKind tk)) then
    Error (Token.GetLocation tk)
          ("unexpected " ++ show tk ++ ", expecting " ++ show kind)
  else ret tk.

(** [Parser::Expect]. *)
Definition Expect (kind : Token.Kind) : M Token.t :=
  Next ;; Check kind.

(** *** Expressions *)

Section Ladder.

(** [ParseExpr], the entry of the ladder, is called back from the argument
    lists of [ParseCallExpr]; the knot is tied in [ParseExpr_fuel]. *)
Variable ParseExpr : M Expr.

Definition ParseTermExpr : M Expr :=
  tk <- Current ;;
  match Token.GetKind tk with
  | Token.IDENT =>
      ident <- GetIdent tk ;;
      Next ;;
      ret (RefExpr ident)
  | Token.INT =>
      val <- GetInt tk ;;
      Next ;;
      ret (IntExpr val)
  | _ =>
      Error (Token.GetLocation tk)
            ("unexpected " ++ show tk ++ ", expecting term")
  end.

Definition ParseCallExpr : M Expr :=
  callee <- ParseTermExpr ;;
  While (tk <- Current ;; ret (Token.Is tk Token.LPAREN))
        (fun callee =>
           args <- While (tk <- Next ;; ret (negb (Token.Is tk Token.RPAREN)))
                         (fun args =>
                            e <- ParseExpr ;;
                            tk <- Current ;;
                            if negb (Token.Is tk Token.COMMA)
                            then ret (Break (args ++ [e])%list)
                            else ret (Continue (args ++ [e])%list))
                         [] ;;
           Check Token.RPAREN ;;
           Next ;;
           ret (Continue (CallExpr callee args)))
        callee.

Definition ParseMulExpr : M Expr :=
  term <- ParseCallExpr ;;
  While (tk <- Current ;; ret (Token.Is tk Token.MUL))
        (fun term =>
           Next ;;
           rhs <- ParseCallExpr ;;
           ret (Continue (BinaryExpr BinaryExpr.MUL term rhs)))
        term.

Definition ParseAddSubExpr : M Expr :=
  term <- ParseMulExpr ;;
  While (tk <- Current ;;
         ret (Token.Is tk Token.PLUS || Token.Is tk Token.SUB))
        (fun term =>
           tk <- Current ;;
           let isAddition := Token.Is tk Token.PLUS in
           Next ;;
           rhs <- ParseMulExpr ;;
           if isAddition
           then ret (Continue (BinaryExpr BinaryExpr.ADD term rhs))
           else ret (Continue (BinaryExpr BinaryExpr.SUB term rhs)))
        term.

Definition ParseEqualityExpr : M Expr :=
  term <- ParseAddSubExpr ;;
  While (tk <- Current ;; ret (Token.Is tk Token.EQUALS))
        (fun term =>
           Next ;;
           rhs <- ParseAddSubExpr ;;
           ret (Continue (BinaryExpr BinaryExpr.EQUALS term rhs)))
        term.

End Ladder.

(** The ladder with [depth] levels of nested argument lists available. *)
Fixpoint ParseExpr_fuel (depth : nat) : M Expr :=
  match depth with
  | O => fun _ => OutOfFuel
  | S depth' => ParseEqualityExpr (ParseExpr_fuel depth')
  end.

(** Modelled from the spec: [ParseExpr] is declared in parser.h, which is
    not part of the sources at hand; the design names [ParseEqualityExpr] as
    the entry point of every expression context.  An argument list is
    entered only after its callee and its open parenthesis were consumed, so
    the nesting is bounded by the tokens left. *)
Definition ParseExpr : M Expr :=
  fun lx => ParseExpr_fuel (S (remaining lx)) lx.

(** *** Statements *)

Section Statements.

(** [ParseStmt] is called back from the bodies of blocks, loops and
    conditionals; the knot is tied in [ParseStmt_fuel]. *)
Variable ParseStmt : M Stmt.

Definition ParseBlockStmt : M Stmt :=
  Check Token.LBRACE ;;
  Next ;;
  body <- While (tk <- Current ;; ret (negb (Token.Is tk Token.RBRACE)))
                (fun body =>
                   s <- ParseStmt ;;
                   ret (Continue (body ++ [s])%list))
                [] ;;
  Check Token.RBRACE ;;
  Next ;;
  ret (BlockStmt body).

Definition ParseReturnStmt : M Stmt :=
  Check Token.RETURN ;;
  Next ;;
  expr <- ParseExpr ;;
  Check Token.SEMI ;;
  Next ;;
  ret (ReturnStmt expr).

Definition ParseWhileStmt : M Stmt :=
  Check Token.WHILE ;;
  Expect Token.LPAREN ;;
  Next ;;
  cond <- ParseExpr ;;
  Check Token.RPAREN ;;
  Next ;;
  stmt <- ParseStmt ;;
  ret (WhileStmt cond stmt).

Definition ParseIfStmt : M Stmt :=
  Check Token.IF ;;
  Expect Token.LPAREN ;;
  Next ;;
  cond <- ParseExpr ;;
  Check Token.RPAREN ;;
  Next ;;
  ifStmt <- ParseStmt ;;
  tk <- Current ;;
  if Token.Kind_eqb (Token.GetKind tk) Token.ELSE then
    Next ;;
    elseStmt <- ParseStmt ;;
    ret (IfStmt cond ifStmt (Some elseStmt))
  else
    ret (IfStmt cond ifStmt None).

Definition ParseLetStmt : M Stmt :=
  Check Token.LET ;;
  name <- (tk <- Current ;; GetIdent tk) ;;
  type <- (tk <- Expect Token.IDENT ;; GetIdent tk) ;;
  let varDec := (arg, type) in
  Expect Token.EQUAL ;;
  Next ;;
  varVal <- ParseExpr ;;
  ret (LetStmt varDec varVal).

Definition ParseStmt_body : M Stmt :=
  tk <- Current ;;
  match Token.GetKind tk with
  | Token.RETURN => ParseReturnStmt
  | Token.WHILE => ParseWhileStmt
  | Token.IF => ParseIfStmt
  | Token.LET => ParseLetStmt
  | Token.LBRACE => ParseBlockStmt
  | _ =>
      expr <- ParseExpr ;;
      Check Token.SEMI ;;
      Next ;;
      ret (ExprStmt expr)
  end.

End Statements.

(** [ParseStmt] with [depth] levels of nested statements available. *)
Fixpoint ParseStmt_fuel (depth : nat) : M Stmt :=
  match depth with
  | O => fun _ => OutOfFuel
  | S depth' => ParseStmt_body (ParseStmt_fuel depth')
  end.

(** [Parser::ParseStmt]: a nested statement starts after at least one token
    of the enclosing one, so the nesting is bounded by the tokens left. *)
Definition ParseStmt : M Stmt :=
  fun lx => ParseStmt_fuel (S (remaining lx)) lx.

(** *** Modules *)

(** One round of the loop of [ParseModule]: a function prototype or
    declaration when the current token is [FUNC], a statement otherwise.
    Both branches of the source end in [body.push_back]; the pushed item is
    what this returns. *)
Definition ParseTopLevel : M TopLevelStmt :=
  tk <- Current ;;
  if Token.Is tk Token.FUNC then
    name <- (tk <- Expect Token.IDENT ;; GetIdent tk) ;;
    Expect Token.LPAREN ;;
    args <- While (tk <- Next ;; ret (negb (Token.Is tk Token.RPAREN)))
                  (fun args =>
                     arg <- (tk <- Current ;; GetIdent tk) ;;
                     Expect Token.COLON ;;
                     type <- (tk <- Expect Token.IDENT ;; GetIdent tk) ;;
                     tk <- Next ;;
                     if negb (Token.Is tk Token.COMMA)
                     then ret (Break (args ++ [(arg, type)])%list)
                     else ret (Continue (args ++ [(arg, type)])%list))
                  [] ;;
    Check Token.RPAREN ;;
    Expect Token.COLON ;;
    type <- (tk <- Expect Token.IDENT ;; GetIdent tk) ;;
    tk <- Next ;;
    if Token.Is tk Token.EQUAL then
      primitive <- (tk <- Expect Token.STRING ;; GetString tk) ;;
      Next ;;
      ret (ProtoDecl name args type primitive)
    else
      block <- ParseBlockStmt ParseStmt ;;
      ret (FuncDecl name args type block)
  else
    s <- ParseStmt ;;
    ret (TopStmt s).

(** [Parser::ParseModule]. *)
Definition ParseModule : M (list TopLevelStmt) :=
  While (tk <- Current ;; ret (Token.valid tk))
        (fun body =>
           item <- ParseTopLevel ;;
           ret (Continue (body ++ [item])%list))
        [].

End Parser.

(* ------------------------------------------------------------------------- *)
(** ** Vocabulary of the statements below *)

(** The expression a term token stands for: an identifier is a reference, an
    integer literal is itself; no other token is a term. *)
Definition term_of (tk : Token.t) : option Expr :=
  match Token.GetKind tk with
  | Token.IDENT => Some (RefExpr (Token.StringValue tk))
  | Token.INT => Some (IntExpr (Token.IntValue tk))
  | _ => None
  end.

(** The token after a call expression does not open another argument list. *)
Definition ends_call (tk : Token.t) : bool :=
  negb (Token.Is tk Token.LPAREN).

(** The token after a product does not continue it. *)
Definition ends_mul (tk : Token.t) : bool :=
  ends_call tk && negb (Token.Is tk Token.MUL).

(** The token after a sum or difference does not continue it. *)
Definition ends_addsub (tk : Token.t) : bool :=
  ends_mul tk && negb (Token.Is tk Token.PLUS || Token.Is tk Token.SUB).

(** The token after a whole expression does not continue it. *)
Definition ends_expr (tk : Token.t) : bool :=
  ends_addsub tk && negb (Token.Is tk Token.EQUALS).

(** The operator an additive token stands for. *)
Definition addsub_of (op : Token.t) : option BinaryExpr.Kind :=
  match Token.GetKind op with
  | Token.PLUS => Some BinaryExpr.ADD
  | Token.SUB => Some BinaryExpr.SUB
  | _ => None
  end.

(** A chain [op1 t1 op2 t2 ...] of additive operators and term tokens: the
    tokens it is written with, and the tree it makes of what stands on its
    left, if every operator is additive and every operand a term. *)
Definition chain_tokens (ops : list (Token.t * Token.t)) : list Token.t :=
  flat_map (fun '(op, t) => [op; t]) ops.

Fixpoint chain_tree (acc : Expr) (ops : list (Token.t * Token.t))
  : option Expr :=
  match ops with
  | [] => Some acc
  | (op, t) :: ops' =>
      match addsub_of op, term_of t with
      | Some kind, Some rhs => chain_tree (BinaryExpr kind acc rhs) ops'
      | _, _ => None
      end
  end.

(** The position [k] tokens further on. *)
Definition skip (k : nat) (lx : Lexer) : Lexer :=
  mkLexer (skipn k (tokens lx)) (eofLoc lx).

(** [lx'] is a later position of the same token stream as [lx]. *)
Definition reaches (lx lx' : Lexer) : Prop := exists k, lx' = skip k lx.

(** Printers to run the parser with on concrete inputs: a kind prints as the
    name of its enumerator, a token as its kind. *)
Definition kind_name (kind : Token.Kind) : string :=
  match kind with
  | Token.FUNC => "FUNC" | Token.RETURN => "RETURN" | Token.WHILE => "WHILE"
  | Token.IF => "IF" | Token.ELSE => "ELSE" | Token.LET => "LET"
  | Token.LPAREN => "LPAREN" | Token.RPAREN => "RPAREN"
  | Token.LBRACE => "LBRACE" | Token.RBRACE => "RBRACE"
  | Token.COLON => "COLON" | Token.SEMI => "SEMI" | Token.EQUAL => "EQUAL"
  | Token.COMMA => "COMMA" | Token.PLUS => "PLUS" | Token.SUB => "SUB"
  | Token.MUL => "MUL" | Token.EQUALS => "EQUALS" | Token.INT => "INT"
  | Token.STRING => "STRING" | Token.IDENT => "IDENT" | Token.END => "END"
  end.

Definition show_kind_name : Show Token.Kind := kind_name.

Definition show_token_kind : Show Token.t :=
  fun tk => kind_name (Token.GetKind tk).

(** Tokens of a sample source file. *)
Definition at_ (line column : Z) : Location := mkLocation "main.imp" line column.

Definition sym (kind : Token.Kind) (loc : Location) : Token.t :=
  Token.mk kind loc EmptyString 0%N.

Definition ident (name : string) (loc : Location) : Token.t :=
  Token.mk Token.IDENT loc name 0%N.

Definition int (val : N) (loc : Location) : Token.t :=
  Token.mk Token.INT loc EmptyString val.

(** The tokens of the sample lines [a + b * 3;], [a - b - 3;],
    [a == b + 3;] (operators [op1], [op2]) and [f(a)(3);]. *)
Definition sample_eof : Location := at_ 2 1.
Definition tok_a : Token.t := ident "a" (at_ 1 1).
Definition tok_b : Token.t := ident "b" (at_ 1 5).
Definition tok_3 : Token.t := int 3 (at_ 1 9).
Definition tok_semi : Token.t := sym Token.SEMI (at_ 1 10).

Definition sample_binary (op1 op2 : Token.Kind) : Lexer :=
  mkLexer [tok_a; sym op1 (at_ 1 3); tok_b; sym op2 (at_ 1 7); tok_3; tok_semi]
          sample_eof.

Definition sample_calls : Lexer :=
  mkLexer [ident "f" (at_ 1 1); sym Token.LPAREN (at_ 1 2); tok_a;
           sym Token.RPAREN (at_ 1 4); sym Token.LPAREN (at_ 1 5); tok_3;
           sym Token.RPAREN (at_ 1 7); tok_semi]
          sample_eof.

(** Where the sample expressions end: at the semicolon. *)
Definition sample_rest : Lexer := mkLexer [tok_semi] sample_eof.

(** The tokens of [x; return], and of its last line alone. *)
Definition sample_return : Lexer :=
  mkLexer [sym Token.RETURN (at_ 2 1)] (at_ 2 7).

Definition sample_module : Lexer :=
  mkLexer [ident "x" (at_ 1 1); sym Token.SEMI (at_ 1 2);
           sym Token.RETURN (at_ 2 1)]
          (at_ 2 7).

Section Invariants.

Context {show_token : Show Token.t}.

(** [what] is the diagnostic of a parse error raised somewhere after [lx]:
    it is rendered by [FormatMessage] at the location of the token that was
    current when the error was raised, and its message names that token and
    what was expected in its place. *)
Definition raised_from (lx : Lexer) (what : string) : Prop :=
  exists lx' expectation,
    reaches lx lx'
    /\ what = FormatMessage (Token.GetLocation (GetToken lx'))
                ("unexpected " ++ show (GetToken lx')
                 ++ ", expecting " ++ expectation).

(** A computation that only moves forward in the token stream, and whose
    parse errors are all of the above form. *)
Definition steady {A} (p : M A) : Prop :=
  forall lx,
    match p lx with
    | Ok (_, lx') => reaches lx lx'
    | Throw what => raised_from lx what
    | Abort | OutOfFuel => True
    end.

(** A computation that consumes at least one token whenever it returns. *)
Definition consuming {A} (p : M A) : Prop :=
  forall lx a lx', p lx = Ok (a, lx') -> remaining lx' < remaining lx.

(** A computation whose loops and recursion have room enough on every
    input of fewer than [n] tokens. *)
Definition safe_below (n : nat) {A} (p : M A) : Prop :=
  forall lx, remaining lx < n -> p lx <> OutOfFuel.

End Invariants.

(** [p] agrees with [q] wherever the bounds of [p] are not met. *)
Definition refines {A} (p q : M A) : Prop :=
  forall lx, p lx = OutOfFuel \/ p lx = q lx.

Section Runs.

Context {show_token : Show Token.t} {show_kind : Show Token.Kind}.
Variable arg : string.

(** [parsed lx items lx']: starting at [lx], the loop of [ParseModule] went
    through [items] one after the other, none of them failing, and stands at
    [lx']. *)
Inductive parsed : Lexer -> list TopLevelStmt -> Lexer -> Prop :=
| parsed_nil : forall lx, parsed lx [] lx
| parsed_cons : forall lx item lx1 items lx2,
    Token.valid (GetToken lx) = true ->
    ParseTopLevel arg lx = Ok (item, lx1) ->
    parsed lx1 items lx2 ->
    parsed lx (item :: items) lx2.

End Runs.

(* ------------------------------------------------------------------------- *)
(** ** What the parser asks of the tokens *)

(** What a place of the parser asks of the current token: to be of one kind,
    where [Check] is called (by itself or at the end of [Expect]), or to
    start a term, at the switch of [ParseTermExpr]. *)
Inductive Expectation : Type :=
| OfKind (kind : Token.Kind)
| Term.

(** Whether a token is what was asked for. *)
Definition meets (tk : Token.t) (e : Expectation) : bool :=
  match e with
  | OfKind kind => Token.Kind_eqb kind (Token.GetKind tk)
  | Term => match term_of tk with Some _ => true | None => false end
  end.

Section Sites.

Context {show_token : Show Token.t} {show_kind : Show Token.Kind}.
Variable arg : string.

(** How a diagnostic names what was asked for. *)
Definition expected (e : Expectation) : string :=
  match e with
  | OfKind kind => show kind
  | Term => "term"
  end.

(** The diagnostic of a token that is not what was asked for: rendered at
    the location of that token, naming it and what was expected. *)
Definition diagnostic (tk : Token.t) (e : Expectation) : string :=
  "[" ++ Name (Token.GetLocation tk) ++ ":"
      ++ decimal (Line (Token.GetLocation tk)) ++ ":"
      ++ decimal (Column (Token.GetLocation tk)) ++ "] "
      ++ "unexpected " ++ show tk ++ ", expecting " ++ expected e.

(** [asks m lx e lx']: run from [lx], the computation [m] comes to a place
    that asks [e] of the current token, with the lexer at [lx'].  The rules
    follow the calls of the parser: a place is a call of [Check] or the
    switch of [ParseTermExpr]; it is reached in the first part of a sequence,
    or in the second part once the first has returned; in the condition of a
    loop, in its body once the condition has held, or in a later round once
    a round has been completed (and has consumed a token, as every round of
    the parser does); and in the body of [ParseExpr] or [ParseStmt] when
    the function is called.  Nothing is reached after a part that has not
    returned. *)
Inductive asks :
  forall A : Type, M A -> Lexer -> Expectation -> Lexer -> Prop :=
| asks_Check : forall kind lx,
    asks (Check kind) lx (OfKind kind) lx
| asks_ParseTermExpr : forall lx,
    asks ParseTermExpr lx Term lx
| asks_first : forall A B (m : M A) (k : A -> M B) lx e lx',
    asks m lx e lx' ->
    asks (bind m k) lx e lx'
| asks_then : forall A B (m : M A) (k : A -> M B) lx a lx1 e lx',
    m lx = Ok (a, lx1) ->
    asks (k a) lx1 e lx' ->
    asks (bind m k) lx e lx'
| asks_While_cond : forall S cond (body : S -> M (LoopCtl S)) s lx e lx',
    asks cond lx e lx' ->
    asks (While cond body s) lx e lx'
| asks_While_body : forall S cond (body : S -> M (LoopCtl S)) s lx lx1 e lx',
    cond lx = Ok (true, lx1) ->
    asks (body s) lx1 e lx' ->
    asks (While cond body s) lx e lx'
| asks_While_round :
    forall S cond (body : S -> M (LoopCtl S)) s lx lx1 s' lx2 e lx',
    cond lx = Ok (true, lx1) ->
    body s lx1 = Ok (Continue s', lx2) ->
    remaining lx2 < remaining lx ->
    asks (While cond body s') lx2 e lx' ->
    asks (While cond body s) lx e lx'
| asks_ParseExpr : forall lx e lx',
    asks (ParseEqualityExpr ParseExpr) lx e lx' ->
    asks ParseExpr lx e lx'
| asks_ParseStmt : forall lx e lx',
    asks (ParseStmt_body arg (ParseStmt arg)) lx e lx' ->
    asks (ParseStmt arg) lx e lx'.

(** Every parse error [m] throws on an input of fewer than [n] tokens is
    the diagnostic of a place it came to, raised at the token found there,
    which was not what the place asked for. *)
Definition traced_below (n : nat) {A} (m : M A) : Prop :=
  forall lx what,
    remaining lx < n ->
    m lx = Throw what ->
    exists e lx',
      asks m lx e lx'
      /\ reaches lx lx'
      /\ meets (GetToken lx') e = false
      /\ what = diagnostic (GetToken lx') e.

End Sites.

(* ------------------------------------------------------------------------- *)
(** ** Opcodes (program.h, program.cpp) *)

Module Opcode.

Local Open Scope Z_scope.

(** [enum class Opcode : uint8_t]. *)
Inductive t : Type :=
| PUSH_FUNC | PUSH_PROTO | PUSH_INT | PEEK | POP | CALL
| ADD | SUB | MUL | EQUALS | RET | JUMP_FALSE | JUMP | STOP.

(** The value of an enumerator: its rank in the declaration. *)
Definition value (op : t) : Z :=
  match op with
  | PUSH_FUNC => 0 | PUSH_PROTO => 1 | PUSH_INT => 2 | PEEK => 3 | POP => 4
  | CALL => 5 | ADD => 6 | SUB => 7 | MUL => 8 | EQUALS => 9 | RET => 10
  | JUMP_FALSE => 11 | JUMP => 12 | STOP => 13
  end.

(** [operator<<(std::ostream &, Opcode)] of program.cpp, on the byte an
    [Opcode] object holds: the text streamed by the case that matches, in the
    order the cases are written; the default case breaks out of the switch
    and the function ends without returning a stream. *)
Definition print (kind : Z) : option string :=
  if kind =? value PUSH_FUNC then Some "PUSH_FUNC"
  else if kind =? value PUSH_PROTO then Some "PUSH_PROTO"
  else if kind =? value PUSH_INT then Some "PUSH_INT"
  else if kind =? value PEEK then Some "PEEK"
  else if kind =? value POP then Some "POP"
  else if kind =? value CALL then Some "CALL"
  else if kind =? value EQUALS then Some "EQUALS"
  else if kind =? value ADD then Some "ADD"
  else if kind =? value SUB then Some "SUB"
  else if kind =? value RET then Some "RET"
  else if kind =? value JUMP_FALSE then Some "JUMP_FALSE"
  else if kind =? value JUMP then Some "JUMP"
  else if kind =? value STOP then Some "STOP"
  else if kind =? value MUL then Some "MUL"
  else None.

End Opcode.

(* ------------------------------------------------------------------------- *)
(** ** Operator expressions, as token sequences *)

(** A product [t0 * t1 * ... * tn]: its first token and the pairs of a star
    and the token after it. *)
Definition Product : Type := (Token.t * list (Token.t * Token.t))%type.

(** A sum [p0 + p1 - ... pn]: its first product and the pairs of an additive
    operator and the product after it. *)
Definition Sum : Type := (Product * list (Token.t * Product))%type.

(** A comparison [s0 == s1 == ... sn]. *)
Definition Comparison : Type := (Sum * list (Token.t * Sum))%type.

Definition product_tokens (p : Product) : list Token.t :=
  fst p :: flat_map (fun '(op, t) => [op; t]) (snd p).

Definition sum_tokens (s : Sum) : list Token.t :=
  (product_tokens (fst s)
   ++ flat_map (fun '(op, p) => op :: product_tokens p) (snd s))%list.

Definition comparison_tokens (c : Comparison) : list Token.t :=
  (sum_tokens (fst c)
   ++ flat_map (fun '(op, s) => op :: sum_tokens s) (snd c))%list.

(** The tree a chain of operators makes of the tree on its left: operator by
    operator, all that stands on the left becomes the left operand.  [kind_of]
    reads the operator off its token and [tree_of] the tree off an operand;
    the chain has no tree if one of them has none. *)
Fixpoint fold_chain {Operand : Type}
         (kind_of : Token.t -> option BinaryExpr.Kind)
         (tree_of : Operand -> option Expr)
         (acc : Expr) (ops : list (Token.t * Operand)) : option Expr :=
  match ops with
  | [] => Some acc
  | (op, x) :: ops' =>
      match kind_of op, tree_of x with
      | Some kind, Some rhs =>
          fold_chain kind_of tree_of (BinaryExpr kind acc rhs) ops'
      | _, _ => None
      end
  end.

Definition mul_of (op : Token.t) : option BinaryExpr.Kind :=
  if Token.Is op Token.MUL then Some BinaryExpr.MUL else None.

Definition equals_of (op : Token.t) : option BinaryExpr.Kind :=
  if Token.Is op Token.EQUALS then Some BinaryExpr.EQUALS else None.

Definition product_tree (p : Product) : option Expr :=
  match term_of (fst p) with
  | Some first => fold_chain mul_of term_of first (snd p)
  | None => None
  end.

Definition sum_tree (s : Sum) : option Expr :=
  match product_tree (fst s) with
  | Some first => fold_chain addsub_of product_tree first (snd s)
  | None => None
  end.

Definition comparison_tree (c : Comparison) : option Expr :=
  match sum_tree (fst c) with
  | Some first => fold_chain equals_of sum_tree first (snd c)
  | None => None
  end.

(** [sub] parses the tokens [seg] into [e] and stops right after them,
    whenever the token after them satisfies [follow]. *)
Definition parses_as (sub : M Expr) (follow : Token.t -> bool)
           (seg : list Token.t) (e : Expr) : Prop :=
  forall tail eof,
    follow (GetToken (mkLexer tail eof)) = true ->
    sub (mkLexer (seg ++ tail) eof) = Ok (e, mkLexer tail eof).

(* ------------------------------------------------------------------------- *)
(** ** Calls, as token sequences *)

(** The arguments between two parentheses: each an operator expression,
    with the comma written after it, if one is. *)
Definition ArgList : Type := list (Comparison * option Token.t).

Definition arglist_tokens (l : ArgList) : list Token.t :=
  flat_map (fun '(c, sep) =>
              (comparison_tokens c
               ++ match sep with Some comma => [comma] | None => [] end)%list)
           l.

(** The trees of the arguments, in the order they are written.  Every
    argument but the last is followed by a comma; the last one may be. *)
Fixpoint arglist_trees (l : ArgList) : option (list Expr) :=
  match l with
  | [] => Some []
  | (c, sep) :: l' =>
      match comparison_tree c, sep with
      | Some e, Some comma =>
          if Token.Is comma Token.COMMA then
            match arglist_trees l' with
            | Some es => Some (e :: es)
            | None => None
            end
          else None
      | Some e, None =>
          match l' with
          | [] => Some [e]
          | _ :: _ => None
          end
      | None, _ => None
      end
  end.

(** One application: an open parenthesis, the arguments, a close
    parenthesis. *)
Definition Call : Type := (Token.t * ArgList * Token.t)%type.

Definition call_tokens (c : Call) : list Token.t :=
  let '(lp, l, rp) := c in (lp :: arglist_tokens l ++ [rp])%list.

(** What a sequence of applications makes of the callee on its left. *)
Fixpoint calls_tree (callee : Expr) (calls : list Call) : option Expr :=
  match calls with
  | [] => Some callee
  | (lp, l, rp) :: calls' =>
      if Token.Is lp Token.LPAREN && Token.Is rp Token.RPAREN then
        match arglist_trees l with
        | Some args => calls_tree (CallExpr callee args) calls'
        | None => None
        end
      else None
  end.

(* ------------------------------------------------------------------------- *)
(** ** Blocks and declarations, as runs of the parser *)

Section BlockRuns.

Context {show_token : Show Token.t} {show_kind : Show Token.Kind}.
Variable arg : string.

(** The diagnostic of a token found where [kind] was required. *)
Definition expecting (kind : Token.Kind) (tk : Token.t) : string :=
  FormatMessage (Token.GetLocation tk)
    ("unexpected " ++ show tk ++ ", expecting " ++ show kind).

(** [block_run lx ss lx']: starting at [lx], inside a block, the statements
    [ss] were parsed one after the other, none of them starting at a close
    brace, and the parser stands at [lx']. *)
Inductive block_run : Lexer -> list Stmt -> Lexer -> Prop :=
| block_run_nil : forall lx, block_run lx [] lx
| block_run_cons : forall lx s lx1 ss lx2,
    Token.Is (GetToken lx) Token.RBRACE = false ->
    ParseStmt arg lx = Ok (s, lx1) ->
    block_run lx1 ss lx2 ->
    block_run lx (s :: ss) lx2.

End BlockRuns.

(** A parameter of a declaration: its name, the colon, its type, and the
    comma written after it, if one is. *)
Definition Param : Type :=
  (Token.t * Token.t * Token.t * option Token.t)%type.

Definition params_tokens (ps : list Param) : list Token.t :=
  flat_map (fun '(name, colon, type, sep) =>
              name :: colon :: type
                :: match sep with Some comma => [comma] | None => [] end)
           ps.

(** The (name, type) pairs of the parameters, in the order they are written.
    Every parameter but the last is followed by a comma; the last one may
    be. *)
Fixpoint params_pairs (ps : list Param) : option (list (string * string)) :=
  match ps with
  | [] => Some []
  | (name, colon, type, sep) :: ps' =>
      if Token.Is name Token.IDENT && Token.Is colon Token.COLON
         && Token.Is type Token.IDENT
      then
        let pair := (Token.StringValue name, Token.StringValue type) in
        match sep with
        | Some comma =>
            if Token.Is comma Token.COMMA then
              match params_pairs ps' with
              | Some pairs => Some (pair :: pairs)
              | None => None
              end
            else None
        | None =>
            match ps' with
            | [] => Some [pair]
            | _ :: _ => None
            end
        end
      else None
  end.

(** The head of a declaration, [func name ( params ) : type]: its tokens,
    and whether each is of the kind its place requires. *)
Record Header : Type := mkHeader {
  h_func : Token.t;
  h_name : Token.t;
  h_lparen : Token.t;
  h_params : list Param;
  h_rparen : Token.t;
  h_colon : Token.t;
  h_type : Token.t
}.

Definition header_tokens (h : Header) (rest : list Token.t) : list Token.t :=
  (h_func h :: h_name h :: h_lparen h
     :: params_tokens (h_params h)
     ++ h_rparen h :: h_colon h :: h_type h :: rest)%list.

Definition header_kinds (h : Header) : bool :=
  Token.Is (h_func h) Token.FUNC && Token.Is (h_name h) Token.IDENT
  && Token.Is (h_lparen h) Token.LPAREN && Token.Is (h_rparen h) Token.RPAREN
  && Token.Is (h_colon h) Token.COLON && Token.Is (h_type h) Token.IDENT.

(* ------------------------------------------------------------------------- *)
(** ** Host primitives called in sequence *)

(** [n] calls of [print_int], one after the other. *)
Fixpoint PrintInt_times (n : nat) (interp : Runtime.Interp)
  : option Runtime.Interp :=
  match n with
  | O => Some interp
  | S n' =>
      match Runtime.PrintInt interp with
      | Some interp' => PrintInt_times n' interp'
      | None => None
      end
  end.

(** [n] copies of a text, one after the other. *)
Fixpoint copies (n : nat) (s : string) : string :=
  match n with
  | O => EmptyString
  | S n' => s ++ copies n' s
  end.

(* ------------------------------------------------------------------------- *)
(** ** More sample inputs *)

(** Signs and keywords of the samples, by column of the first line. *)
Definition star (column : Z) : Token.t := sym Token.MUL (at_ 1 column).
Definition lparen (column : Z) : Token.t := sym Token.LPAREN (at_ 1 column).
Definition rparen (column : Z) : Token.t := sym Token.RPAREN (at_ 1 column).
Definition colon (column : Z) : Token.t := sym Token.COLON (at_ 1 column).
Definition comma (column : Z) : Token.t := sym Token.COMMA (at_ 1 column).
Definition tok_int (column : Z) : Token.t := ident "int" (at_ 1 column).

(** [a * b * 3] *)
Definition sample_product : Product :=
  (tok_a, [(star 3, tok_b); (star 7, tok_3)]).

(** [a * b + 3 * a - b] *)
Definition sample_sum : Sum :=
  ((tok_a, [(star 3, tok_b)]),
   [(sym Token.PLUS (at_ 1 7), (tok_3, [(star 11, tok_a)]));
    (sym Token.SUB (at_ 1 15), (tok_b, []))]).

(** [a * b + 3 * a - b == 3 == a] *)
Definition sample_comparison : Comparison :=
  (sample_sum,
   [(sym Token.EQUALS (at_ 1 19), ((tok_3, []), []));
    (sym Token.EQUALS (at_ 1 24), ((tok_a, []), []))]).

(** A term alone, as a comparison. *)
Definition just (tk : Token.t) : Comparison := (((tk, []), []), []).

(** The applications of [f(a, 3 * b)()(b,)]. *)
Definition sample_applications : list Call :=
  [(lparen 2,
    [(just tok_a, Some (comma 4));
     ((((tok_3, [(star 8, tok_b)]), []), []), None)],
    rparen 11);
   (lparen 12, [], rparen 13);
   (lparen 14, [(just tok_b, Some (comma 16))], rparen 17)].

(** [( a ) ;]: an expression in parentheses. *)
Definition sample_parenthesised : Lexer :=
  mkLexer [lparen 1; tok_a; rparen 3; tok_semi] sample_eof.

(** [return a;] and [return a] *)
Definition sample_return_a : Lexer :=
  mkLexer [sym Token.RETURN (at_ 1 1); tok_a; tok_semi] sample_eof.

Definition sample_return_open : Lexer :=
  mkLexer [sym Token.RETURN (at_ 1 1); tok_a] sample_eof.

(** [while (a) b;] *)
Definition sample_while : Lexer :=
  mkLexer [sym Token.WHILE (at_ 1 1); lparen 7; tok_a; rparen 9; tok_b;
           tok_semi]
          sample_eof.

(** [if (a) b; else 3;] *)
Definition sample_if : Lexer :=
  mkLexer [sym Token.IF (at_ 1 1); lparen 4; tok_a; rparen 6; tok_b;
           tok_semi; sym Token.ELSE (at_ 1 11); tok_3; tok_semi]
          sample_eof.

(** [if (a) if (b) a; else 3;] *)
Definition sample_dangling : Lexer :=
  mkLexer [sym Token.IF (at_ 1 1); lparen 4; tok_a; rparen 6;
           sym Token.IF (at_ 1 8); lparen 11; tok_b; rparen 13; tok_a;
           tok_semi; sym Token.ELSE (at_ 1 17); tok_3; tok_semi]
          sample_eof.

(** [{ a; b; }] and [{ a;] *)
Definition sample_block : Lexer :=
  mkLexer [sym Token.LBRACE (at_ 1 1); tok_a; tok_semi; tok_b; tok_semi;
           sym Token.RBRACE (at_ 1 9)]
          sample_eof.

Definition sample_open_block : Lexer :=
  mkLexer [sym Token.LBRACE (at_ 1 1); tok_a; tok_semi] sample_eof.

(** [func f(a: int, b: int): int] *)
Definition sample_header : Header :=
  mkHeader (sym Token.FUNC (at_ 1 1)) (ident "f" (at_ 1 6)) (lparen 7)
           [(tok_a, colon 9, tok_int 11, Some (comma 14));
            (tok_b, colon 17, tok_int 19, None)]
           (rparen 22) (colon 23) (tok_int 25).

(** [= "print_int"] and [{ return a; }] *)
Definition sample_primitive : Token.t :=
  Token.mk Token.STRING (at_ 1 31) "print_int" 0%N.

Definition sample_body : list Token.t :=
  [sym Token.LBRACE (at_ 1 29); sym Token.RETURN (at_ 1 31); tok_a; tok_semi;
   sym Token.RBRACE (at_ 1 41)].

(** A program of five bytes: an opcode and a 32-bit operand. *)
Definition sample_program : Bytecode.Program :=
  Bytecode.mkProgram [x02; x2a; x00; x00; x00].




(* ------------------------------------------------------------------------- *)
(** * Properties *)

Lemma Kind_eqb_refl : forall k, Token.Kind_eqb k k = true.
Proof.
  intros k. unfold Token.Kind_eqb.
  destruct (Token.Kind_eq_dec k k); [reflexivity | contradiction].
Qed.

Lemma Kind_eqb_eq : forall a b, Token.Kind_eqb a b = true <-> a = b.
Proof.
  intros a b. unfold Token.Kind_eqb.
  destruct (Token.Kind_eq_dec a b); split; intros; congruence.
Qed.

(* ------------------------------------------------------------------------- *)
(** ** Moving through the token stream *)

Lemma skip_0 : forall lx, skip 0 lx = lx.
Proof. intros [ts eof]. reflexivity. Qed.

Lemma skip_skip : forall j k lx, skip j (skip k lx) = skip (k + j) lx.
Proof.
  intros j k [ts eof]. unfold skip. cbn. f_equal.
  rewrite skipn_skipn. f_equal. lia.
Qed.

Lemma Advance_skip : forall lx, Advance lx = skip 1 lx.
Proof. intros [[|tk ts] eof]; reflexivity. Qed.

Lemma remaining_skip : forall k lx, remaining (skip k lx) = remaining lx - k.
Proof. intros k [ts eof]. unfold remaining, skip. cbn. apply length_skipn. Qed.

Lemma reaches_refl : forall lx, reaches lx lx.
Proof. intros lx. exists 0. symmetry. apply skip_0. Qed.

Lemma reaches_trans :
  forall lx1 lx2 lx3, reaches lx1 lx2 -> reaches lx2 lx3 -> reaches lx1 lx3.
Proof.
  intros lx1 lx2 lx3 [j ->] [k ->]. exists (j + k). apply skip_skip.
Qed.

Lemma reaches_Advance : forall lx, reaches lx (Advance lx).
Proof. intros lx. exists 1. apply Advance_skip. Qed.

Lemma reaches_remaining :
  forall lx lx', reaches lx lx' -> remaining lx' <= remaining lx.
Proof. intros lx lx' [k ->]. rewrite remaining_skip. lia. Qed.

(** A token that is not the end of the stream is a token of the input. *)
Lemma not_END_remaining :
  forall lx, Token.GetKind (GetToken lx) <> Token.END -> 0 < remaining lx.
Proof.
  intros [[|tk ts] eof] H; unfold remaining; cbn in *; [congruence | lia].
Qed.

Lemma remaining_Advance :
  forall lx, 0 < remaining lx -> remaining (Advance lx) < remaining lx.
Proof.
  intros [[|tk ts] eof]; unfold remaining; cbn; lia.
Qed.

Create HintDb parser.

#[local] Hint Resolve reaches_refl reaches_Advance : parser.

(* ------------------------------------------------------------------------- *)
(** ** Loops *)

(** More rounds than a loop needs do not change what it returns. *)
Lemma while_fuel_mono :
  forall S (cond : M bool) (body : S -> M (LoopCtl S)) n m s lx,
    n <= m ->
    while_fuel n cond body s lx <> OutOfFuel ->
    while_fuel m cond body s lx = while_fuel n cond body s lx.
Proof.
  intros S cond body n. induction n as [|n IH]; intros m s lx Hle Hok.
  - cbn in Hok. congruence.
  - destruct m as [|m]; [lia|]. cbn in *.
    destruct (cond lx) as [[[|] lx1]| | |]; try reflexivity.
    destruct (body s lx1) as [[[s'|s'] lx2]| | |]; try reflexivity.
    apply IH; [lia | assumption].
Qed.

Lemma while_fuel_round :
  forall S (cond : M bool) (body : S -> M (LoopCtl S)) n s lx lx1 s' lx2,
    cond lx = Ok (true, lx1) ->
    body s lx1 = Ok (Continue s', lx2) ->
    while_fuel (Datatypes.S n) cond body s lx = while_fuel n cond body s' lx2.
Proof.
  intros S cond body n s lx lx1 s' lx2 Hc Hb. cbn. now rewrite Hc, Hb.
Qed.

(** The condition fails: the loop is over. *)
Lemma While_exit :
  forall S (cond : M bool) (body : S -> M (LoopCtl S)) s lx lx1,
    cond lx = Ok (false, lx1) ->
    While cond body s lx = Ok (s, lx1).
Proof. intros S cond body s lx lx1 H. unfold While. cbn. now rewrite H. Qed.

(** The body throws: so does the loop. *)
Lemma While_throw :
  forall S (cond : M bool) (body : S -> M (LoopCtl S)) s lx lx1 what,
    cond lx = Ok (true, lx1) ->
    body s lx1 = Throw what ->
    While cond body s lx = Throw what.
Proof.
  intros S cond body s lx lx1 what Hc Hb. unfold While. cbn.
  now rewrite Hc, Hb.
Qed.

(** The loop breaks: it is over, with what the body handed out. *)
Lemma While_break :
  forall S (cond : M bool) (body : S -> M (LoopCtl S)) s lx lx1 s' lx2,
    cond lx = Ok (true, lx1) ->
    body s lx1 = Ok (Break s', lx2) ->
    While cond body s lx = Ok (s', lx2).
Proof.
  intros S cond body s lx lx1 s' lx2 Hc Hb. unfold While. cbn.
  now rewrite Hc, Hb.
Qed.

(** One round that consumed a token: the loop goes on as if entered at the
    position the round ended at. *)
Lemma While_round :
  forall S (cond : M bool) (body : S -> M (LoopCtl S)) s lx lx1 s' lx2,
    cond lx = Ok (true, lx1) ->
    body s lx1 = Ok (Continue s', lx2) ->
    remaining lx2 < remaining lx ->
    While cond body s' lx2 <> OutOfFuel ->
    While cond body s lx = While cond body s' lx2.
Proof.
  intros S cond body s lx lx1 s' lx2 Hc Hb Hlt Hok. unfold While in *.
  erewrite while_fuel_round by eassumption.
  apply while_fuel_mono; [lia | assumption].
Qed.

(** Case analysis on a token whose kind is constrained by a hypothesis. *)
Ltac split_token tk :=
  let k := fresh "k" in
  destruct tk as [k ? ? ?]; destruct k; try discriminate.

(** Reads off the expression of a term token. *)
Ltac read_term H := cbv in H; injection H as <-.

(** Tries every kind the token after the expression can have. *)
Ltac by_follow_token rest H :=
  let f := fresh "f" in
  destruct rest as [|f rest];
  [reflexivity | split_token f; reflexivity].

(* ------------------------------------------------------------------------- *)
(** ** Every parser moves forward and raises well-formed diagnostics *)

Section Steadiness.

Context {show_token : Show Token.t} {show_kind : Show Token.Kind}.
Variable arg : string.

Lemma raised_from_later :
  forall lx lx1 what,
    reaches lx lx1 -> raised_from lx1 what -> raised_from lx what.
Proof.
  intros lx lx1 what H (lx' & expectation & Hr & ->).
  exists lx', expectation. split; [eapply reaches_trans; eauto | reflexivity].
Qed.

Lemma steady_ret : forall A (a : A), steady (ret a).
Proof. intros A a lx. cbn. apply reaches_refl. Qed.

Lemma steady_abort : forall A, steady (@abort A).
Proof. intros A lx. exact I. Qed.

Lemma steady_Current : steady Current.
Proof. intros lx. cbn. apply reaches_refl. Qed.

Lemma steady_Next : steady Next.
Proof. intros lx. cbn. apply reaches_Advance. Qed.

Lemma steady_bind :
  forall A B (m : M A) (k : A -> M B),
    steady m -> (forall a, steady (k a)) -> steady (bind m k).
Proof.
  intros A B m k Hm Hk lx. unfold bind. specialize (Hm lx).
  destruct (m lx) as [[a lx1]|what| |]; try assumption.
  specialize (Hk a lx1).
  destruct (k a lx1) as [[b lx2]|what| |]; try exact I.
  - eapply reaches_trans; eassumption.
  - eapply raised_from_later; eassumption.
Qed.

Lemma steady_GetIdent : forall tk, steady (GetIdent tk).
Proof.
  intros tk. unfold GetIdent.
  destruct (Token.Is tk Token.IDENT); [apply steady_ret | apply steady_abort].
Qed.

Lemma steady_GetString : forall tk, steady (GetString tk).
Proof.
  intros tk. unfold GetString.
  destruct (Token.Is tk Token.STRING); [apply steady_ret | apply steady_abort].
Qed.

Lemma steady_GetInt : forall tk, steady (GetInt tk).
Proof.
  intros tk. unfold GetInt.
  destruct (Token.Is tk Token.INT); [apply steady_ret | apply steady_abort].
Qed.

(** An error raised about the current token is a well-formed diagnostic. *)
Lemma raised_here :
  forall lx expectation,
    raised_from lx
      (ParserError (Token.GetLocation (GetToken lx))
         ("unexpected " ++ show (GetToken lx) ++ ", expecting " ++ expectation)).
Proof.
  intros lx expectation. exists lx, expectation.
  split; [apply reaches_refl | reflexivity].
Qed.

Lemma steady_Check : forall kind, steady (Check kind).
Proof.
  intros kind lx. unfold Check, bind, Current, Error, throw, ret.
  destruct (negb (Token.Kind_eqb kind (Token.GetKind (GetToken lx)))).
  - apply raised_here.
  - apply reaches_refl.
Qed.

Lemma steady_Expect : forall kind, steady (Expect kind).
Proof.
  intros kind. unfold Expect.
  apply steady_bind; [apply steady_Next | intros _; apply steady_Check].
Qed.

Lemma steady_while_fuel :
  forall S (cond : M bool) (body : S -> M (LoopCtl S)),
    steady cond -> (forall s, steady (body s)) ->
    forall n s, steady (while_fuel n cond body s).
Proof.
  intros S cond body Hc Hb n.
  induction n as [|n IH]; intros s lx; cbn; [exact I|].
  specialize (Hc lx). destruct (cond lx) as [[[|] lx1]|what| |]; try assumption.
  specialize (Hb s lx1).
  destruct (body s lx1) as [[[s'|s'] lx2]|what| |]; try exact I.
  - specialize (IH s' lx2).
    destruct (while_fuel n cond body s' lx2) as [[r lx3]|what| |]; try exact I.
    + eapply reaches_trans; [|eassumption]. eapply reaches_trans; eassumption.
    + eapply raised_from_later; [|eassumption].
      eapply reaches_trans; eassumption.
  - eapply reaches_trans; eassumption.
  - eapply raised_from_later; eassumption.
Qed.

Lemma steady_While :
  forall S (cond : M bool) (body : S -> M (LoopCtl S)) s,
    steady cond -> (forall s, steady (body s)) ->
    steady (While cond body s).
Proof.
  intros S cond body s Hc Hb lx. unfold While.
  apply steady_while_fuel; assumption.
Qed.

#[local] Hint Resolve steady_ret steady_abort steady_Current steady_Next
  steady_GetIdent steady_GetString steady_GetInt steady_Check steady_Expect
  : parser.

(** Walks down a computation built from [bind], loops and case analyses. *)
Ltac steady_walk :=
  repeat
    (cbv beta zeta;
     match goal with
     | |- steady (bind _ _) => apply steady_bind; [| intros ?]
     | |- steady (While _ _ _) => apply steady_While; [| intros ?]
     | |- steady (match ?x with _ => _ end) => destruct x
     | |- steady _ => solve [auto with parser]
     end).

Lemma steady_ParseTermExpr : steady ParseTermExpr.
Proof.
  intros lx. unfold ParseTermExpr, bind, Current.
  destruct (Token.GetKind (GetToken lx)) eqn:Hk;
    try apply raised_here.
  - unfold GetInt, Token.Is. rewrite Hk. cbn. apply reaches_Advance.
  - unfold GetIdent, Token.Is. rewrite Hk. cbn. apply reaches_Advance.
Qed.

#[local] Hint Resolve steady_ParseTermExpr : parser.

Section Ladder.

Variable P : M Expr.
Hypothesis steady_P : steady P.

Lemma steady_ParseCallExpr : steady (ParseCallExpr P).
Proof. unfold ParseCallExpr. steady_walk. Qed.

#[local] Hint Resolve steady_ParseCallExpr : parser.

Lemma steady_ParseMulExpr : steady (ParseMulExpr P).
Proof. unfold ParseMulExpr. steady_walk. Qed.

#[local] Hint Resolve steady_ParseMulExpr : parser.

Lemma steady_ParseAddSubExpr : steady (ParseAddSubExpr P).
Proof. unfold ParseAddSubExpr. steady_walk. Qed.

#[local] Hint Resolve steady_ParseAddSubExpr : parser.

Lemma steady_ParseEqualityExpr : steady (ParseEqualityExpr P).
Proof. unfold ParseEqualityExpr. steady_walk. Qed.

End Ladder.

Lemma steady_ParseExpr_fuel : forall depth, steady (ParseExpr_fuel depth).
Proof.
  induction depth as [|depth IH]; cbn.
  - intros lx. exact I.
  - apply steady_ParseEqualityExpr. exact IH.
Qed.

Lemma steady_ParseExpr : steady ParseExpr.
Proof. intros lx. unfold ParseExpr. apply steady_ParseExpr_fuel. Qed.

#[local] Hint Resolve steady_ParseExpr : parser.

Section Statements.

Variable Q : M Stmt.
Hypothesis steady_Q : steady Q.

Lemma steady_ParseBlockStmt : steady (ParseBlockStmt Q).
Proof. unfold ParseBlockStmt. steady_walk. Qed.

Lemma steady_ParseReturnStmt : steady ParseReturnStmt.
Proof. unfold ParseReturnStmt. steady_walk. Qed.

Lemma steady_ParseWhileStmt : steady (ParseWhileStmt Q).
Proof. unfold ParseWhileStmt. steady_walk. Qed.

Lemma steady_ParseIfStmt : steady (ParseIfStmt Q).
Proof. unfold ParseIfStmt. steady_walk. Qed.

Lemma steady_ParseLetStmt : steady (ParseLetStmt arg).
Proof. unfold ParseLetStmt. steady_walk. Qed.

#[local] Hint Resolve steady_ParseBlockStmt steady_ParseReturnStmt
  steady_ParseWhileStmt steady_ParseIfStmt steady_ParseLetStmt : parser.

Lemma steady_ParseStmt_body : steady (ParseStmt_body arg Q).
Proof. unfold ParseStmt_body. steady_walk. Qed.

End Statements.

Lemma steady_ParseStmt_fuel : forall depth, steady (ParseStmt_fuel arg depth).
Proof.
  induction depth as [|depth IH]; cbn.
  - intros lx. exact I.
  - apply steady_ParseStmt_body. exact IH.
Qed.

Lemma steady_ParseStmt : steady (ParseStmt arg).
Proof. intros lx. unfold ParseStmt. apply steady_ParseStmt_fuel. Qed.

#[local] Hint Resolve steady_ParseStmt steady_ParseBlockStmt : parser.

Lemma steady_ParseTopLevel : steady (ParseTopLevel arg).
Proof. unfold ParseTopLevel. steady_walk. Qed.

#[local] Hint Resolve steady_ParseTopLevel : parser.

Lemma steady_ParseModule : steady (ParseModule arg).
Proof. unfold ParseModule. steady_walk. Qed.

End Steadiness.

#[local] Hint Resolve steady_ret steady_abort steady_Current steady_Next
  steady_GetIdent steady_GetString steady_GetInt steady_Check steady_Expect
  steady_ParseTermExpr steady_ParseCallExpr steady_ParseMulExpr
  steady_ParseAddSubExpr steady_ParseEqualityExpr steady_ParseExpr
  steady_ParseBlockStmt steady_ParseReturnStmt steady_ParseWhileStmt
  steady_ParseIfStmt steady_ParseLetStmt steady_ParseStmt
  steady_ParseTopLevel : parser.

(** Settles the steadiness of a computation built from the parsers above. *)
Ltac steady_rest :=
  intros;
  repeat
    (cbv beta zeta;
     match goal with
     | |- steady (bind _ _) => apply steady_bind; [| intros ?]
     | |- steady (While _ _ _) => apply steady_While; [| intros ?]
     | |- steady (match ?x with _ => _ end) => destruct x
     | |- steady _ => solve [auto with parser]
     end).

(* ------------------------------------------------------------------------- *)
(** ** Every parser that returns has consumed a token *)

Section Consumption.

Context {show_token : Show Token.t} {show_kind : Show Token.Kind}.
Variable arg : string.

(** What a steady computation returns is not further from the end. *)
Lemma steady_remaining :
  forall A (p : M A) lx a lx',
    steady p -> p lx = Ok (a, lx') -> remaining lx' <= remaining lx.
Proof.
  intros A p lx a lx' Hp H. specialize (Hp lx). rewrite H in Hp.
  now apply reaches_remaining.
Qed.

Lemma bind_Ok :
  forall A B (m : M A) (k : A -> M B) lx b lx2,
    bind m k lx = Ok (b, lx2) ->
    exists a lx1, m lx = Ok (a, lx1) /\ k a lx1 = Ok (b, lx2).
Proof.
  intros A B m k lx b lx2 H. unfold bind in H.
  destruct (m lx) as [[a lx1]| | |]; try discriminate.
  now exists a, lx1.
Qed.

Lemma consuming_bind_l :
  forall A B (m : M A) (k : A -> M B),
    consuming m -> (forall a, steady (k a)) -> consuming (bind m k).
Proof.
  intros A B m k Hm Hk lx b lx2 H.
  apply bind_Ok in H as (a & lx1 & H1 & H2).
  apply Hm in H1. pose proof (@steady_remaining _ _ _ _ _ (Hk a) H2). lia.
Qed.

Lemma consuming_bind_r :
  forall A B (m : M A) (k : A -> M B),
    steady m -> (forall a, consuming (k a)) -> consuming (bind m k).
Proof.
  intros A B m k Hm Hk lx b lx2 H.
  apply bind_Ok in H as (a & lx1 & H1 & H2).
  pose proof (@steady_remaining _ _ _ _ _ Hm H1). apply Hk in H2. lia.
Qed.

(** [Check] returns only on the kind it was asked for. *)
Lemma Check_Ok :
  forall kind lx tk lx',
    Check kind lx = Ok (tk, lx') ->
    lx' = lx /\ tk = GetToken lx /\ Token.GetKind tk = kind.
Proof.
  intros kind lx tk lx' H. unfold Check, bind, Current, Error, throw, ret in H.
  destruct (Token.Kind_eqb kind (Token.GetKind (GetToken lx))) eqn:Hk;
    cbn in H; [| discriminate].
  injection H as <- <-. apply Kind_eqb_eq in Hk. auto.
Qed.

(** Consuming a token of the input moves closer to its end. *)
Lemma Next_after :
  forall lx, Token.GetKind (GetToken lx) <> Token.END ->
    remaining (Advance lx) < remaining lx.
Proof. intros lx H. now apply remaining_Advance, not_END_remaining. Qed.

Lemma consuming_Expect :
  forall kind, kind <> Token.END -> consuming (Expect kind).
Proof.
  intros kind Hk lx tk lx' H. unfold Expect in H.
  apply bind_Ok in H as (tk1 & lx1 & H1 & H2).
  unfold Next in H1. injection H1 as _ <-.
  apply Check_Ok in H2 as (-> & -> & Hkind).
  destruct lx as [[|t ts] eof]; unfold remaining; cbn in *.
  - congruence.
  - lia.
Qed.

Lemma consuming_Check_Next :
  forall kind A (k : Token.t -> M A),
    kind <> Token.END -> (forall tk, steady (k tk)) ->
    consuming (bind (Check kind) (fun _ => bind Next k)).
Proof.
  intros kind A k Hk Hs lx a lx3 H.
  apply bind_Ok in H as (tk & lx1 & H1 & H).
  apply bind_Ok in H as (tk2 & lx2 & H2 & H3).
  apply Check_Ok in H1 as (-> & -> & Hkind).
  unfold Next in H2. injection H2 as _ <-.
  pose proof (@steady_remaining _ _ _ _ _ (Hs _) H3).
  assert (remaining (Advance lx) < remaining lx)
    by (apply Next_after; congruence).
  lia.
Qed.

Lemma consuming_ParseTermExpr : consuming ParseTermExpr.
Proof.
  intros lx e lx' H. unfold ParseTermExpr, bind, Current in H.
  destruct (Token.GetKind (GetToken lx)) eqn:Hk; try discriminate;
    assert (Hlt : remaining (Advance lx) < remaining lx)
      by (apply Next_after; congruence).
  - unfold GetInt, Token.Is in H. rewrite Hk in H. cbn in H.
    now injection H as _ <-.
  - unfold GetIdent, Token.Is in H. rewrite Hk in H. cbn in H.
    now injection H as _ <-.
Qed.

Ltac first_consumes H := apply consuming_bind_l; [exact H | steady_rest].

Section Ladder.

Variable P : M Expr.
Hypothesis steady_P : steady P.

Lemma consuming_ParseCallExpr : consuming (ParseCallExpr P).
Proof. unfold ParseCallExpr. first_consumes consuming_ParseTermExpr. Qed.

Lemma consuming_ParseMulExpr : consuming (ParseMulExpr P).
Proof. unfold ParseMulExpr. first_consumes consuming_ParseCallExpr. Qed.

Lemma consuming_ParseAddSubExpr : consuming (ParseAddSubExpr P).
Proof. unfold ParseAddSubExpr. first_consumes consuming_ParseMulExpr. Qed.

Lemma consuming_ParseEqualityExpr : consuming (ParseEqualityExpr P).
Proof. unfold ParseEqualityExpr. first_consumes consuming_ParseAddSubExpr. Qed.

End Ladder.

Lemma consuming_ParseExpr : consuming ParseExpr.
Proof.
  intros lx e lx' H. unfold ParseExpr in H. cbn [ParseExpr_fuel] in H.
  eapply consuming_ParseEqualityExpr; [apply steady_ParseExpr_fuel | exact H].
Qed.

Section Statements.

Variable Q : M Stmt.
Hypothesis steady_Q : steady Q.

Lemma consuming_ParseBlockStmt : consuming (ParseBlockStmt Q).
Proof.
  unfold ParseBlockStmt.
  apply consuming_Check_Next; [discriminate | steady_rest].
Qed.

Lemma consuming_ParseReturnStmt : consuming ParseReturnStmt.
Proof.
  unfold ParseReturnStmt.
  apply consuming_Check_Next; [discriminate | steady_rest].
Qed.

Lemma consuming_ParseWhileStmt : consuming (ParseWhileStmt Q).
Proof.
  unfold ParseWhileStmt.
  apply consuming_bind_r; [auto with parser | intros _].
  apply consuming_bind_l; [| steady_rest].
  apply consuming_Expect. discriminate.
Qed.

Lemma consuming_ParseIfStmt : consuming (ParseIfStmt Q).
Proof.
  unfold ParseIfStmt.
  apply consuming_bind_r; [auto with parser | intros _].
  apply consuming_bind_l; [| steady_rest].
  apply consuming_Expect. discriminate.
Qed.

Lemma consuming_ParseLetStmt : consuming (ParseLetStmt arg).
Proof.
  unfold ParseLetStmt.
  apply consuming_bind_r; [auto with parser | intros _].
  apply consuming_bind_r; [steady_rest | intros _].
  apply consuming_bind_l; [| steady_rest].
  apply consuming_bind_l; [| steady_rest].
  apply consuming_Expect. discriminate.
Qed.

Lemma consuming_ParseStmt_body : consuming (ParseStmt_body arg Q).
Proof.
  unfold ParseStmt_body.
  apply consuming_bind_r; [auto with parser | intros tk].
  destruct (Token.GetKind tk);
    first [ apply consuming_ParseReturnStmt
          | apply consuming_ParseWhileStmt
          | apply consuming_ParseIfStmt
          | apply consuming_ParseLetStmt
          | apply consuming_ParseBlockStmt
          | first_consumes consuming_ParseExpr ].
Qed.

End Statements.

Lemma consuming_ParseStmt : consuming (ParseStmt arg).
Proof.
  intros lx s lx' H. unfold ParseStmt in H. cbn [ParseStmt_fuel] in H.
  eapply consuming_ParseStmt_body; [apply steady_ParseStmt_fuel | exact H].
Qed.

Lemma consuming_ParseTopLevel : consuming (ParseTopLevel arg).
Proof.
  unfold ParseTopLevel.
  apply consuming_bind_r; [auto with parser | intros tk].
  destruct (Token.Is tk Token.FUNC).
  - apply consuming_bind_l; [| steady_rest].
    apply consuming_bind_l; [| steady_rest].
    apply consuming_Expect. discriminate.
  - first_consumes consuming_ParseStmt.
Qed.

End Consumption.

#[local] Hint Resolve consuming_ParseTermExpr consuming_ParseCallExpr
  consuming_ParseMulExpr consuming_ParseAddSubExpr consuming_ParseEqualityExpr
  consuming_ParseExpr consuming_ParseStmt consuming_ParseTopLevel : parser.

(* ------------------------------------------------------------------------- *)
(** ** The bounds of the model are never met *)

Section Totality.

Context {show_token : Show Token.t} {show_kind : Show Token.Kind}.
Variable arg : string.

(** Finds the step of a loop body that consumes a token. *)
Ltac consuming_walk :=
  cbv beta zeta;
  first
    [ solve [auto with parser]
    | apply consuming_Check_Next; [discriminate | solve [steady_rest]]
    | apply consuming_Expect; discriminate
    | apply consuming_bind_l; [consuming_walk | solve [steady_rest]]
    | apply consuming_bind_r; [solve [steady_rest] | intros ?; consuming_walk]
    ].

Lemma safe_below_S :
  forall n A (p : M A), safe_below (S n) p -> safe_below n p.
Proof. intros n A p H lx Hlt. apply H. lia. Qed.

Lemma safe_ret : forall n A (a : A), safe_below n (ret a).
Proof. intros n A a lx _. discriminate. Qed.

Lemma safe_abort : forall n A, safe_below n (@abort A).
Proof. intros n A lx _. discriminate. Qed.

Lemma safe_Current : forall n, safe_below n Current.
Proof. intros n lx _. discriminate. Qed.

Lemma safe_Next : forall n, safe_below n Next.
Proof. intros n lx _. discriminate. Qed.

Lemma safe_GetIdent : forall n tk, safe_below n (GetIdent tk).
Proof.
  intros n tk lx _. unfold GetIdent.
  destruct (Token.Is tk Token.IDENT); discriminate.
Qed.

Lemma safe_GetString : forall n tk, safe_below n (GetString tk).
Proof.
  intros n tk lx _. unfold GetString.
  destruct (Token.Is tk Token.STRING); discriminate.
Qed.

Lemma safe_Check : forall n kind, safe_below n (Check kind).
Proof.
  intros n kind lx _. unfold Check, bind, Current.
  destruct (negb (Token.Kind_eqb kind (Token.GetKind (GetToken lx))));
    discriminate.
Qed.

Lemma safe_Expect : forall n kind, safe_below n (Expect kind).
Proof.
  intros n kind lx _. unfold Expect, bind, Next.
  apply (@safe_Check (S (remaining (Advance lx))) kind). lia.
Qed.

Lemma safe_ParseTermExpr : forall n, safe_below n ParseTermExpr.
Proof.
  intros n lx _. unfold ParseTermExpr, bind, Current, GetIdent, GetInt.
  destruct (Token.GetKind (GetToken lx)); try discriminate.
  - destruct (Token.Is (GetToken lx) Token.INT); discriminate.
  - destruct (Token.Is (GetToken lx) Token.IDENT); discriminate.
Qed.

(** In a sequence, the second part runs no further from the end than the
    first part started. *)
Lemma safe_bind :
  forall n A B (m : M A) (k : A -> M B),
    safe_below n m -> steady m -> (forall a, safe_below n (k a)) ->
    safe_below n (bind m k).
Proof.
  intros n A B m k Hm Hs Hk lx Hlt. unfold bind.
  specialize (Hm lx Hlt).
  destruct (m lx) as [[a lx1]| | |] eqn:E; try discriminate; [|congruence].
  apply Hk. pose proof (@steady_remaining _ _ _ _ _ _ Hs E). lia.
Qed.

(** After a consuming first part, the second part has one token less. *)
Lemma safe_bind_consuming :
  forall n A B (m : M A) (k : A -> M B),
    safe_below (S n) m -> consuming m -> (forall a, safe_below n (k a)) ->
    safe_below (S n) (bind m k).
Proof.
  intros n A B m k Hm Hc Hk lx Hlt. unfold bind.
  specialize (Hm lx Hlt).
  destruct (m lx) as [[a lx1]| | |] eqn:E; try discriminate; [|congruence].
  apply Hk. apply Hc in E. lia.
Qed.

Lemma safe_Check_Next :
  forall n kind A (k : Token.t -> M A),
    kind <> Token.END -> (forall tk, safe_below n (k tk)) ->
    safe_below (S n) (bind (Check kind) (fun _ => bind Next k)).
Proof.
  intros n kind A k Hkind Hk lx Hlt. unfold bind at 1.
  destruct (Check kind lx) as [[tk lx1]| | |] eqn:E; try discriminate.
  - apply Check_Ok in E as (-> & -> & Hk1). unfold bind, Next.
    apply Hk.
    assert (remaining (Advance lx) < remaining lx)
      by (apply Next_after; congruence).
    lia.
  - apply (@safe_Check (S (remaining lx)) kind) in E; [contradiction | lia].
Qed.

(** A loop whose body consumes a token each round ends within the rounds
    [While] grants it. *)
Lemma safe_While :
  forall n S (cond : M bool) (body : S -> M (LoopCtl S)),
    safe_below n cond -> steady cond ->
    (forall s, safe_below n (body s)) -> (forall s, consuming (body s)) ->
    forall s, safe_below n (While cond body s).
Proof.
  intros n S cond body Hc Hsc Hb Hcb s lx Hlt. unfold While.
  assert (Hgen : forall fuel s lx,
             remaining lx < fuel -> remaining lx < n ->
             while_fuel fuel cond body s lx <> OutOfFuel).
  { clear s lx Hlt. induction fuel as [|fuel IH]; intros s lx Hf Hn; [lia|].
    cbn. specialize (Hc lx Hn).
    destruct (cond lx) as [[[|] lx1]| | |] eqn:Ec; try discriminate;
      [|congruence].
    pose proof (@steady_remaining _ _ _ _ _ _ Hsc Ec) as Hle.
    assert (Hn1 : remaining lx1 < n) by lia.
    specialize (Hb s lx1 Hn1).
    destruct (body s lx1) as [[[s'|s'] lx2]| | |] eqn:Eb; try discriminate;
      [|congruence].
    apply Hcb in Eb. apply IH; lia. }
  apply Hgen; [lia | assumption].
Qed.

#[local] Hint Resolve safe_below_S safe_ret safe_abort safe_Current safe_Next
  safe_GetIdent safe_GetString safe_Check safe_Expect safe_ParseTermExpr
  : parser.

(** Walks down a computation, leaving what no hint settles. *)
Ltac safe_walk :=
  repeat
    (cbv beta zeta;
     match goal with
     | |- safe_below _ (bind _ _) =>
         apply safe_bind; [| solve [steady_rest] | intros ?]
     | |- safe_below _ (While _ _ _) =>
         apply safe_While;
         [| solve [steady_rest] | intros ? | intros ?; solve [consuming_walk]]
     | |- safe_below _ (match ?x with _ => _ end) => destruct x
     | |- safe_below _ _ => solve [auto with parser]
     end).

Section Ladder.

Variable P : M Expr.
Hypothesis steady_P : steady P.
Hypothesis consuming_P : consuming P.
Variable n : nat.
Hypothesis safe_P : safe_below n P.

Lemma safe_ParseCallExpr : safe_below (S n) (ParseCallExpr P).
Proof.
  unfold ParseCallExpr.
  apply safe_bind_consuming; [auto with parser | auto with parser | intros ?].
  safe_walk.
Qed.

#[local] Hint Resolve safe_ParseCallExpr : parser.

Lemma safe_ParseMulExpr : safe_below (S n) (ParseMulExpr P).
Proof.
  unfold ParseMulExpr.
  apply safe_bind_consuming; [auto with parser | auto with parser | intros ?].
  safe_walk.
Qed.

#[local] Hint Resolve safe_ParseMulExpr : parser.

Lemma safe_ParseAddSubExpr : safe_below (S n) (ParseAddSubExpr P).
Proof.
  unfold ParseAddSubExpr.
  apply safe_bind_consuming; [auto with parser | auto with parser | intros ?].
  safe_walk.
Qed.

#[local] Hint Resolve safe_ParseAddSubExpr : parser.

Lemma safe_ParseEqualityExpr : safe_below (S n) (ParseEqualityExpr P).
Proof.
  unfold ParseEqualityExpr.
  apply safe_bind_consuming; [auto with parser | auto with parser | intros ?].
  safe_walk.
Qed.

End Ladder.

Lemma consuming_ParseExpr_fuel :
  forall depth, consuming (ParseExpr_fuel depth).
Proof.
  intros [|depth]; cbn.
  - intros lx e lx' H. discriminate.
  - apply consuming_ParseEqualityExpr, steady_ParseExpr_fuel.
Qed.

Lemma safe_ParseExpr_fuel :
  forall depth, safe_below depth (ParseExpr_fuel depth).
Proof.
  induction depth as [|depth IH]; cbn.
  - intros lx H. lia.
  - apply safe_ParseEqualityExpr;
      [apply steady_ParseExpr_fuel | apply consuming_ParseExpr_fuel | exact IH].
Qed.

(** [ParseExpr] returns, throws or aborts: its bound on the nesting of
    argument lists is never met. *)
Theorem ParseExpr_total : forall lx, ParseExpr lx <> OutOfFuel.
Proof.
  intros lx. unfold ParseExpr. apply safe_ParseExpr_fuel. lia.
Qed.

Lemma safe_ParseExpr : forall n, safe_below n ParseExpr.
Proof. intros n lx _. apply ParseExpr_total. Qed.

#[local] Hint Resolve safe_ParseExpr : parser.

Lemma safe_ParseReturnStmt : forall n, safe_below n ParseReturnStmt.
Proof. intros n. unfold ParseReturnStmt. safe_walk. Qed.

Lemma safe_ParseLetStmt : forall n, safe_below n (ParseLetStmt arg).
Proof. intros n. unfold ParseLetStmt. safe_walk. Qed.

#[local] Hint Resolve safe_ParseReturnStmt safe_ParseLetStmt : parser.

Section Statements.

Variable Q : M Stmt.
Hypothesis steady_Q : steady Q.
Hypothesis consuming_Q : consuming Q.
Variable n : nat.
Hypothesis safe_Q : safe_below n Q.

Lemma safe_ParseBlockStmt : safe_below (S n) (ParseBlockStmt Q).
Proof.
  unfold ParseBlockStmt.
  apply safe_Check_Next; [discriminate | intros ?]. safe_walk.
Qed.

Lemma safe_ParseWhileStmt : safe_below (S n) (ParseWhileStmt Q).
Proof.
  unfold ParseWhileStmt.
  apply safe_bind; [auto with parser | auto with parser | intros ?].
  apply safe_bind_consuming;
    [auto with parser | apply consuming_Expect; discriminate | intros ?].
  safe_walk.
Qed.

Lemma safe_ParseIfStmt : safe_below (S n) (ParseIfStmt Q).
Proof.
  unfold ParseIfStmt.
  apply safe_bind; [auto with parser | auto with parser | intros ?].
  apply safe_bind_consuming;
    [auto with parser | apply consuming_Expect; discriminate | intros ?].
  safe_walk.
Qed.

#[local] Hint Resolve safe_ParseBlockStmt safe_ParseWhileStmt
  safe_ParseIfStmt : parser.

Lemma safe_ParseStmt_body : safe_below (S n) (ParseStmt_body arg Q).
Proof. unfold ParseStmt_body. safe_walk. Qed.

End Statements.

Lemma consuming_ParseStmt_fuel :
  forall depth, consuming (ParseStmt_fuel arg depth).
Proof.
  intros [|depth]; cbn.
  - intros lx e lx' H. discriminate.
  - apply consuming_ParseStmt_body, steady_ParseStmt_fuel.
Qed.

Lemma safe_ParseStmt_fuel :
  forall depth, safe_below depth (ParseStmt_fuel arg depth).
Proof.
  induction depth as [|depth IH]; cbn.
  - intros lx H. lia.
  - apply safe_ParseStmt_body;
      [apply steady_ParseStmt_fuel | apply consuming_ParseStmt_fuel | exact IH].
Qed.

(** [ParseStmt] returns, throws or aborts: its bound on the nesting of
    statements is never met. *)
Theorem ParseStmt_total : forall lx, ParseStmt arg lx <> OutOfFuel.
Proof.
  intros lx. unfold ParseStmt. apply safe_ParseStmt_fuel. lia.
Qed.

Lemma safe_ParseStmt : forall n, safe_below n (ParseStmt arg).
Proof. intros n lx _. apply ParseStmt_total. Qed.

#[local] Hint Resolve safe_ParseStmt : parser.

Lemma safe_ParseTopLevel : forall n, safe_below n (ParseTopLevel arg).
Proof.
  intros n. unfold ParseTopLevel. safe_walk.
  apply safe_below_S.
  apply safe_ParseBlockStmt; auto with parser.
Qed.

#[local] Hint Resolve safe_ParseTopLevel : parser.

(** [ParseModule] returns, throws or aborts on every token stream: no loop of
    the parser needs more rounds than the model grants it. *)
Theorem ParseModule_total : forall lx, ParseModule arg lx <> OutOfFuel.
Proof.
  intros lx.
  assert (H : safe_below (S (remaining lx)) (ParseModule arg)).
  { unfold ParseModule. safe_walk. }
  apply H. lia.
Qed.

End Totality.

(* ------------------------------------------------------------------------- *)
(** ** The recursive calls of the source *)

Section Unfolding.

Context {show_token : Show Token.t} {show_kind : Show Token.Kind}.
Variable arg : string.

Lemma refines_refl : forall A (p : M A), refines p p.
Proof. intros A p lx. now right. Qed.

Lemma refines_bind :
  forall A B (m m' : M A) (k k' : A -> M B),
    refines m m' -> (forall a, refines (k a) (k' a)) ->
    refines (bind m k) (bind m' k').
Proof.
  intros A B m m' k k' Hm Hk lx. unfold bind.
  destruct (Hm lx) as [-> | <-]; [now left|].
  destruct (m lx) as [[a lx1]| | |]; try now right. apply Hk.
Qed.

Lemma refines_while_fuel :
  forall S (cond cond' : M bool) (body body' : S -> M (LoopCtl S)),
    refines cond cond' -> (forall s, refines (body s) (body' s)) ->
    forall n s, refines (while_fuel n cond body s) (while_fuel n cond' body' s).
Proof.
  intros S cond cond' body body' Hc Hb n.
  induction n as [|n IH]; intros s lx; cbn; [now left|].
  destruct (Hc lx) as [-> | <-]; [now left|].
  destruct (cond lx) as [[[|] lx1]| | |]; try now right.
  destruct (Hb s lx1) as [-> | <-]; [now left|].
  destruct (body s lx1) as [[[s'|s'] lx2]| | |]; try now right.
  apply IH.
Qed.

Lemma refines_While :
  forall S (cond cond' : M bool) (body body' : S -> M (LoopCtl S)) s,
    refines cond cond' -> (forall s, refines (body s) (body' s)) ->
    refines (While cond body s) (While cond' body' s).
Proof.
  intros S cond cond' body body' s Hc Hb lx. unfold While.
  now apply refines_while_fuel.
Qed.

#[local] Hint Resolve refines_refl : parser.

(** Walks down two computations of the same shape. *)
Ltac refines_walk :=
  repeat
    (cbv beta zeta;
     match goal with
     | |- refines ?p ?p => apply refines_refl
     | |- refines (bind _ _) (bind _ _) => apply refines_bind; [| intros ?]
     | |- refines (While _ _ _) (While _ _ _) =>
         apply refines_While; [| intros ?]
     | |- refines (match ?x with _ => _ end) _ => destruct x
     | |- refines _ _ => solve [auto with parser]
     end).

Section Ladder.

Variables P P' : M Expr.
Hypothesis P_refines : refines P P'.

Lemma refines_ParseCallExpr : refines (ParseCallExpr P) (ParseCallExpr P').
Proof. unfold ParseCallExpr. refines_walk. Qed.

#[local] Hint Resolve refines_ParseCallExpr : parser.

Lemma refines_ParseMulExpr : refines (ParseMulExpr P) (ParseMulExpr P').
Proof. unfold ParseMulExpr. refines_walk. Qed.

#[local] Hint Resolve refines_ParseMulExpr : parser.

Lemma refines_ParseAddSubExpr :
  refines (ParseAddSubExpr P) (ParseAddSubExpr P').
Proof. unfold ParseAddSubExpr. refines_walk. Qed.

#[local] Hint Resolve refines_ParseAddSubExpr : parser.

Lemma refines_ParseEqualityExpr :
  refines (ParseEqualityExpr P) (ParseEqualityExpr P').
Proof. unfold ParseEqualityExpr. refines_walk. Qed.

End Ladder.

Lemma ParseExpr_fuel_S :
  forall depth, refines (ParseExpr_fuel depth) (ParseExpr_fuel (S depth)).
Proof.
  induction depth as [|depth IH].
  - intros lx. now left.
  - change (refines (ParseEqualityExpr (ParseExpr_fuel depth))
                    (ParseEqualityExpr (ParseExpr_fuel (S depth)))).
    now apply refines_ParseEqualityExpr.
Qed.

Lemma ParseExpr_fuel_le :
  forall d d' lx,
    d <= d' -> ParseExpr_fuel d lx <> OutOfFuel ->
    ParseExpr_fuel d' lx = ParseExpr_fuel d lx.
Proof.
  intros d d' lx Hle. induction Hle as [|d' Hle IH]; intros H; [reflexivity|].
  destruct (ParseExpr_fuel_S d' lx) as [E | E].
  - rewrite IH in E by assumption. contradiction.
  - rewrite <- E. now apply IH.
Qed.

(** Whatever depth the ladder is given, it agrees with [ParseExpr]. *)
Lemma ParseExpr_fuel_refines :
  forall depth, refines (ParseExpr_fuel depth) ParseExpr.
Proof.
  intros depth lx. unfold ParseExpr.
  destruct (Nat.le_gt_cases depth (S (remaining lx))) as [Hle | Hgt].
  - destruct (ParseExpr_fuel depth lx) eqn:E; try (now left); right;
      rewrite <- E; symmetry; apply ParseExpr_fuel_le; congruence.
  - right. apply ParseExpr_fuel_le; [lia|]. apply safe_ParseExpr_fuel. lia.
Qed.

(** [ParseExpr() { return ParseEqualityExpr(); }], the recursive call inside
    the ladder being [ParseExpr] itself. *)
Theorem ParseExpr_unfold :
  forall lx, ParseExpr lx = ParseEqualityExpr ParseExpr lx.
Proof.
  intros lx.
  destruct (refines_ParseEqualityExpr
              (ParseExpr_fuel_refines (remaining lx)) lx) as [E | E].
  - exfalso. now apply (ParseExpr_total lx).
  - exact E.
Qed.

Section Statements.

Variables Q Q' : M Stmt.
Hypothesis Q_refines : refines Q Q'.

Lemma refines_ParseBlockStmt : refines (ParseBlockStmt Q) (ParseBlockStmt Q').
Proof. unfold ParseBlockStmt. refines_walk. Qed.

Lemma refines_ParseWhileStmt : refines (ParseWhileStmt Q) (ParseWhileStmt Q').
Proof. unfold ParseWhileStmt. refines_walk. Qed.

Lemma refines_ParseIfStmt : refines (ParseIfStmt Q) (ParseIfStmt Q').
Proof. unfold ParseIfStmt. refines_walk. Qed.

#[local] Hint Resolve refines_ParseBlockStmt refines_ParseWhileStmt
  refines_ParseIfStmt : parser.

Lemma refines_ParseStmt_body :
  refines (ParseStmt_body arg Q) (ParseStmt_body arg Q').
Proof. unfold ParseStmt_body. refines_walk. Qed.

End Statements.

Lemma ParseStmt_fuel_S :
  forall depth,
    refines (ParseStmt_fuel arg depth) (ParseStmt_fuel arg (S depth)).
Proof.
  induction depth as [|depth IH].
  - intros lx. now left.
  - change (refines (ParseStmt_body arg (ParseStmt_fuel arg depth))
                    (ParseStmt_body arg (ParseStmt_fuel arg (S depth)))).
    now apply refines_ParseStmt_body.
Qed.

Lemma ParseStmt_fuel_le :
  forall d d' lx,
    d <= d' -> ParseStmt_fuel arg d lx <> OutOfFuel ->
    ParseStmt_fuel arg d' lx = ParseStmt_fuel arg d lx.
Proof.
  intros d d' lx Hle. induction Hle as [|d' Hle IH]; intros H; [reflexivity|].
  destruct (ParseStmt_fuel_S d' lx) as [E | E].
  - rewrite IH in E by assumption. contradiction.
  - rewrite <- E. now apply IH.
Qed.

Lemma ParseStmt_fuel_refines :
  forall depth, refines (ParseStmt_fuel arg depth) (ParseStmt arg).
Proof.
  intros depth lx. unfold ParseStmt.
  destruct (Nat.le_gt_cases depth (S (remaining lx))) as [Hle | Hgt].
  - destruct (ParseStmt_fuel arg depth lx) eqn:E; try (now left); right;
      rewrite <- E; symmetry; apply ParseStmt_fuel_le; congruence.
  - right. apply ParseStmt_fuel_le; [lia|]. apply safe_ParseStmt_fuel. lia.
Qed.

(** [Parser::ParseStmt] as the source has it: the dispatch on the current
    token, the statements nested in it being parsed by [ParseStmt] itself. *)
Theorem ParseStmt_unfold :
  forall lx, ParseStmt arg lx = ParseStmt_body arg (ParseStmt arg) lx.
Proof.
  intros lx.
  destruct (refines_ParseStmt_body
              (ParseStmt_fuel_refines (remaining lx)) lx) as [E | E].
  - exfalso. now apply (ParseStmt_total arg lx).
  - exact E.
Qed.

End Unfolding.

(* ------------------------------------------------------------------------- *)
(** ** Errors are not recovered from *)

Section Errors.

Context {show_token : Show Token.t} {show_kind : Show Token.Kind}.
Variable arg : string.

(** Sequencing has no handler: what the first computation throws, the
    sequence throws. *)
Lemma bind_Throw :
  forall A B (m : M A) (k : A -> M B) lx what,
    m lx = Throw what -> bind m k lx = Throw what.
Proof. intros A B m k lx what H. unfold bind. now rewrite H. Qed.

Lemma bind_Throw_later :
  forall A B (m : M A) (k : A -> M B) lx a lx1 what,
    m lx = Ok (a, lx1) -> k a lx1 = Throw what -> bind m k lx = Throw what.
Proof. intros A B m k lx a lx1 what H1 H2. unfold bind. now rewrite H1. Qed.

(** [Check] on the expected kind returns the current token and leaves the
    lexer where it is. *)
Lemma Check_match :
  forall kind lx,
    Token.GetKind (GetToken lx) = kind ->
    Check kind lx = Ok (GetToken lx, lx).
Proof.
  intros kind lx H. unfold Check, bind, Current. subst kind.
  now rewrite Kind_eqb_refl.
Qed.

(** [Check] on any other kind throws, at the current token. *)
Lemma Check_mismatch :
  forall kind lx,
    Token.GetKind (GetToken lx) <> kind ->
    Check kind lx
    = Throw (FormatMessage (Token.GetLocation (GetToken lx))
               ("unexpected " ++ show (GetToken lx)
                ++ ", expecting " ++ show kind)).
Proof.
  intros kind lx H. unfold Check, bind, Current.
  destruct (Token.Kind_eqb kind (Token.GetKind (GetToken lx))) eqn:Hk.
  - apply Kind_eqb_eq in Hk. congruence.
  - reflexivity.
Qed.


(** The loop of [ParseModule] that meets the end of the stream after a run
    of items returns them in the order they were parsed. *)
Lemma ParseModule_returns :
  forall lx items lx',
    parsed arg lx items lx' ->
    Token.valid (GetToken lx') = false ->
    ParseModule arg lx = Ok (items, lx').
Proof.
  intros lx items lx' Hrun Hend.
  assert (Hloop : forall acc,
             While (bind Current (fun tk => ret (Token.valid tk)))
                   (fun body =>
                      bind (ParseTopLevel arg)
                           (fun item => ret (Continue (body ++ [item])%list)))
                   acc lx
             = Ok ((acc ++ items)%list, lx')).
  { induction Hrun as [lx | lx item lx1 items lx2 Hv Hitem Hrun IH];
      intros acc.
    - rewrite app_nil_r. apply While_exit.
      unfold bind, Current, ret. now rewrite Hend.
    - specialize (IH Hend (acc ++ [item])%list).
      rewrite <- app_assoc in IH. cbn [app] in IH.
      rewrite <- IH. eapply While_round.
      + unfold bind, Current, ret. now rewrite Hv.
      + unfold bind. rewrite Hitem. reflexivity.
      + eapply consuming_ParseTopLevel. eassumption.
      + rewrite IH. discriminate. }
  exact (Hloop []).
Qed.

End Errors.

(* ------------------------------------------------------------------------- *)
(** ** Precedence and associativity *)

Section Precedence.

Context {show_token : Show Token.t} {show_kind : Show Token.Kind}.

(** A term token alone is parsed by the bottom of the ladder, whatever
    follows it. *)
Lemma ParseTermExpr_term :
  forall tk e rest eof,
    term_of tk = Some e ->
    ParseTermExpr (mkLexer (tk :: rest) eof) = Ok (e, mkLexer rest eof).
Proof.
  intros tk e rest eof H. split_token tk; read_term H; reflexivity.
Qed.

(** C4. On the tokens of [a + b * c], with [a], [b], [c] terms and the next
    token continuing neither a product nor a sum, [ParseAddSubExpr] returns
    [BinaryExpr(ADD, a, BinaryExpr(MUL, b, c))] and stops at that next token;
    so does [ParseExpr] when the next token is not [==] either. *)
Theorem mul_binds_tighter_than_add :
  forall a b c plus mul ea eb ec rest eof,
    term_of a = Some ea -> term_of b = Some eb -> term_of c = Some ec ->
    Token.GetKind plus = Token.PLUS -> Token.GetKind mul = Token.MUL ->
    ends_addsub (GetToken (mkLexer rest eof)) = true ->
    let lx := mkLexer (a :: plus :: b :: mul :: c :: rest) eof in
    let tree := BinaryExpr BinaryExpr.ADD ea (BinaryExpr BinaryExpr.MUL eb ec) in
    ParseAddSubExpr ParseExpr lx = Ok (tree, mkLexer rest eof)
    /\ (ends_expr (GetToken (mkLexer rest eof)) = true ->
        ParseExpr lx = Ok (tree, mkLexer rest eof)).
Proof.
  intros a b c plus mul ea eb ec rest eof Ha Hb Hc Hplus Hmul Hend.
  destruct plus as [kp ? ? ?], mul as [km ? ? ?].
  cbn in Hplus, Hmul; subst kp km.
  split_token a; read_term Ha; split_token b; read_term Hb;
    split_token c; read_term Hc.
  all: split; [| intros Hend'; clear Hend; rename Hend' into Hend].
  all: by_follow_token rest Hend.
Qed.

(** C6. On the tokens of [a == b + c], with [a], [b], [c] terms and the next
    token not continuing the expression, [ParseEqualityExpr] returns
    [BinaryExpr(EQUALS, a, BinaryExpr(ADD, b, c))], and so does [ParseExpr],
    which every expression context calls: on every input [ParseExpr] is
    [ParseEqualityExpr], the top of the ladder. *)
Theorem equality_binds_loosest :
  forall a b c eq plus ea eb ec rest eof,
    term_of a = Some ea -> term_of b = Some eb -> term_of c = Some ec ->
    Token.GetKind eq = Token.EQUALS -> Token.GetKind plus = Token.PLUS ->
    ends_expr (GetToken (mkLexer rest eof)) = true ->
    let lx := mkLexer (a :: eq :: b :: plus :: c :: rest) eof in
    let tree :=
      BinaryExpr BinaryExpr.EQUALS ea (BinaryExpr BinaryExpr.ADD eb ec) in
    ParseEqualityExpr ParseExpr lx = Ok (tree, mkLexer rest eof)
    /\ ParseExpr lx = Ok (tree, mkLexer rest eof)
    /\ (forall lx', ParseExpr lx' = ParseEqualityExpr ParseExpr lx').
Proof.
  intros a b c eq plus ea eb ec rest eof Ha Hb Hc Heq Hplus Hend.
  destruct eq as [ke ? ? ?], plus as [kp ? ? ?].
  cbn in Heq, Hplus; subst ke kp.
  split_token a; read_term Ha; split_token b; read_term Hb;
    split_token c; read_term Hc.
  all: split; [| split; [| apply ParseExpr_unfold]].
  all: by_follow_token rest Hend.
Qed.

(** A term that no argument list and no [*] follows is a product by
    itself. *)
Lemma ParseMulExpr_term :
  forall tk e rest eof,
    term_of tk = Some e ->
    ends_mul (GetToken (mkLexer rest eof)) = true ->
    ParseMulExpr ParseExpr (mkLexer (tk :: rest) eof)
    = Ok (e, mkLexer rest eof).
Proof.
  intros tk e rest eof Hterm Hend.
  unfold ends_mul, ends_call in Hend. apply andb_prop in Hend as [Hl Hm].
  apply negb_true_iff in Hl, Hm.
  unfold ParseMulExpr, ParseCallExpr. unfold bind at 1. unfold bind at 1.
  erewrite ParseTermExpr_term by eassumption.
  erewrite While_exit by (unfold bind, Current, ret; now rewrite Hl).
  apply While_exit. unfold bind, Current, ret. now rewrite Hm.
Qed.

(** An additive operator is not what ends a product's operand list early. *)
Lemma addsub_ends_mul :
  forall op kind, addsub_of op = Some kind -> ends_mul op = true.
Proof.
  intros [k ? ? ?] kind H. destruct k; try discriminate H; reflexivity.
Qed.

(** The loop of [ParseAddSubExpr] folds a chain of any length to the left:
    each operator takes all that was parsed before it as its left operand. *)
Lemma ParseAddSubExpr_loop_chain :
  forall ops acc tree rest eof,
    chain_tree acc ops = Some tree ->
    ends_addsub (GetToken (mkLexer rest eof)) = true ->
    While (bind Current (fun tk =>
             ret (Token.Is tk Token.PLUS || Token.Is tk Token.SUB)))
          (fun term =>
             bind Current (fun tk =>
             let isAddition := Token.Is tk Token.PLUS in
             bind Next (fun _ =>
             bind (ParseMulExpr ParseExpr) (fun rhs =>
               if isAddition
               then ret (Continue (BinaryExpr BinaryExpr.ADD term rhs))
               else ret (Continue (BinaryExpr BinaryExpr.SUB term rhs))))))
          acc (mkLexer (chain_tokens ops ++ rest) eof)
    = Ok (tree, mkLexer rest eof).
Proof.
  induction ops as [|[op t] ops IH]; intros acc tree rest eof Htree Hend.
  - cbn in Htree. injection Htree as <-. cbn [chain_tokens flat_map app].
    apply While_exit. unfold bind, Current, ret.
    unfold ends_addsub in Hend. apply andb_prop in Hend as [_ Hend].
    apply negb_true_iff in Hend. now rewrite Hend.
  - cbn in Htree.
    destruct (addsub_of op) as [kind|] eqn:Hop; [|discriminate].
    destruct (term_of t) as [rhs|] eqn:Ht; [|discriminate].
    specialize (IH _ _ rest eof Htree Hend).
    change (chain_tokens ((op, t) :: ops) ++ rest)%list
      with (op :: t :: (chain_tokens ops ++ rest))%list.
    rewrite <- IH. eapply While_round.
    + unfold bind, Current, ret. cbn [GetToken tokens].
      destruct op as [k ? ? ?]; destruct k; try discriminate Hop; reflexivity.
    + unfold bind at 1. unfold Current. cbv beta iota zeta.
      unfold bind at 1. unfold Next. cbv beta iota.
      unfold bind at 1.
      change (Advance (mkLexer (op :: t :: (chain_tokens ops ++ rest)) eof))
        with (mkLexer (t :: (chain_tokens ops ++ rest)) eof).
      erewrite ParseMulExpr_term; [| exact Ht |].
      * cbn [GetToken tokens]. unfold ret.
        destruct op as [k ? ? ?]; destruct k; try discriminate Hop;
          cbn in Hop; injection Hop as <-; reflexivity.
      * destruct ops as [|[op' t'] ops'].
        -- cbn [chain_tokens flat_map app].
           unfold ends_addsub in Hend. now apply andb_prop in Hend as [Hend _].
        -- cbn in Htree.
           destruct (addsub_of op') eqn:Hop'; [|discriminate].
           cbn [chain_tokens flat_map app GetToken tokens].
           eapply addsub_ends_mul. eassumption.
    + unfold remaining. cbn. lia.
    + rewrite IH. discriminate.
Qed.

(** [a op1 t1 op2 t2 ...] with additive operators is parsed into the
    left-nested tree, however long the chain. *)
Lemma ParseAddSubExpr_chain :
  forall a ea ops tree rest eof,
    term_of a = Some ea ->
    chain_tree ea ops = Some tree ->
    ends_addsub (GetToken (mkLexer rest eof)) = true ->
    ParseAddSubExpr ParseExpr (mkLexer (a :: chain_tokens ops ++ rest) eof)
    = Ok (tree, mkLexer rest eof).
Proof.
  intros a ea ops tree rest eof Ha Htree Hend.
  unfold ParseAddSubExpr. unfold bind at 1.
  erewrite ParseMulExpr_term; [| exact Ha |].
  - now apply ParseAddSubExpr_loop_chain.
  - destruct ops as [|[op t] ops].
    + cbn [chain_tokens flat_map app].
      unfold ends_addsub in Hend. now apply andb_prop in Hend as [Hend _].
    + cbn in Htree. destruct (addsub_of op) eqn:Hop; [|discriminate].
      cbn [chain_tokens flat_map app GetToken tokens].
      eapply addsub_ends_mul. eassumption.
Qed.

(** What the ladder does above a sum that no [==] follows: nothing. *)
Lemma ParseExpr_of_addsub :
  forall lx e lx',
    ParseAddSubExpr ParseExpr lx = Ok (e, lx') ->
    Token.Is (GetToken lx') Token.EQUALS = false ->
    ParseExpr lx = Ok (e, lx').
Proof.
  intros lx e lx' H Heq. rewrite ParseExpr_unfold.
  unfold ParseEqualityExpr. unfold bind at 1. rewrite H. cbv beta iota.
  apply While_exit. unfold bind, Current, ret. now rewrite Heq.
Qed.

(** C5. On the tokens of [a - b - c], with [a], [b], [c] terms and the next
    token continuing neither a product nor a sum, [ParseAddSubExpr] returns
    the left-nested [BinaryExpr(SUB, BinaryExpr(SUB, a, b), c)]; so does
    [ParseExpr] when the next token is not [==] either. *)
Theorem sub_is_left_associative :
  forall a b c sub1 sub2 ea eb ec rest eof,
    term_of a = Some ea -> term_of b = Some eb -> term_of c = Some ec ->
    Token.GetKind sub1 = Token.SUB -> Token.GetKind sub2 = Token.SUB ->
    ends_addsub (GetToken (mkLexer rest eof)) = true ->
    let lx := mkLexer (a :: sub1 :: b :: sub2 :: c :: rest) eof in
    let tree := BinaryExpr BinaryExpr.SUB (BinaryExpr BinaryExpr.SUB ea eb) ec in
    ParseAddSubExpr ParseExpr lx = Ok (tree, mkLexer rest eof)
    /\ (ends_expr (GetToken (mkLexer rest eof)) = true ->
        ParseExpr lx = Ok (tree, mkLexer rest eof)).
Proof.
  intros a b c sub1 sub2 ea eb ec rest eof Ha Hb Hc Hs1 Hs2 Hend lx tree.
  assert (H : ParseAddSubExpr ParseExpr lx = Ok (tree, mkLexer rest eof)).
  { apply (@ParseAddSubExpr_chain a ea [(sub1, b); (sub2, c)]);
      [exact Ha | | exact Hend].
    cbn. unfold addsub_of. now rewrite Hs1, Hs2, Hb, Hc. }
  split; [exact H | intros Hexpr].
  apply ParseExpr_of_addsub; [exact H|].
  unfold ends_expr in Hexpr. apply andb_prop in Hexpr as [_ Hexpr].
  now apply negb_true_iff in Hexpr.
Qed.

(** An expression starts with a term. *)
Lemma ParseExpr_starts_with_term :
  forall lx e lx',
    ParseExpr lx = Ok (e, lx') ->
    Token.GetKind (GetToken lx) = Token.IDENT
    \/ Token.GetKind (GetToken lx) = Token.INT.
Proof.
  intros lx e lx' H. rewrite ParseExpr_unfold in H.
  unfold ParseEqualityExpr in H. apply bind_Ok in H as (? & ? & H & _).
  unfold ParseAddSubExpr in H. apply bind_Ok in H as (? & ? & H & _).
  unfold ParseMulExpr in H. apply bind_Ok in H as (? & ? & H & _).
  unfold ParseCallExpr in H. apply bind_Ok in H as (? & ? & H & _).
  unfold ParseTermExpr, bind, Current in H.
  destruct (Token.GetKind (GetToken lx)); try discriminate; auto.
Qed.

(** One argument list with one argument: the position is at its open
    parenthesis, the argument is an expression, and a close parenthesis
    follows it. *)
Lemma argument_list_of_one :
  forall lx e lx',
    ParseExpr (Advance lx) = Ok (e, lx') ->
    Token.GetKind (GetToken lx') = Token.RPAREN ->
    While (bind Next (fun tk => ret (negb (Token.Is tk Token.RPAREN))))
          (fun args =>
             bind ParseExpr (fun e =>
             bind Current (fun tk =>
               if negb (Token.Is tk Token.COMMA)
               then ret (Break (args ++ [e])%list)
               else ret (Continue (args ++ [e])%list))))
          [] lx
    = Ok ([e], lx').
Proof.
  intros lx e lx' He Hr. eapply While_break.
  - unfold bind, Next, ret.
    destruct (ParseExpr_starts_with_term _ He) as [Hk | Hk];
      unfold Token.Is; rewrite Hk; reflexivity.
  - unfold bind, Current. rewrite He. unfold Token.Is. rewrite Hr. reflexivity.
Qed.

Lemma remaining_Advance_le : forall lx, remaining (Advance lx) <= remaining lx.
Proof. intros lx. apply reaches_remaining, reaches_Advance. Qed.

(** What the token after a whole expression is not. *)
Lemma ends_expr_inv :
  forall tk,
    ends_expr tk = true ->
    Token.Is tk Token.LPAREN = false /\ Token.Is tk Token.MUL = false
    /\ Token.Is tk Token.PLUS = false /\ Token.Is tk Token.SUB = false
    /\ Token.Is tk Token.EQUALS = false.
Proof.
  intros tk. unfold ends_expr, ends_addsub, ends_mul, ends_call.
  destruct (Token.Is tk Token.LPAREN), (Token.Is tk Token.MUL),
    (Token.Is tk Token.PLUS), (Token.Is tk Token.SUB),
    (Token.Is tk Token.EQUALS);
    cbn; intros H; try discriminate H; auto.
Qed.

(** What the ladder does above a call expression that no operator follows:
    nothing. *)
Lemma ParseExpr_of_call :
  forall lx e lx',
    ParseCallExpr ParseExpr lx = Ok (e, lx') ->
    ends_expr (GetToken lx') = true ->
    ParseExpr lx = Ok (e, lx').
Proof.
  intros lx e lx' H Hend.
  destruct (ends_expr_inv _ Hend) as (_ & Hmul & Hplus & Hsub & Heq).
  assert (Hm : ParseMulExpr ParseExpr lx = Ok (e, lx')).
  { unfold ParseMulExpr. unfold bind at 1. rewrite H. cbv beta iota.
    apply While_exit. unfold bind, Current, ret. now rewrite Hmul. }
  assert (Ha : ParseAddSubExpr ParseExpr lx = Ok (e, lx')).
  { unfold ParseAddSubExpr. unfold bind at 1. rewrite Hm. cbv beta iota.
    apply While_exit. unfold bind, Current, ret. now rewrite Hplus, Hsub. }
  rewrite ParseExpr_unfold.
  unfold ParseEqualityExpr. unfold bind at 1. rewrite Ha. cbv beta iota.
  apply While_exit. unfold bind, Current, ret. now rewrite Heq.
Qed.

(** C7. On the tokens of [f(x)(y)], with [f] an identifier, [x] and [y]
    expressions each closed by a parenthesis, and the next token not opening
    a third argument list, [ParseCallExpr] returns
    [CallExpr(CallExpr(RefExpr(f), [x]), [y])]: the first call is the callee
    of the second.  So does [ParseExpr] when no operator follows. *)
Theorem call_chain_nests_to_the_left :
  forall f lp1 xs eof ex lx2 ey lx3,
    Token.GetKind f = Token.IDENT ->
    Token.GetKind lp1 = Token.LPAREN ->
    ParseExpr (mkLexer xs eof) = Ok (ex, lx2) ->
    Token.GetKind (GetToken lx2) = Token.RPAREN ->
    Token.GetKind (GetToken (Advance lx2)) = Token.LPAREN ->
    ParseExpr (Advance (Advance lx2)) = Ok (ey, lx3) ->
    Token.GetKind (GetToken lx3) = Token.RPAREN ->
    ends_call (GetToken (Advance lx3)) = true ->
    let lx := mkLexer (f :: lp1 :: xs) eof in
    let tree :=
      CallExpr (CallExpr (RefExpr (Token.StringValue f)) [ex]) [ey] in
    ParseCallExpr ParseExpr lx = Ok (tree, Advance lx3)
    /\ (ends_expr (GetToken (Advance lx3)) = true ->
        ParseExpr lx = Ok (tree, Advance lx3)).
Proof.
  intros f lp1 xs eof ex lx2 ey lx3 Hf Hlp1 Hx Hrp1 Hlp2 Hy Hrp2 Hend lx tree.
  assert (Hcall : ParseCallExpr ParseExpr lx = Ok (tree, Advance lx3)).
  { unfold ParseCallExpr, lx. unfold bind at 1.
    rewrite (@ParseTermExpr_term f (RefExpr (Token.StringValue f)))
      by (unfold term_of; now rewrite Hf).
    match goal with
    | |- While ?c ?b _ _ = _ => set (cond := c); set (body := b)
    end.
    assert (Hround : forall callee pos e pos',
               Token.GetKind (GetToken pos) = Token.LPAREN ->
               ParseExpr (Advance pos) = Ok (e, pos') ->
               Token.GetKind (GetToken pos') = Token.RPAREN ->
               cond pos = Ok (true, pos)
               /\ body callee pos
                  = Ok (Continue (CallExpr callee [e]), Advance pos')).
    { intros callee pos e pos' Hl He Hr. split.
      - unfold cond, bind, Current, ret, Token.Is. now rewrite Hl.
      - unfold body. unfold bind at 1.
        erewrite argument_list_of_one by eassumption.
        unfold bind at 1. rewrite Check_match by assumption. reflexivity. }
    pose proof (consuming_ParseExpr _ Hx) as Hlt1.
    pose proof (consuming_ParseExpr _ Hy) as Hlt2.
    pose proof (remaining_Advance_le lx2).
    pose proof (remaining_Advance_le (Advance lx2)).
    pose proof (remaining_Advance_le lx3).
    destruct (Hround (RefExpr (Token.StringValue f))
                (mkLexer (lp1 :: xs) eof) ex lx2 Hlp1 Hx Hrp1) as [Hc1 Hb1].
    destruct (Hround (CallExpr (RefExpr (Token.StringValue f)) [ex])
                (Advance lx2) ey lx3 Hlp2 Hy Hrp2) as [Hc2 Hb2].
    assert (H3 : While cond body tree (Advance lx3) = Ok (tree, Advance lx3)).
    { apply While_exit. unfold cond, bind, Current, ret.
      unfold ends_call in Hend. apply negb_true_iff in Hend.
      now rewrite Hend. }
    assert (H2 : While cond body (CallExpr (RefExpr (Token.StringValue f)) [ex])
                   (Advance lx2)
                 = Ok (tree, Advance lx3)).
    { rewrite <- H3.
      eapply While_round;
        [exact Hc2 | exact Hb2 | lia | rewrite H3; discriminate]. }
    rewrite <- H2.
    eapply While_round;
      [ exact Hc1 | exact Hb1 | unfold remaining in *; cbn in *; lia
      | rewrite H2; discriminate ]. }
  split; [exact Hcall | intros He; now apply ParseExpr_of_call].
Qed.

End Precedence.

(* ------------------------------------------------------------------------- *)
(** ** Where the parser stops short of the design *)

Section Defects.

Context {show_token : Show Token.t} {show_kind : Show Token.Kind}.
Variable arg : string.

(** C1. On a stream that starts with the [LET] keyword, [ParseLetStmt]
    returns no [LetStmt]: right after checking the keyword it asks that same
    token for an identifier payload, which a keyword does not carry.  The
    statement parser, which hands every [LET] to it, ends the same way.  On
    no stream at all does [ParseLetStmt] return. *)
Theorem ParseLetStmt_aborts_on_let :
  forall loc s n rest eof,
    let lx := mkLexer (Token.mk Token.LET loc s n :: rest) eof in
    ParseLetStmt arg lx = Abort
    /\ ParseStmt arg lx = Abort
    /\ (forall lx' r, ParseLetStmt arg lx' <> Ok r).
Proof.
  intros loc s n rest eof. repeat split.
  intros lx' [stmt lx''] H. unfold ParseLetStmt in H.
  apply bind_Ok in H as (tk & lx1 & H1 & H).
  apply Check_Ok in H1 as (-> & -> & Hk).
  apply bind_Ok in H as (name & lx2 & H & _).
  unfold bind, Current, GetIdent, Token.Is in H. rewrite Hk in H.
  discriminate.
Qed.

(** C3. On the tokens of [func f(] and nothing more, [ParseModule] throws no
    [ParserError]: the parameter loop, finding the end of the stream where a
    [)] or a parameter name should be, asks the end-of-stream token for an
    identifier payload without checking its kind. *)
Theorem ParseModule_aborts_on_open_parameter_list :
  forall name l1 l2 l3 eof,
    ParseModule arg
      (mkLexer [sym Token.FUNC l1; ident name l2; sym Token.LPAREN l3] eof)
    = Abort.
Proof. intros name l1 l2 l3 eof. reflexivity. Qed.

End Defects.

(* ------------------------------------------------------------------------- *)
(** ** Reading from the bytecode *)

Section Reading.

Import Bytecode.
Local Open Scope Z_scope.

Lemma memcpy_inside :
  forall src from n,
    0 <= from -> 0 <= n -> from + n <= Z.of_nat (length src) ->
    exists t,
      memcpy src from n = Some t
      /\ Z.of_nat (length t) = n
      /\ forall i, (i < Z.to_nat n)%nat ->
           nth_error t i = nth_error src (Z.to_nat from + i).
Proof.
  intros src from n Hfrom Hn Hle. unfold memcpy.
  replace (0 <=? from) with true by (symmetry; now apply Z.leb_le).
  replace (from + n <=? Z.of_nat (length src)) with true
    by (symmetry; now apply Z.leb_le).
  cbn. eexists. split; [reflexivity|]. split.
  - rewrite length_firstn, length_skipn. lia.
  - intros i Hi. rewrite nth_error_firstn.
    replace (i <? Z.to_nat n)%nat with true
      by (symmetry; now apply Nat.ltb_lt).
    now rewrite nth_error_skipn.
Qed.

(** A read that fits, with a cursor that does not wrap: the value is the
    [sizeofT] bytes at [pc], and the cursor has moved past them. *)
Lemma Read_inside :
  forall sizeofT p pc,
    0 <= pc -> 0 <= sizeofT -> pc + sizeofT <= size p ->
    size p < 2 ^ SIZE_WIDTH ->
    exists t,
      Read sizeofT p pc = Returns t (pc + sizeofT)
      /\ Z.of_nat (length t) = sizeofT
      /\ forall i, (i < Z.to_nat sizeofT)%nat ->
           nth_error t i = nth_error (code_ p) (Z.to_nat pc + i).
Proof.
  intros sizeofT p pc Hpc Hw Hle Hsize. unfold Read, size_t_add.
  rewrite Z.mod_small by lia.
  replace (pc + sizeofT <=? size p) with true
    by (symmetry; now apply Z.leb_le).
  destruct (memcpy_inside (code_ p) Hpc Hw Hle) as (t & -> & Hlen & Hnth).
  exists t. auto.
Qed.

(** A read that does not fit, with a cursor that does not wrap: the assertion
    fails. *)
Lemma Read_beyond :
  forall sizeofT p pc,
    0 <= pc -> 0 <= sizeofT ->
    size p < pc + sizeofT < 2 ^ SIZE_WIDTH ->
    Read sizeofT p pc = AssertionFailed.
Proof.
  intros sizeofT p pc Hpc Hw H. unfold Read, size_t_add.
  rewrite Z.mod_small by lia.
  replace (pc + sizeofT <=? size p) with false
    by (symmetry; apply Z.leb_gt; lia).
  reflexivity.
Qed.

(** A read whose cursor wraps: when the wrapped sum is within the buffer size
    the assertion passes, and the bytes asked for are not in the buffer. *)
Lemma Read_wrapping :
  forall sizeofT p pc,
    0 <= pc < 2 ^ SIZE_WIDTH -> 0 <= sizeofT < 2 ^ SIZE_WIDTH ->
    2 ^ SIZE_WIDTH <= pc + sizeofT ->
    pc + sizeofT - 2 ^ SIZE_WIDTH <= size p < 2 ^ SIZE_WIDTH ->
    Read sizeofT p pc = ReadsOutside.
Proof.
  intros sizeofT p pc Hpc Hw Hwrap Hsize. unfold Read, size_t_add.
  replace ((pc + sizeofT) mod 2 ^ SIZE_WIDTH)
    with (pc + sizeofT - 2 ^ SIZE_WIDTH).
  - replace (pc + sizeofT - 2 ^ SIZE_WIDTH <=? size p) with true
      by (symmetry; apply Z.leb_le; lia).
    unfold memcpy, size in *.
    replace (pc + sizeofT <=? Z.of_nat (length (code_ p))) with false
      by (symmetry; apply Z.leb_gt; lia).
    now rewrite andb_false_r.
  - apply Z.mod_unique with (q := 1); lia.
Qed.

(** C2. With the cursor at the last value of [size_t], reading one byte from
    a program of eight bytes passes the assertion, because the sum the
    assertion compares has wrapped to zero, and hands [memcpy] a range that
    is not inside the buffer. *)
Theorem Read_wrapped_cursor_reads_outside :
  Read 1 (mkProgram [x00; x01; x02; x03; x04; x05; x06; x07])
       (2 ^ SIZE_WIDTH - 1)
  = ReadsOutside.
Proof. vm_compute. reflexivity. Qed.

End Reading.

(* ------------------------------------------------------------------------- *)
(** ** Host primitives *)

(** C10. On an operand stack whose top is the integer [v], [print_int] reads
    [v] without popping it and pushes it once more: the stack below the new
    top is the stack of before, so the stack is exactly one element taller
    and its two topmost elements are both [v]; the decimal form of [v] has
    been appended to standard output. *)
Theorem PrintInt_stack_effect :
  forall interp v,
    Runtime.PeekInt interp = Some v ->
    exists interp',
      Runtime.PrintInt interp = Some interp'
      /\ Runtime.stack_ interp' = v :: Runtime.stack_ interp
      /\ length (Runtime.stack_ interp')
         = S (length (Runtime.stack_ interp))
      /\ firstn 2 (Runtime.stack_ interp') = [v; v]
      /\ Runtime.cout interp' = Runtime.cout interp ++ decimal v.
Proof.
  intros [stack out] v Hpeek. unfold Runtime.PrintInt. rewrite Hpeek.
  eexists. split; [reflexivity|].
  unfold Runtime.PeekInt in Hpeek. cbn in *.
  destruct stack as [|top rest]; [discriminate|].
  injection Hpeek as ->. repeat split.
Qed.

(* ------------------------------------------------------------------------- *)
(** ** The theorems at work on a sample source *)

Section Samples.

#[local] Existing Instance show_kind_name.
#[local] Existing Instance show_token_kind.

(** [a + b * 3;] *)
Lemma mul_binds_tighter_than_add_witness :
  (term_of tok_a = Some (RefExpr "a") /\ term_of tok_b = Some (RefExpr "b")
   /\ term_of tok_3 = Some (IntExpr 3)
   /\ ends_addsub (GetToken sample_rest) = true
   /\ ends_expr (GetToken sample_rest) = true)
  /\ ParseAddSubExpr ParseExpr (sample_binary Token.PLUS Token.MUL)
     = Ok (BinaryExpr BinaryExpr.ADD (RefExpr "a")
             (BinaryExpr BinaryExpr.MUL (RefExpr "b") (IntExpr 3)),
           sample_rest)
  /\ ParseExpr (sample_binary Token.PLUS Token.MUL)
     = Ok (BinaryExpr BinaryExpr.ADD (RefExpr "a")
             (BinaryExpr BinaryExpr.MUL (RefExpr "b") (IntExpr 3)),
           sample_rest).
Proof.
  split; [repeat split; reflexivity|].
  destruct (@mul_binds_tighter_than_add _ _
              tok_a tok_b tok_3 (sym Token.PLUS (at_ 1 3))
              (sym Token.MUL (at_ 1 7))
              (RefExpr "a") (RefExpr "b") (IntExpr 3) [tok_semi] sample_eof
              eq_refl eq_refl eq_refl eq_refl eq_refl eq_refl) as [H1 H2].
  split; [exact H1 | exact (H2 eq_refl)].
Defined.

(** [a - b - 3;] *)
Lemma sub_is_left_associative_witness :
  (term_of tok_a = Some (RefExpr "a") /\ term_of tok_b = Some (RefExpr "b")
   /\ term_of tok_3 = Some (IntExpr 3)
   /\ ends_addsub (GetToken sample_rest) = true
   /\ ends_expr (GetToken sample_rest) = true)
  /\ ParseAddSubExpr ParseExpr (sample_binary Token.SUB Token.SUB)
     = Ok (BinaryExpr BinaryExpr.SUB
             (BinaryExpr BinaryExpr.SUB (RefExpr "a") (RefExpr "b"))
             (IntExpr 3),
           sample_rest)
  /\ ParseExpr (sample_binary Token.SUB Token.SUB)
     = Ok (BinaryExpr BinaryExpr.SUB
             (BinaryExpr BinaryExpr.SUB (RefExpr "a") (RefExpr "b"))
             (IntExpr 3),
           sample_rest).
Proof.
  split; [repeat split; reflexivity|].
  destruct (@sub_is_left_associative _ _
              tok_a tok_b tok_3 (sym Token.SUB (at_ 1 3))
              (sym Token.SUB (at_ 1 7))
              (RefExpr "a") (RefExpr "b") (IntExpr 3) [tok_semi] sample_eof
              eq_refl eq_refl eq_refl eq_refl eq_refl eq_refl) as [H1 H2].
  split; [exact H1 | exact (H2 eq_refl)].
Defined.

(** [a == b + 3;] *)
Lemma equality_binds_loosest_witness :
  (term_of tok_a = Some (RefExpr "a") /\ term_of tok_b = Some (RefExpr "b")
   /\ term_of tok_3 = Some (IntExpr 3)
   /\ ends_expr (GetToken sample_rest) = true)
  /\ ParseEqualityExpr ParseExpr (sample_binary Token.EQUALS Token.PLUS)
     = Ok (BinaryExpr BinaryExpr.EQUALS (RefExpr "a")
             (BinaryExpr BinaryExpr.ADD (RefExpr "b") (IntExpr 3)),
           sample_rest)
  /\ ParseExpr (sample_binary Token.EQUALS Token.PLUS)
     = Ok (BinaryExpr BinaryExpr.EQUALS (RefExpr "a")
             (BinaryExpr BinaryExpr.ADD (RefExpr "b") (IntExpr 3)),
           sample_rest).
Proof.
  split; [repeat split; reflexivity|].
  destruct (@equality_binds_loosest _ _
              tok_a tok_b tok_3 (sym Token.EQUALS (at_ 1 3))
              (sym Token.PLUS (at_ 1 7))
              (RefExpr "a") (RefExpr "b") (IntExpr 3) [tok_semi] sample_eof
              eq_refl eq_refl eq_refl eq_refl eq_refl eq_refl)
    as (H1 & H2 & _).
  split; [exact H1 | exact H2].
Defined.

(** [f(a)(3);] *)
Lemma call_chain_nests_to_the_left_witness :
  (ParseExpr (Advance (Advance sample_calls))
   = Ok (RefExpr "a", skip 3 sample_calls)
   /\ Token.GetKind (GetToken (skip 3 sample_calls)) = Token.RPAREN
   /\ Token.GetKind (GetToken (skip 4 sample_calls)) = Token.LPAREN
   /\ ParseExpr (skip 5 sample_calls) = Ok (IntExpr 3, skip 6 sample_calls)
   /\ Token.GetKind (GetToken (skip 6 sample_calls)) = Token.RPAREN
   /\ ends_call (GetToken sample_rest) = true
   /\ ends_expr (GetToken sample_rest) = true)
  /\ ParseCallExpr ParseExpr sample_calls
     = Ok (CallExpr (CallExpr (RefExpr "f") [RefExpr "a"]) [IntExpr 3],
           sample_rest)
  /\ ParseExpr sample_calls
     = Ok (CallExpr (CallExpr (RefExpr "f") [RefExpr "a"]) [IntExpr 3],
           sample_rest).
Proof.
  split; [repeat split; reflexivity|].
  destruct (@call_chain_nests_to_the_left _ _
              (ident "f" (at_ 1 1)) (sym Token.LPAREN (at_ 1 2))
              (tokens (skip 2 sample_calls)) sample_eof
              (RefExpr "a") (skip 3 sample_calls)
              (IntExpr 3) (skip 6 sample_calls)
              eq_refl eq_refl eq_refl eq_refl eq_refl eq_refl eq_refl eq_refl)
    as [H1 H2].
  split; [exact H1 | exact (H2 eq_refl)].
Defined.

(** [print_int] on the stack [7; 1], after "x=" was printed. *)
Lemma PrintInt_stack_effect_witness :
  Runtime.PeekInt (Runtime.mkInterp [7; 1]%Z "x=") = Some 7%Z
  /\ exists interp',
       Runtime.PrintInt (Runtime.mkInterp [7; 1]%Z "x=") = Some interp'
       /\ Runtime.stack_ interp' = [7; 7; 1]%Z
       /\ length (Runtime.stack_ interp') = 3
       /\ firstn 2 (Runtime.stack_ interp') = [7; 7]%Z
       /\ Runtime.cout interp' = "x=7".
Proof.
  split; [reflexivity|].
  exact (@PrintInt_stack_effect (Runtime.mkInterp [7; 1]%Z "x=") 7%Z eq_refl).
Defined.

End Samples.

(* ------------------------------------------------------------------------- *)
(** * Further properties of the parser *)

Section Modules.

Context {show_token : Show Token.t} {show_kind : Show Token.Kind}.
Variable arg : string.

(** What the loop of [ParseModule] returns, it has parsed item by item, and
    it has stopped at the end of the stream. *)
Lemma ParseModule_loop_inv :
  forall fuel acc lx result lx',
    while_fuel fuel (bind Current (fun tk => ret (Token.valid tk)))
      (fun body =>
         bind (ParseTopLevel arg)
              (fun item => ret (Continue (body ++ [item])%list)))
      acc lx
    = Ok (result, lx') ->
    exists items,
      result = (acc ++ items)%list
      /\ parsed arg lx items lx'
      /\ Token.valid (GetToken lx') = false.
Proof.
  induction fuel as [|fuel IH]; intros acc lx result lx' H; [discriminate|].
  cbn [while_fuel] in H. unfold bind at 1 in H. unfold Current, ret in H.
  destruct (Token.valid (GetToken lx)) eqn:Hvalid.
  - unfold bind at 1 in H.
    destruct (ParseTopLevel arg lx) as [[item lx1]| | |] eqn:Hitem;
      try discriminate.
    apply IH in H as (items & -> & Hrun & Hend).
    exists (item :: items). rewrite <- app_assoc. repeat split; try assumption.
    econstructor; eassumption.
  - injection H as <- <-. exists []. rewrite app_nil_r.
    repeat split; [constructor | assumption].
Qed.

(** X1. [ParseModule] returns a list of items exactly when the stream is those
    items one after the other, in that order, up to the end of the stream:
    nothing of the input is left unparsed. *)
Theorem ParseModule_returns_iff :
  forall lx items lx',
    ParseModule arg lx = Ok (items, lx')
    <-> parsed arg lx items lx' /\ Token.valid (GetToken lx') = false.
Proof.
  intros lx items lx'. split.
  - intros H. unfold ParseModule, While in H.
    apply ParseModule_loop_inv in H as (items' & -> & Hrun & Hend). auto.
  - intros [Hrun Hend]. now apply ParseModule_returns.
Qed.

(** X2. [ParseModule] comes to an end on every token stream: with the list of
    its items, with a [ParserError], or at a payload read from a token of
    another kind.  No loop of the parser goes round without consuming a
    token. *)
Theorem ParseModule_terminates :
  forall lx,
    (exists items lx', ParseModule arg lx = Ok (items, lx'))
    \/ (exists what, ParseModule arg lx = Throw what)
    \/ ParseModule arg lx = Abort.
Proof.
  intros lx. pose proof (ParseModule_total arg lx) as Hfuel.
  destruct (ParseModule arg lx) as [[items lx']|what| |].
  - left. now exists items, lx'.
  - right. left. now exists what.
  - right. right. reflexivity.
  - now contradiction Hfuel.
Qed.

(** X3. A statement that is parsed takes at least one token, and the parser
    stands further on in the same stream. *)
Theorem ParseStmt_advances :
  forall lx s lx',
    ParseStmt arg lx = Ok (s, lx') ->
    reaches lx lx' /\ remaining lx' < remaining lx.
Proof.
  intros lx s lx' H. split.
  - pose proof (steady_ParseStmt arg lx) as Hs. now rewrite H in Hs.
  - eapply consuming_ParseStmt. eassumption.
Qed.

End Modules.

Section Expressions.

Context {show_token : Show Token.t} {show_kind : Show Token.Kind}.

(** X4. An expression that is parsed takes at least one token, and the parser
    stands further on in the same stream. *)
Theorem ParseExpr_advances :
  forall lx e lx',
    ParseExpr lx = Ok (e, lx') ->
    reaches lx lx' /\ remaining lx' < remaining lx.
Proof.
  intros lx e lx' H. split.
  - pose proof (steady_ParseExpr lx) as Hs. now rewrite H in Hs.
  - eapply consuming_ParseExpr. eassumption.
Qed.

(** X5. Where an expression is expected and the current token is neither an
    identifier nor an integer literal, [ParseExpr] throws at that token,
    consuming nothing: parentheses, signs and keywords start no
    expression. *)
Theorem ParseExpr_rejects_non_term :
  forall lx,
    term_of (GetToken lx) = None ->
    ParseExpr lx
    = Throw (FormatMessage (Token.GetLocation (GetToken lx))
               ("unexpected " ++ show (GetToken lx) ++ ", expecting term")).
Proof.
  intros lx H. rewrite ParseExpr_unfold.
  unfold ParseEqualityExpr, ParseAddSubExpr, ParseMulExpr, ParseCallExpr.
  do 4 (apply bind_Throw).
  unfold ParseTermExpr, bind, Current. unfold term_of in H.
  destruct (Token.GetKind (GetToken lx)); try discriminate H; reflexivity.
Qed.

End Expressions.

(* ------------------------------------------------------------------------- *)
(** ** The three operator loops, on chains of any length *)

Section Chains.

Context {show_token : Show Token.t} {show_kind : Show Token.Kind}.

Section Loop.

(** One level of the ladder: the parser of its operands, the test of its loop
    and the body of its loop, with what makes a token an operator of the
    level. *)
Variable Operand : Type.
Variable tokens_of : Operand -> list Token.t.
Variable tree_of : Operand -> option Expr.
Variable kind_of : Token.t -> option BinaryExpr.Kind.
Variable follow : Token.t -> bool.
Variable sub : M Expr.
Variable cond : M bool.
Variable body : Expr -> M (LoopCtl Expr).

Hypothesis cond_tests :
  forall lx,
    cond lx
    = Ok (match kind_of (GetToken lx) with Some _ => true | None => false end,
          lx).
Hypothesis body_builds :
  forall term op kind toks eof rhs lx',
    kind_of op = Some kind ->
    sub (mkLexer toks eof) = Ok (rhs, lx') ->
    body term (mkLexer (op :: toks) eof)
    = Ok (Continue (BinaryExpr kind term rhs), lx').
Hypothesis operators_follow :
  forall op kind, kind_of op = Some kind -> follow op = true.
Hypothesis operands_parse :
  forall x e, tree_of x = Some e -> parses_as sub follow (tokens_of x) e.

Lemma chain_loop :
  forall ops acc tree tail eof,
    fold_chain kind_of tree_of acc ops = Some tree ->
    follow (GetToken (mkLexer tail eof)) = true ->
    kind_of (GetToken (mkLexer tail eof)) = None ->
    While cond body acc
      (mkLexer (flat_map (fun '(op, x) => op :: tokens_of x) ops ++ tail) eof)
    = Ok (tree, mkLexer tail eof).
Proof.
  induction ops as [|[op x] ops IH]; intros acc tree tail eof Htree Hf Hk.
  - cbn in Htree. injection Htree as <-. cbn [flat_map app].
    apply While_exit. rewrite cond_tests. now rewrite Hk.
  - cbn in Htree.
    destruct (kind_of op) as [kind|] eqn:Hop; [|discriminate].
    destruct (tree_of x) as [rhs|] eqn:Hx; [|discriminate].
    specialize (IH _ _ tail eof Htree Hf Hk).
    cbn [flat_map]. rewrite <- app_assoc. cbn [app].
    rewrite <- IH. eapply While_round.
    + rewrite cond_tests. cbn [GetToken tokens]. now rewrite Hop.
    + eapply body_builds; [eassumption|].
      apply (operands_parse Hx).
      destruct ops as [|[op' x'] ops'].
      * exact Hf.
      * cbn in Htree. destruct (kind_of op') eqn:Hop'; [|discriminate].
        cbn [flat_map app GetToken tokens]. eapply operators_follow.
        eassumption.
    + unfold remaining. cbn [tokens length]. rewrite !length_app. lia.
    + rewrite IH. discriminate.
Qed.

(** The follower of the first operand, in front of a chain. *)
Lemma chain_head_follows :
  forall ops acc tree tail eof,
    fold_chain kind_of tree_of acc ops = Some tree ->
    follow (GetToken (mkLexer tail eof)) = true ->
    follow
      (GetToken
         (mkLexer
            (flat_map (fun '(op, x) => op :: tokens_of x) ops ++ tail) eof))
    = true.
Proof.
  intros [|[op x] ops] acc tree tail eof Htree Hf; [exact Hf|].
  cbn in Htree. destruct (kind_of op) eqn:Hop; [|discriminate].
  cbn [flat_map app GetToken tokens]. eapply operators_follow. eassumption.
Qed.

End Loop.

(** A term that no argument list follows is a call expression by itself. *)
Lemma term_parses :
  forall t e,
    term_of t = Some e -> parses_as (ParseCallExpr ParseExpr) ends_call [t] e.
Proof.
  intros t e Ht tail eof Hf. cbn [app].
  unfold ParseCallExpr. unfold bind at 1.
  erewrite ParseTermExpr_term by eassumption.
  apply While_exit. unfold bind, Current, ret.
  unfold ends_call in Hf. apply negb_true_iff in Hf. now rewrite Hf.
Qed.

Lemma mul_of_Some :
  forall op kind,
    mul_of op = Some kind ->
    kind = BinaryExpr.MUL /\ Token.GetKind op = Token.MUL.
Proof.
  intros op kind H. unfold mul_of, Token.Is in H.
  destruct (Token.Kind_eqb (Token.GetKind op) Token.MUL) eqn:E;
    [|discriminate].
  apply Kind_eqb_eq in E. injection H as <-. auto.
Qed.

Lemma equals_of_Some :
  forall op kind,
    equals_of op = Some kind ->
    kind = BinaryExpr.EQUALS /\ Token.GetKind op = Token.EQUALS.
Proof.
  intros op kind H. unfold equals_of, Token.Is in H.
  destruct (Token.Kind_eqb (Token.GetKind op) Token.EQUALS) eqn:E;
    [|discriminate].
  apply Kind_eqb_eq in E. injection H as <-. auto.
Qed.

(** [ParseMulExpr] on a product of terms. *)
Lemma product_parses :
  forall p tree,
    product_tree p = Some tree ->
    parses_as (ParseMulExpr ParseExpr) ends_mul (product_tokens p) tree.
Proof.
  intros [first ops] tree Htree tail eof Hf.
  unfold product_tree in Htree. cbn [fst snd] in Htree.
  destruct (term_of first) as [e0|] eqn:Hfirst; [|discriminate].
  assert (Hcall : ends_call (GetToken (mkLexer tail eof)) = true)
    by (unfold ends_mul in Hf; now apply andb_prop in Hf as [Hf _]).
  assert (Hmul : mul_of (GetToken (mkLexer tail eof)) = None).
  { unfold ends_mul in Hf. apply andb_prop in Hf as [_ Hf].
    apply negb_true_iff in Hf. unfold mul_of. now rewrite Hf. }
  assert (Hops : forall op kind, mul_of op = Some kind -> ends_call op = true).
  { intros op kind H. apply mul_of_Some in H as [_ H].
    unfold ends_call, Token.Is. now rewrite H. }
  unfold ParseMulExpr, product_tokens. cbn [fst snd app].
  unfold bind at 1.
  pose proof (@term_parses first e0 Hfirst
                (flat_map (fun '(op, t) => [op; t]) ops ++ tail)%list eof)
    as Hhead.
  cbn [app] in Hhead. rewrite Hhead
    by (eapply (@chain_head_follows _ (fun t : Token.t => [t]) term_of mul_of
                  ends_call Hops); eassumption).
  eapply (@chain_loop _ (fun t : Token.t => [t]) term_of mul_of ends_call
            (ParseCallExpr ParseExpr)).
  - intros lx. unfold bind, Current, ret, mul_of.
    now destruct (Token.Is (GetToken lx) Token.MUL).
  - intros term op kind toks eof' rhs lx' Hk Hsub.
    apply mul_of_Some in Hk as [-> _].
    unfold bind at 1. unfold Next. cbv beta iota.
    change (Advance (mkLexer (op :: toks) eof')) with (mkLexer toks eof').
    unfold bind at 1. now rewrite Hsub.
  - exact Hops.
  - intros t e. apply term_parses.
  - exact Htree.
  - exact Hcall.
  - exact Hmul.
Qed.

(** [ParseAddSubExpr] on a sum of products of terms. *)
Lemma sum_parses :
  forall s tree,
    sum_tree s = Some tree ->
    parses_as (ParseAddSubExpr ParseExpr) ends_addsub (sum_tokens s) tree.
Proof.
  intros [first ops] tree Htree tail eof Hf.
  unfold sum_tree in Htree. cbn [fst snd] in Htree.
  destruct (product_tree first) as [e0|] eqn:Hfirst; [|discriminate].
  assert (Hmul : ends_mul (GetToken (mkLexer tail eof)) = true)
    by (unfold ends_addsub in Hf; now apply andb_prop in Hf as [Hf _]).
  assert (Hnone : addsub_of (GetToken (mkLexer tail eof)) = None).
  { unfold ends_addsub in Hf. apply andb_prop in Hf as [_ Hf].
    apply negb_true_iff, orb_false_elim in Hf as [Hp Hs].
    unfold addsub_of. unfold Token.Is in Hp, Hs.
    destruct (Token.GetKind (GetToken (mkLexer tail eof)));
      try reflexivity; discriminate. }
  unfold ParseAddSubExpr, sum_tokens. cbn [fst snd].
  rewrite <- app_assoc. unfold bind at 1.
  rewrite (@product_parses first e0 Hfirst
             (flat_map (fun '(op, p) => op :: product_tokens p) ops ++ tail)%list
             eof)
    by (eapply (@chain_head_follows _ product_tokens product_tree addsub_of
                  ends_mul addsub_ends_mul); eassumption).
  eapply (@chain_loop _ product_tokens product_tree addsub_of ends_mul
            (ParseMulExpr ParseExpr)).
  - intros lx. unfold bind, Current, ret, addsub_of, Token.Is.
    now destruct (Token.GetKind (GetToken lx)).
  - intros term op kind toks eof' rhs lx' Hk Hsub.
    unfold bind at 1. unfold Current. cbv beta iota zeta.
    unfold bind at 1. unfold Next. cbv beta iota.
    change (Advance (mkLexer (op :: toks) eof')) with (mkLexer toks eof').
    unfold bind at 1. rewrite Hsub. cbn [GetToken tokens].
    unfold addsub_of in Hk. unfold Token.Is, ret.
    destruct (Token.GetKind op); try discriminate Hk;
      injection Hk as <-; reflexivity.
  - exact addsub_ends_mul.
  - exact product_parses.
  - exact Htree.
  - exact Hmul.
  - exact Hnone.
Qed.

Lemma equals_ends_addsub :
  forall op kind, equals_of op = Some kind -> ends_addsub op = true.
Proof.
  intros op kind H. apply equals_of_Some in H as [_ H].
  unfold ends_addsub, ends_mul, ends_call, Token.Is. now rewrite H.
Qed.

(** [ParseEqualityExpr] on a comparison of sums of products of terms. *)
Lemma comparison_parses :
  forall c tree,
    comparison_tree c = Some tree ->
    parses_as (ParseEqualityExpr ParseExpr) ends_expr
              (comparison_tokens c) tree.
Proof.
  intros [first ops] tree Htree tail eof Hf.
  unfold comparison_tree in Htree. cbn [fst snd] in Htree.
  destruct (sum_tree first) as [e0|] eqn:Hfirst; [|discriminate].
  assert (Hadd : ends_addsub (GetToken (mkLexer tail eof)) = true)
    by (unfold ends_expr in Hf; now apply andb_prop in Hf as [Hf _]).
  assert (Hnone : equals_of (GetToken (mkLexer tail eof)) = None).
  { unfold ends_expr in Hf. apply andb_prop in Hf as [_ Hf].
    apply negb_true_iff in Hf. unfold equals_of. now rewrite Hf. }
  unfold ParseEqualityExpr, comparison_tokens. cbn [fst snd].
  rewrite <- app_assoc. unfold bind at 1.
  rewrite (@sum_parses first e0 Hfirst
             (flat_map (fun '(op, s) => op :: sum_tokens s) ops ++ tail)%list
             eof)
    by (eapply (@chain_head_follows _ sum_tokens sum_tree equals_of
                  ends_addsub equals_ends_addsub); eassumption).
  eapply (@chain_loop _ sum_tokens sum_tree equals_of ends_addsub
            (ParseAddSubExpr ParseExpr)).
  - intros lx. unfold bind, Current, ret, equals_of.
    now destruct (Token.Is (GetToken lx) Token.EQUALS).
  - intros term op kind toks eof' rhs lx' Hk Hsub.
    apply equals_of_Some in Hk as [-> _].
    unfold bind at 1. unfold Next. cbv beta iota.
    change (Advance (mkLexer (op :: toks) eof')) with (mkLexer toks eof').
    unfold bind at 1. now rewrite Hsub.
  - exact equals_ends_addsub.
  - exact sum_parses.
  - exact Htree.
  - exact Hadd.
  - exact Hnone.
Qed.

(** [ParseExpr] on a comparison of sums of products of terms. *)
Lemma expression_parses :
  forall c tree,
    comparison_tree c = Some tree ->
    parses_as ParseExpr ends_expr (comparison_tokens c) tree.
Proof.
  intros c tree Htree tail eof Hf. rewrite ParseExpr_unfold.
  now apply comparison_parses.
Qed.

(** X6. A product of terms of any length: [ParseMulExpr] nests it to the left,
    [t0 * t1 * t2] being [MUL(MUL(t0, t1), t2)], and stops at the first token
    that is neither a star nor an open parenthesis. *)
Theorem ParseMulExpr_nests_products_left :
  forall p tree rest eof,
    product_tree p = Some tree ->
    ends_mul (GetToken (mkLexer rest eof)) = true ->
    ParseMulExpr ParseExpr (mkLexer (product_tokens p ++ rest) eof)
    = Ok (tree, mkLexer rest eof).
Proof. intros p tree rest eof Htree Hf. now apply product_parses. Qed.

(** X7. A sum of products of any length: [ParseAddSubExpr] makes each product an
    operand, whatever its length, and nests the additions and subtractions
    to the left in the order they are written. *)
Theorem ParseAddSubExpr_nests_sums_left :
  forall s tree rest eof,
    sum_tree s = Some tree ->
    ends_addsub (GetToken (mkLexer rest eof)) = true ->
    ParseAddSubExpr ParseExpr (mkLexer (sum_tokens s ++ rest) eof)
    = Ok (tree, mkLexer rest eof).
Proof. intros s tree rest eof Htree Hf. now apply sum_parses. Qed.

(** X8. Any expression written with terms and the four operators: [ParseExpr]
    returns the tree in which [*] binds tighter than [+] and [-], these
    tighter than [==], and every operator nests to the left. *)
Theorem ParseExpr_operator_precedence :
  forall c tree rest eof,
    comparison_tree c = Some tree ->
    ends_expr (GetToken (mkLexer rest eof)) = true ->
    ParseExpr (mkLexer (comparison_tokens c ++ rest) eof)
    = Ok (tree, mkLexer rest eof).
Proof.
  intros c tree rest eof Htree Hf. now apply expression_parses.
Qed.

End Chains.

(* ------------------------------------------------------------------------- *)
(** ** Argument lists and chains of calls *)

Section CallChains.

Context {show_token : Show Token.t} {show_kind : Show Token.Kind}.

(** An operator expression starts with a term: no close parenthesis. *)
Lemma comparison_starts_with_term :
  forall c tree tail eof,
    comparison_tree c = Some tree ->
    Token.Is (GetToken (mkLexer (comparison_tokens c ++ tail) eof))
             Token.RPAREN
    = false.
Proof.
  intros [[[first ops] sums] cmps] tree tail eof H.
  unfold comparison_tree, sum_tree, product_tree in H. cbn [fst snd] in H.
  destruct (term_of first) eqn:Hfirst; [|discriminate].
  unfold comparison_tokens, sum_tokens, product_tokens. cbn [fst snd].
  rewrite <- !app_assoc. cbn [app GetToken tokens].
  unfold term_of in Hfirst. unfold Token.Is.
  destruct (Token.GetKind first); try discriminate Hfirst; reflexivity.
Qed.

Lemma arglist_tokens_cons :
  forall c sep l,
    arglist_tokens ((c, sep) :: l)
    = (comparison_tokens c
       ++ match sep with Some comma => [comma] | None => [] end
       ++ arglist_tokens l)%list.
Proof.
  intros c sep l. unfold arglist_tokens. cbn [flat_map].
  now rewrite <- app_assoc.
Qed.

(** The loop that collects the arguments, entered at the token before the
    first of them, ends at the close parenthesis with all of them in
    order. *)
Lemma arglist_loop :
  forall l acc args prev rp rest eof,
    arglist_trees l = Some args ->
    Token.GetKind rp = Token.RPAREN ->
    While (bind Next (fun tk => ret (negb (Token.Is tk Token.RPAREN))))
          (fun args =>
             bind ParseExpr (fun e =>
             bind Current (fun tk =>
               if negb (Token.Is tk Token.COMMA)
               then ret (Break (args ++ [e])%list)
               else ret (Continue (args ++ [e])%list))))
          acc (mkLexer (prev :: arglist_tokens l ++ rp :: rest) eof)
    = Ok ((acc ++ args)%list, mkLexer (rp :: rest) eof).
Proof.
  induction l as [|[c sep] l IH]; intros acc args prev rp rest eof Htrees Hrp.
  - cbn in Htrees. injection Htrees as <-. rewrite app_nil_r.
    apply While_exit. unfold bind, Next, ret. cbn. unfold Token.Is.
    now rewrite Hrp.
  - cbn [arglist_trees] in Htrees.
    destruct (comparison_tree c) as [e|] eqn:Hc; [|discriminate].
    assert (Hcond :
              bind Next (fun tk => ret (negb (Token.Is tk Token.RPAREN)))
                   (mkLexer (prev :: arglist_tokens ((c, sep) :: l)
                                  ++ rp :: rest) eof)
              = Ok (true,
                    mkLexer (arglist_tokens ((c, sep) :: l) ++ rp :: rest)
                            eof)).
    { unfold bind, Next, ret.
      change (Advance (mkLexer (prev :: arglist_tokens ((c, sep) :: l)
                                     ++ rp :: rest) eof))
        with (mkLexer (arglist_tokens ((c, sep) :: l) ++ rp :: rest) eof).
      rewrite arglist_tokens_cons, <- !app_assoc.
      now rewrite (comparison_starts_with_term _ _ _ Hc). }
    destruct sep as [comma|].
    + destruct (Token.Is comma Token.COMMA) eqn:Hcomma; [|discriminate].
      destruct (arglist_trees l) as [es|] eqn:Hl; [|discriminate].
      injection Htrees as <-.
      specialize (IH (acc ++ [e])%list es comma rp rest eof eq_refl Hrp).
      rewrite <- app_assoc in IH. cbn [app] in IH.
      rewrite <- IH. eapply While_round; [exact Hcond | | | ].
      * rewrite arglist_tokens_cons, <- !app_assoc. cbn [app].
        unfold bind at 1.
        rewrite (@expression_parses _ _ c e Hc
                   (comma :: arglist_tokens l ++ rp :: rest)%list eof)
          by (unfold ends_expr, ends_addsub, ends_mul, ends_call, Token.Is
                in *; cbn [GetToken tokens];
              destruct (Token.GetKind comma); try discriminate Hcomma;
              reflexivity).
        unfold bind, Current, ret. cbn [GetToken tokens].
        now rewrite Hcomma.
      * unfold remaining. cbn [tokens]. rewrite arglist_tokens_cons.
        cbn [length]. repeat (rewrite length_app; cbn [length]). lia.
      * rewrite IH. discriminate.
    + destruct l as [|? ?]; [|discriminate]. injection Htrees as <-.
      eapply While_break; [exact Hcond|].
      rewrite arglist_tokens_cons. cbn [arglist_tokens flat_map app].
      rewrite !app_nil_r. unfold bind at 1.
      rewrite (@expression_parses _ _ c e Hc (rp :: rest) eof)
        by (unfold ends_expr, ends_addsub, ends_mul, ends_call, Token.Is;
            cbn [GetToken tokens]; now rewrite Hrp).
      unfold bind, Current, ret. cbn [GetToken tokens]. unfold Token.Is.
      now rewrite Hrp.
Qed.

(** The loop of [ParseCallExpr] applies one argument list after the other,
    each call being the callee of the next. *)
Lemma calls_loop :
  forall calls callee tree rest eof,
    calls_tree callee calls = Some tree ->
    ends_call (GetToken (mkLexer rest eof)) = true ->
    While (bind Current (fun tk => ret (Token.Is tk Token.LPAREN)))
          (fun callee =>
             bind (While (bind Next (fun tk =>
                            ret (negb (Token.Is tk Token.RPAREN))))
                         (fun args =>
                            bind ParseExpr (fun e =>
                            bind Current (fun tk =>
                              if negb (Token.Is tk Token.COMMA)
                              then ret (Break (args ++ [e])%list)
                              else ret (Continue (args ++ [e])%list))))
                         [])
                  (fun args =>
             bind (Check Token.RPAREN) (fun _ =>
             bind Next (fun _ =>
             ret (Continue (CallExpr callee args))))))
          callee (mkLexer (flat_map call_tokens calls ++ rest) eof)
    = Ok (tree, mkLexer rest eof).
Proof.
  induction calls as [|[[lp l] rp] calls IH];
    intros callee tree rest eof Htree Hend.
  - cbn in Htree. injection Htree as <-. cbn [flat_map app].
    apply While_exit. unfold bind, Current, ret.
    unfold ends_call in Hend. apply negb_true_iff in Hend. now rewrite Hend.
  - cbn [calls_tree] in Htree.
    destruct (Token.Is lp Token.LPAREN) eqn:Hlp; [|discriminate].
    destruct (Token.Is rp Token.RPAREN) eqn:Hrp; [|discriminate].
    cbn [andb] in Htree.
    destruct (arglist_trees l) as [args|] eqn:Hl; [|discriminate].
    specialize (IH _ _ rest eof Htree Hend).
    apply Kind_eqb_eq in Hrp.
    cbn [flat_map call_tokens app]. rewrite <- !app_assoc. cbn [app].
    rewrite <- IH. eapply While_round.
    + unfold bind, Current, ret. cbn [GetToken tokens]. now rewrite Hlp.
    + unfold bind at 1.
      rewrite (@arglist_loop l [] args lp rp
                 (flat_map call_tokens calls ++ rest)%list eof Hl Hrp).
      cbn [app]. unfold bind at 1.
      rewrite Check_match by exact Hrp.
      unfold bind, Next, ret. reflexivity.
    + unfold remaining. cbn [tokens length].
      repeat (rewrite length_app; cbn [length]). lia.
    + rewrite IH. discriminate.
Qed.

(** X9. A callee followed by any number of argument lists, each with any number
    of arguments: [ParseCallExpr] applies the lists from left to right, keeps
    the arguments of each in the order they are written, accepts an empty
    list and a comma after the last argument, and takes an integer literal
    for a callee as readily as an identifier. *)
Theorem ParseCallExpr_applies_calls :
  forall f callee calls tree rest eof,
    term_of f = Some callee ->
    calls_tree callee calls = Some tree ->
    ends_call (GetToken (mkLexer rest eof)) = true ->
    ParseCallExpr ParseExpr
      (mkLexer (f :: flat_map call_tokens calls ++ rest) eof)
    = Ok (tree, mkLexer rest eof).
Proof.
  intros f callee calls tree rest eof Hf Htree Hend.
  unfold ParseCallExpr. unfold bind at 1.
  erewrite ParseTermExpr_term by eassumption.
  now apply calls_loop.
Qed.

End CallChains.

(* ------------------------------------------------------------------------- *)
(** ** Statements *)

Section StatementForms.

Context {show_token : Show Token.t} {show_kind : Show Token.Kind}.
Variable arg : string.

(** [ParseStmt] at a given kind of token is the branch of its switch. *)
Lemma ParseStmt_dispatch :
  forall lx,
    ParseStmt arg lx
    = match Token.GetKind (GetToken lx) with
      | Token.RETURN => ParseReturnStmt lx
      | Token.WHILE => ParseWhileStmt (ParseStmt arg) lx
      | Token.IF => ParseIfStmt (ParseStmt arg) lx
      | Token.LET => ParseLetStmt arg lx
      | Token.LBRACE => ParseBlockStmt (ParseStmt arg) lx
      | _ =>
          bind ParseExpr (fun expr =>
          bind (Check Token.SEMI) (fun _ =>
          bind Next (fun _ => ret (ExprStmt expr)))) lx
      end.
Proof.
  intros lx. rewrite ParseStmt_unfold. unfold ParseStmt_body.
  unfold bind at 1. unfold Current.
  destruct (Token.GetKind (GetToken lx)); reflexivity.
Qed.

(** What closes a statement that ends in an expression: the semicolon is
    consumed, anything else is reported where it stands. *)
Lemma terminator :
  forall A (stmt : A) lx,
    bind (Check Token.SEMI) (fun _ => bind Next (fun _ => ret stmt)) lx
    = if Token.Kind_eqb (Token.GetKind (GetToken lx)) Token.SEMI
      then Ok (stmt, Advance lx)
      else Throw (expecting Token.SEMI (GetToken lx)).
Proof.
  intros A stmt lx.
  destruct (Token.Kind_eqb (Token.GetKind (GetToken lx)) Token.SEMI) eqn:E.
  - apply Kind_eqb_eq in E. unfold bind at 1.
    now rewrite Check_match by exact E.
  - apply bind_Throw. apply Check_mismatch. intros H.
    rewrite H in E. discriminate.
Qed.

(** X10. [return e;]: the expression after the keyword, then the semicolon.
    Without the semicolon the error is raised at the token found in its
    place, after the whole expression was parsed. *)
Theorem return_statement :
  forall lx e lx1,
    Token.GetKind (GetToken lx) = Token.RETURN ->
    ParseExpr (Advance lx) = Ok (e, lx1) ->
    ParseStmt arg lx
    = if Token.Kind_eqb (Token.GetKind (GetToken lx1)) Token.SEMI
      then Ok (ReturnStmt e, Advance lx1)
      else Throw (expecting Token.SEMI (GetToken lx1)).
Proof.
  intros lx e lx1 Hret He. rewrite ParseStmt_dispatch, Hret.
  unfold ParseReturnStmt. unfold bind at 1.
  rewrite Check_match by exact Hret.
  unfold bind at 1. unfold Next. cbv beta iota.
  unfold bind at 1. rewrite He. apply terminator.
Qed.

(** X11. [e;]: an expression is a statement once its semicolon is there; without
    it the error is raised at the token found in its place. *)
Theorem expression_statement :
  forall lx e lx1,
    ParseExpr lx = Ok (e, lx1) ->
    ParseStmt arg lx
    = if Token.Kind_eqb (Token.GetKind (GetToken lx1)) Token.SEMI
      then Ok (ExprStmt e, Advance lx1)
      else Throw (expecting Token.SEMI (GetToken lx1)).
Proof.
  intros lx e lx1 He. rewrite ParseStmt_dispatch.
  destruct (ParseExpr_starts_with_term _ He) as [Hk | Hk]; rewrite Hk;
    (unfold bind at 1; rewrite He; apply terminator).
Qed.

(** X12. A token that starts no statement and no expression, be it a semicolon
    alone, a close brace or an [else] without its [if], is rejected where it
    stands with the diagnostic of a missing term. *)
Theorem ParseStmt_rejects_stray_token :
  forall lx,
    In (Token.GetKind (GetToken lx))
       [Token.FUNC; Token.ELSE; Token.LPAREN; Token.RPAREN; Token.RBRACE;
        Token.COLON; Token.SEMI; Token.EQUAL; Token.COMMA; Token.PLUS;
        Token.SUB; Token.MUL; Token.EQUALS; Token.STRING; Token.END] ->
    ParseStmt arg lx
    = Throw (FormatMessage (Token.GetLocation (GetToken lx))
               ("unexpected " ++ show (GetToken lx) ++ ", expecting term")).
Proof.
  intros lx Hin. rewrite ParseStmt_dispatch.
  assert (Hterm : term_of (GetToken lx) = None).
  { unfold term_of. cbn [In] in Hin.
    repeat (destruct Hin as [<- | Hin]; [reflexivity|]). contradiction. }
  assert (He : ParseExpr lx
               = Throw (FormatMessage (Token.GetLocation (GetToken lx))
                          ("unexpected " ++ show (GetToken lx)
                           ++ ", expecting term"))).
  { rewrite ParseExpr_unfold.
    unfold ParseEqualityExpr, ParseAddSubExpr, ParseMulExpr, ParseCallExpr.
    do 4 (apply bind_Throw).
    unfold ParseTermExpr, bind, Current. unfold term_of in Hterm.
    destruct (Token.GetKind (GetToken lx)); try discriminate Hterm;
      reflexivity. }
  cbn [In] in Hin.
  repeat (destruct Hin as [<- | Hin]; [now apply bind_Throw|]).
  contradiction.
Qed.

(** The head shared by [while] and [if]: the keyword, the parenthesised
    condition, and the statement it controls. *)
Lemma controlled_statement :
  forall A (k : Expr -> Stmt -> M A) keyword lx cond lx1 stmt lx2,
    Token.GetKind (GetToken lx) = keyword ->
    Token.GetKind (GetToken (Advance lx)) = Token.LPAREN ->
    ParseExpr (Advance (Advance lx)) = Ok (cond, lx1) ->
    Token.GetKind (GetToken lx1) = Token.RPAREN ->
    ParseStmt arg (Advance lx1) = Ok (stmt, lx2) ->
    bind (Check keyword) (fun _ =>
    bind (Expect Token.LPAREN) (fun _ =>
    bind Next (fun _ =>
    bind ParseExpr (fun cond =>
    bind (Check Token.RPAREN) (fun _ =>
    bind Next (fun _ =>
    bind (ParseStmt arg) (fun stmt => k cond stmt))))))) lx
    = k cond stmt lx2.
Proof.
  intros A k keyword lx cond lx1 stmt lx2 Hkw Hlp Hcond Hrp Hstmt.
  unfold bind at 1. rewrite Check_match by exact Hkw.
  unfold bind at 1. unfold Expect. unfold bind at 1. unfold Next at 1.
  cbv beta iota. rewrite Check_match by exact Hlp.
  unfold bind at 1. unfold Next at 1. cbv beta iota.
  unfold bind at 1. rewrite Hcond.
  unfold bind at 1. rewrite Check_match by exact Hrp.
  unfold bind at 1. unfold Next at 1. cbv beta iota.
  unfold bind at 1. now rewrite Hstmt.
Qed.

(** What a parse of the shared head went through, when it returns. *)
Lemma controlled_statement_inv :
  forall A (k : Expr -> Stmt -> M A) keyword lx a lx3,
    bind (Check keyword) (fun _ =>
    bind (Expect Token.LPAREN) (fun _ =>
    bind Next (fun _ =>
    bind ParseExpr (fun cond =>
    bind (Check Token.RPAREN) (fun _ =>
    bind Next (fun _ =>
    bind (ParseStmt arg) (fun stmt => k cond stmt))))))) lx
    = Ok (a, lx3) ->
    exists cond lx1 stmt lx2,
      Token.GetKind (GetToken (Advance lx)) = Token.LPAREN
      /\ ParseExpr (Advance (Advance lx)) = Ok (cond, lx1)
      /\ Token.GetKind (GetToken lx1) = Token.RPAREN
      /\ ParseStmt arg (Advance lx1) = Ok (stmt, lx2)
      /\ k cond stmt lx2 = Ok (a, lx3).
Proof.
  intros A k keyword lx a lx3 H.
  apply bind_Ok in H as (tk0 & l0 & Hkw & H).
  apply Check_Ok in Hkw as (-> & _ & _).
  apply bind_Ok in H as (tk1 & l1 & Hlp & H).
  unfold Expect in Hlp. apply bind_Ok in Hlp as (tk1' & l1' & Hnext & Hlp).
  unfold Next in Hnext. injection Hnext as <- <-.
  apply Check_Ok in Hlp as (-> & -> & Hlp).
  apply bind_Ok in H as (tk2 & l2 & Hnext & H).
  unfold Next in Hnext. injection Hnext as <- <-.
  apply bind_Ok in H as (cond & lx1 & Hcond & H).
  apply bind_Ok in H as (tk3 & l3 & Hrp & H).
  apply Check_Ok in Hrp as (-> & -> & Hrp).
  apply bind_Ok in H as (tk4 & l4 & Hnext & H).
  unfold Next in Hnext. injection Hnext as <- <-.
  apply bind_Ok in H as (stmt & lx2 & Hstmt & H).
  exists cond, lx1, stmt, lx2. auto.
Qed.

(** X13. [while (cond) stmt]: where a statement starts with [while], [ParseStmt]
    returns exactly the loops whose condition stands between parentheses and
    is followed by one statement, the body; nothing is consumed after the
    body. *)
Theorem while_statement_iff :
  forall lx s lx2,
    Token.GetKind (GetToken lx) = Token.WHILE ->
    (ParseStmt arg lx = Ok (s, lx2)
     <-> exists cond lx1 stmt,
           s = WhileStmt cond stmt
           /\ Token.GetKind (GetToken (Advance lx)) = Token.LPAREN
           /\ ParseExpr (Advance (Advance lx)) = Ok (cond, lx1)
           /\ Token.GetKind (GetToken lx1) = Token.RPAREN
           /\ ParseStmt arg (Advance lx1) = Ok (stmt, lx2)).
Proof.
  intros lx s lx2 Hkw. rewrite ParseStmt_dispatch, Hkw.
  unfold ParseWhileStmt. split.
  - intros H.
    apply controlled_statement_inv in H
      as (cond & lx1 & stmt & lx2' & Hlp & Hcond & Hrp & Hstmt & Hret).
    unfold ret in Hret. injection Hret as <- <-.
    exists cond, lx1, stmt. auto.
  - intros (cond & lx1 & stmt & -> & Hlp & Hcond & Hrp & Hstmt).
    now rewrite (@controlled_statement _
                   (fun cond stmt => ret (WhileStmt cond stmt))
                   Token.WHILE lx cond lx1 stmt lx2).
Qed.

(** [if (cond) stmt] that no [else] follows: the conditional has no else
    branch and the token after the statement is left where it is. *)
Lemma if_without_else :
  forall lx cond lx1 stmt lx2,
    Token.GetKind (GetToken lx) = Token.IF ->
    Token.GetKind (GetToken (Advance lx)) = Token.LPAREN ->
    ParseExpr (Advance (Advance lx)) = Ok (cond, lx1) ->
    Token.GetKind (GetToken lx1) = Token.RPAREN ->
    ParseStmt arg (Advance lx1) = Ok (stmt, lx2) ->
    Token.GetKind (GetToken lx2) <> Token.ELSE ->
    ParseStmt arg lx = Ok (IfStmt cond stmt None, lx2).
Proof.
  intros lx cond lx1 stmt lx2 Hkw Hlp Hcond Hrp Hstmt Helse.
  rewrite ParseStmt_dispatch, Hkw. unfold ParseIfStmt.
  rewrite (@controlled_statement _ _ Token.IF lx cond lx1 stmt lx2)
    by assumption.
  unfold bind, Current.
  destruct (Token.Kind_eqb (Token.GetKind (GetToken lx2)) Token.ELSE) eqn:E;
    [apply Kind_eqb_eq in E; contradiction | reflexivity].
Qed.

(** [if (cond) stmt else stmt']. *)
Lemma if_with_else :
  forall lx cond lx1 stmt lx2 stmt' lx3,
    Token.GetKind (GetToken lx) = Token.IF ->
    Token.GetKind (GetToken (Advance lx)) = Token.LPAREN ->
    ParseExpr (Advance (Advance lx)) = Ok (cond, lx1) ->
    Token.GetKind (GetToken lx1) = Token.RPAREN ->
    ParseStmt arg (Advance lx1) = Ok (stmt, lx2) ->
    Token.GetKind (GetToken lx2) = Token.ELSE ->
    ParseStmt arg (Advance lx2) = Ok (stmt', lx3) ->
    ParseStmt arg lx = Ok (IfStmt cond stmt (Some stmt'), lx3).
Proof.
  intros lx cond lx1 stmt lx2 stmt' lx3 Hkw Hlp Hcond Hrp Hstmt Helse Hstmt'.
  rewrite ParseStmt_dispatch, Hkw. unfold ParseIfStmt.
  rewrite (@controlled_statement _ _ Token.IF lx cond lx1 stmt lx2)
    by assumption.
  unfold bind at 1. unfold Current. cbv beta iota.
  rewrite Helse. cbn [Token.Kind_eqb]. rewrite Kind_eqb_refl.
  unfold bind at 1. unfold Next. cbv beta iota.
  unfold bind at 1. now rewrite Hstmt'.
Qed.

(** X14. [if (cond) stmt], with or without [else stmt']: where a statement
    starts with [if], [ParseStmt] returns exactly the conditionals whose
    condition stands between parentheses and is followed by one statement;
    the else branch is there exactly when the token after that statement is
    [else], and otherwise that token is not consumed. *)
Theorem if_statement_iff :
  forall lx s lx',
    Token.GetKind (GetToken lx) = Token.IF ->
    (ParseStmt arg lx = Ok (s, lx')
     <-> exists cond lx1 stmt lx2,
           Token.GetKind (GetToken (Advance lx)) = Token.LPAREN
           /\ ParseExpr (Advance (Advance lx)) = Ok (cond, lx1)
           /\ Token.GetKind (GetToken lx1) = Token.RPAREN
           /\ ParseStmt arg (Advance lx1) = Ok (stmt, lx2)
           /\ ((Token.GetKind (GetToken lx2) <> Token.ELSE
                /\ s = IfStmt cond stmt None /\ lx' = lx2)
               \/ (Token.GetKind (GetToken lx2) = Token.ELSE
                   /\ exists stmt',
                        ParseStmt arg (Advance lx2) = Ok (stmt', lx')
                        /\ s = IfStmt cond stmt (Some stmt')))).
Proof.
  intros lx s lx' Hkw. split.
  - intros H. rewrite ParseStmt_dispatch, Hkw in H. unfold ParseIfStmt in H.
    apply controlled_statement_inv in H
      as (cond & lx1 & stmt & lx2 & Hlp & Hcond & Hrp & Hstmt & Htail).
    exists cond, lx1, stmt, lx2. repeat (split; [assumption|]).
    unfold bind at 1 in Htail. unfold Current in Htail.
    cbv beta iota in Htail.
    destruct (Token.Kind_eqb (Token.GetKind (GetToken lx2)) Token.ELSE)
      eqn:E.
    + right. apply Kind_eqb_eq in E. split; [assumption|].
      apply bind_Ok in Htail as (tk & l & Hnext & Htail).
      unfold Next in Hnext. injection Hnext as <- <-.
      apply bind_Ok in Htail as (stmt' & l' & Hstmt' & Hret).
      unfold ret in Hret. injection Hret as <- <-.
      now exists stmt'.
    + left. unfold ret in Htail. injection Htail as <- <-.
      repeat split. intros Helse. rewrite Helse in E.
      now rewrite Kind_eqb_refl in E.
  - intros (cond & lx1 & stmt & lx2 & Hlp & Hcond & Hrp & Hstmt
            & [(Helse & -> & ->) | (Helse & stmt' & Hstmt' & ->)]).
    + eapply if_without_else; eassumption.
    + eapply if_with_else; eassumption.
Qed.

(** X15. The dangling else: in [if (c1) if (c2) s1 else s2] the [else] belongs
    to the inner [if], and the outer one has no else branch. *)
Theorem else_binds_to_nearest_if :
  forall lx c1 lx1 c2 lx2 s1 lx3 s2 lx4,
    Token.GetKind (GetToken lx) = Token.IF ->
    Token.GetKind (GetToken (Advance lx)) = Token.LPAREN ->
    ParseExpr (Advance (Advance lx)) = Ok (c1, lx1) ->
    Token.GetKind (GetToken lx1) = Token.RPAREN ->
    Token.GetKind (GetToken (Advance lx1)) = Token.IF ->
    Token.GetKind (GetToken (Advance (Advance lx1))) = Token.LPAREN ->
    ParseExpr (Advance (Advance (Advance lx1))) = Ok (c2, lx2) ->
    Token.GetKind (GetToken lx2) = Token.RPAREN ->
    ParseStmt arg (Advance lx2) = Ok (s1, lx3) ->
    Token.GetKind (GetToken lx3) = Token.ELSE ->
    ParseStmt arg (Advance lx3) = Ok (s2, lx4) ->
    Token.GetKind (GetToken lx4) <> Token.ELSE ->
    ParseStmt arg lx
    = Ok (IfStmt c1 (IfStmt c2 s1 (Some s2)) None, lx4).
Proof.
  intros lx c1 lx1 c2 lx2 s1 lx3 s2 lx4
         Hif1 Hlp1 Hc1 Hrp1 Hif2 Hlp2 Hc2 Hrp2 Hs1 Helse Hs2 Hend.
  eapply if_without_else; try eassumption.
  eapply if_with_else; eassumption.
Qed.

(** The loop of [ParseBlockStmt] after a run of statements that ends at a
    close brace. *)
Lemma block_loop :
  forall lx ss lx',
    block_run arg lx ss lx' ->
    Token.Is (GetToken lx') Token.RBRACE = true ->
    forall acc,
      While (bind Current (fun tk => ret (negb (Token.Is tk Token.RBRACE))))
            (fun body =>
               bind (ParseStmt arg)
                    (fun s => ret (Continue (body ++ [s])%list)))
            acc lx
      = Ok ((acc ++ ss)%list, lx').
Proof.
  intros lx ss lx' Hrun Hend.
  induction Hrun as [lx | lx s lx1 ss lx2 Hopen Hs Hrun IH]; intros acc.
  - rewrite app_nil_r. apply While_exit.
    unfold bind, Current, ret. now rewrite Hend.
  - specialize (IH Hend (acc ++ [s])%list).
    rewrite <- app_assoc in IH. cbn [app] in IH.
    rewrite <- IH. eapply While_round.
    + unfold bind, Current, ret. now rewrite Hopen.
    + unfold bind. now rewrite Hs.
    + eapply consuming_ParseStmt. eassumption.
    + rewrite IH. discriminate.
Qed.

(** The same loop when a statement of the block throws. *)
Lemma block_loop_throws :
  forall lx ss lx' what,
    block_run arg lx ss lx' ->
    Token.Is (GetToken lx') Token.RBRACE = false ->
    ParseStmt arg lx' = Throw what ->
    forall acc,
      While (bind Current (fun tk => ret (negb (Token.Is tk Token.RBRACE))))
            (fun body =>
               bind (ParseStmt arg)
                    (fun s => ret (Continue (body ++ [s])%list)))
            acc lx
      = Throw what.
Proof.
  intros lx ss lx' what Hrun Hopen' Hthrow.
  induction Hrun as [lx | lx s lx1 ss lx2 Hopen Hs Hrun IH]; intros acc.
  - eapply While_throw.
    + unfold bind, Current, ret. now rewrite Hopen'.
    + now apply bind_Throw.
  - specialize (IH Hopen' Hthrow (acc ++ [s])%list).
    rewrite <- IH. eapply While_round.
    + unfold bind, Current, ret. now rewrite Hopen.
    + unfold bind. now rewrite Hs.
    + eapply consuming_ParseStmt. eassumption.
    + rewrite IH. discriminate.
Qed.

(** What the loop of [ParseBlockStmt] returns, it has parsed statement by
    statement, and it has stopped at a close brace. *)
Lemma block_loop_inv :
  forall fuel acc lx result lx',
    while_fuel fuel
      (bind Current (fun tk => ret (negb (Token.Is tk Token.RBRACE))))
      (fun body =>
         bind (ParseStmt arg) (fun s => ret (Continue (body ++ [s])%list)))
      acc lx
    = Ok (result, lx') ->
    exists ss,
      result = (acc ++ ss)%list
      /\ block_run arg lx ss lx'
      /\ Token.Is (GetToken lx') Token.RBRACE = true.
Proof.
  induction fuel as [|fuel IH]; intros acc lx result lx' H; [discriminate|].
  cbn [while_fuel] in H. unfold bind at 1 in H. unfold Current, ret in H.
  destruct (Token.Is (GetToken lx) Token.RBRACE) eqn:Hopen; cbn [negb] in H.
  - injection H as <- <-. exists []. rewrite app_nil_r.
    repeat split; [constructor | assumption].
  - unfold bind at 1 in H.
    destruct (ParseStmt arg lx) as [[s lx1]| | |] eqn:Hs; try discriminate.
    apply IH in H as (ss & -> & Hrun & Hend).
    exists (s :: ss). rewrite <- app_assoc. repeat split; try assumption.
    econstructor; eassumption.
Qed.

(** X16. [{ s1 ... sn }]: where a statement starts with an open brace,
    [ParseStmt] returns exactly the blocks whose statements are parsed one
    after the other up to the matching close brace, which it consumes; the
    empty block [{}] is one of them. *)
Theorem block_statement_iff :
  forall lx stmt lx'',
    Token.GetKind (GetToken lx) = Token.LBRACE ->
    (ParseStmt arg lx = Ok (stmt, lx'')
     <-> exists ss lx',
           stmt = BlockStmt ss
           /\ block_run arg (Advance lx) ss lx'
           /\ Token.GetKind (GetToken lx') = Token.RBRACE
           /\ lx'' = Advance lx').
Proof.
  intros lx stmt lx'' Hlb. rewrite ParseStmt_dispatch, Hlb.
  unfold ParseBlockStmt. unfold bind at 1. rewrite Check_match by exact Hlb.
  unfold bind at 1. unfold Next at 1. cbv beta iota. split.
  - intros H. unfold bind at 1 in H. unfold While in H.
    match type of H with
    | match ?w with _ => _ end = _ => destruct w as [[ss lx']| | |] eqn:Hloop
    end; try discriminate.
    apply block_loop_inv in Hloop as (ss' & -> & Hrun & Hend).
    cbn [app] in H. apply Kind_eqb_eq in Hend.
    unfold bind at 1 in H. rewrite Check_match in H by exact Hend.
    unfold bind, Next, ret in H. injection H as <- <-.
    exists ss', lx'. auto.
  - intros (ss & lx' & -> & Hrun & Hrb & ->).
    unfold bind at 1.
    rewrite (@block_loop (Advance lx) ss lx' Hrun) by
      (unfold Token.Is; rewrite Hrb; reflexivity).
    cbn [app]. unfold bind at 1. rewrite Check_match by exact Hrb.
    reflexivity.
Qed.

(** The end of the stream starts no statement. *)
Lemma ParseStmt_at_END :
  forall lx,
    Token.GetKind (GetToken lx) = Token.END ->
    ParseStmt arg lx
    = Throw (FormatMessage (Token.GetLocation (GetToken lx))
               ("unexpected " ++ show (GetToken lx) ++ ", expecting term")).
Proof.
  intros lx Hk. rewrite ParseStmt_dispatch, Hk. apply bind_Throw.
  rewrite ParseExpr_unfold.
  unfold ParseEqualityExpr, ParseAddSubExpr, ParseMulExpr, ParseCallExpr.
  do 4 (apply bind_Throw).
  unfold ParseTermExpr, bind, Current. now rewrite Hk.
Qed.

(** X17. A statement of a block that throws is the outcome of the block, however
    many statements were parsed before it.  In particular a block whose
    close brace is missing is reported at the end of the stream as a missing
    term, since the loop takes the end for the start of one more
    statement. *)
Theorem block_statement_throws :
  forall lx ss lx',
    Token.GetKind (GetToken lx) = Token.LBRACE ->
    block_run arg (Advance lx) ss lx' ->
    (forall what,
        Token.Is (GetToken lx') Token.RBRACE = false ->
        ParseStmt arg lx' = Throw what ->
        ParseStmt arg lx = Throw what)
    /\ (Token.GetKind (GetToken lx') = Token.END ->
        ParseStmt arg lx
        = Throw (FormatMessage (Token.GetLocation (GetToken lx'))
                   ("unexpected " ++ show (GetToken lx')
                    ++ ", expecting term"))).
Proof.
  intros lx ss lx' Hlb Hrun.
  assert (Hgen : forall what,
             Token.Is (GetToken lx') Token.RBRACE = false ->
             ParseStmt arg lx' = Throw what ->
             ParseStmt arg lx = Throw what).
  { intros what Hopen Hthrow. rewrite ParseStmt_dispatch, Hlb.
    unfold ParseBlockStmt. unfold bind at 1.
    rewrite Check_match by exact Hlb.
    unfold bind at 1. unfold Next at 1. cbv beta iota.
    apply bind_Throw.
    exact (@block_loop_throws (Advance lx) ss lx' what Hrun Hopen Hthrow []). }
  split; [exact Hgen|].
  intros Hend. apply Hgen.
  - unfold Token.Is. now rewrite Hend.
  - now apply ParseStmt_at_END.
Qed.

End StatementForms.

(* ------------------------------------------------------------------------- *)
(** ** Declarations *)

Section Declarations.

Context {show_token : Show Token.t} {show_kind : Show Token.Kind}.
Variable arg : string.

Lemma Is_kind :
  forall tk kind, Token.Is tk kind = true -> Token.GetKind tk = kind.
Proof. intros tk kind H. now apply Kind_eqb_eq. Qed.

(** [Expect] where the next token is of the expected kind. *)
Lemma Expect_next :
  forall kind prev tk toks eof,
    Token.GetKind tk = kind ->
    Expect kind (mkLexer (prev :: tk :: toks) eof)
    = Ok (tk, mkLexer (tk :: toks) eof).
Proof.
  intros kind prev tk toks eof H. unfold Expect, bind, Next.
  now rewrite Check_match by exact H.
Qed.

(** Reading the identifier of the current token. *)
Lemma ident_here :
  forall tk toks eof,
    Token.Is tk Token.IDENT = true ->
    bind Current (fun tk => GetIdent tk) (mkLexer (tk :: toks) eof)
    = Ok (Token.StringValue tk, mkLexer (tk :: toks) eof).
Proof.
  intros tk toks eof H. unfold bind, Current, GetIdent. cbn [GetToken tokens].
  now rewrite H.
Qed.

(** Reading the identifier of the next token. *)
Lemma ident_next :
  forall prev tk toks eof,
    Token.Is tk Token.IDENT = true ->
    bind (Expect Token.IDENT) (fun tk => GetIdent tk)
         (mkLexer (prev :: tk :: toks) eof)
    = Ok (Token.StringValue tk, mkLexer (tk :: toks) eof).
Proof.
  intros prev tk toks eof H. unfold bind at 1.
  rewrite Expect_next by (now apply Is_kind).
  unfold GetIdent. now rewrite H.
Qed.

(** The loop that collects the parameters, entered at the token before the
    first of them, ends at the close parenthesis with all of them in
    order. *)
Lemma params_loop :
  forall ps acc pairs prev rp rest eof,
    params_pairs ps = Some pairs ->
    Token.GetKind rp = Token.RPAREN ->
    While (bind Next (fun tk => ret (negb (Token.Is tk Token.RPAREN))))
          (fun args =>
             bind (bind Current (fun tk => GetIdent tk)) (fun arg =>
             bind (Expect Token.COLON) (fun _ =>
             bind (bind (Expect Token.IDENT) (fun tk => GetIdent tk))
                  (fun type =>
             bind Next (fun tk =>
               if negb (Token.Is tk Token.COMMA)
               then ret (Break (args ++ [(arg, type)])%list)
               else ret (Continue (args ++ [(arg, type)])%list))))))
          acc (mkLexer (prev :: params_tokens ps ++ rp :: rest) eof)
    = Ok ((acc ++ pairs)%list, mkLexer (rp :: rest) eof).
Proof.
  induction ps as [|[[[name colon] type] sep] ps IH];
    intros acc pairs prev rp rest eof Hpairs Hrp.
  - cbn in Hpairs. injection Hpairs as <-. rewrite app_nil_r.
    apply While_exit. unfold bind, Next, ret. cbn. unfold Token.Is.
    now rewrite Hrp.
  - cbn [params_pairs] in Hpairs.
    destruct (Token.Is name Token.IDENT) eqn:Hname; [|discriminate].
    destruct (Token.Is colon Token.COLON) eqn:Hcolon; [|discriminate].
    destruct (Token.Is type Token.IDENT) eqn:Htype; [|discriminate].
    cbn [andb] in Hpairs.
    assert (Hcond :
              forall tail,
                bind Next (fun tk => ret (negb (Token.Is tk Token.RPAREN)))
                     (mkLexer (prev :: name :: tail) eof)
                = Ok (true, mkLexer (name :: tail) eof)).
    { intros tail. unfold bind, Next, ret. cbn. unfold Token.Is.
      rewrite (Is_kind _ _ Hname). reflexivity. }
    cbn [params_tokens flat_map]. fold (params_tokens ps).
    destruct sep as [comma|].
    + destruct (Token.Is comma Token.COMMA) eqn:Hcomma; [|discriminate].
      destruct (params_pairs ps) as [more|] eqn:Hps; [|discriminate].
      injection Hpairs as <-.
      specialize (IH (acc ++ [(Token.StringValue name,
                               Token.StringValue type)])%list
                     more comma rp rest eof eq_refl Hrp).
      rewrite <- app_assoc in IH. cbn [app] in IH.
      cbn [app]. rewrite <- IH. eapply While_round; [apply Hcond | | | ].
      * unfold bind at 1. rewrite ident_here by exact Hname.
        unfold bind at 1. rewrite Expect_next by (now apply Is_kind).
        unfold bind at 1. rewrite ident_next by exact Htype.
        unfold bind, Next, ret. cbn [Advance tokens tl GetToken].
        now rewrite Hcomma.
      * unfold remaining. cbn [tokens length].
        repeat (rewrite length_app; cbn [length]). lia.
      * rewrite IH. discriminate.
    + destruct ps as [|? ?]; [|discriminate]. injection Hpairs as <-.
      cbn [params_tokens flat_map app].
      eapply While_break; [apply Hcond|].
      unfold bind at 1. rewrite ident_here by exact Hname.
      unfold bind at 1. rewrite Expect_next by (now apply Is_kind).
      unfold bind at 1. rewrite ident_next by exact Htype.
      unfold bind, Next, ret. cbn [Advance tokens tl GetToken].
      unfold Token.Is. now rewrite Hrp.
Qed.

(** The head of a declaration brings [ParseTopLevel] to the token after
    the return type, with the name, the parameters and the return type in
    hand; that token decides between a prototype and a definition. *)
Lemma header_parses :
  forall h pairs after eof,
    header_kinds h = true ->
    params_pairs (h_params h) = Some pairs ->
    ParseTopLevel arg (mkLexer (header_tokens h after) eof)
    = (if Token.Is (GetToken (mkLexer after eof)) Token.EQUAL then
         bind (bind (Expect Token.STRING) (fun tk => GetString tk))
              (fun primitive =>
         bind Next (fun _ =>
         ret (ProtoDecl (Token.StringValue (h_name h)) pairs
                        (Token.StringValue (h_type h)) primitive)))
       else
         bind (ParseBlockStmt (ParseStmt arg)) (fun block =>
         ret (FuncDecl (Token.StringValue (h_name h)) pairs
                       (Token.StringValue (h_type h)) block)))
        (mkLexer after eof).
Proof.
  intros [func name lp ps rp colon type] pairs after eof Hkinds Hps.
  unfold header_kinds in Hkinds. cbn [h_func h_name h_lparen h_params
    h_rparen h_colon h_type] in *.
  repeat (apply andb_prop in Hkinds as [Hkinds ?]).
  unfold header_tokens. cbn [h_func h_name h_lparen h_params h_rparen
    h_colon h_type].
  unfold ParseTopLevel. unfold bind at 1. unfold Current at 1.
  cbv beta iota. cbn [GetToken tokens]. rewrite Hkinds.
  unfold bind at 1. rewrite ident_next by assumption.
  unfold bind at 1. rewrite Expect_next by (now apply Is_kind).
  unfold bind at 1.
  rewrite (@params_loop ps [] pairs lp rp (colon :: type :: after) eof Hps)
    by (now apply Is_kind).
  cbn [app]. unfold bind at 1.
  rewrite Check_match by (now apply Is_kind).
  unfold bind at 1. rewrite Expect_next by (now apply Is_kind).
  unfold bind at 1. rewrite ident_next by assumption.
  unfold bind at 1. unfold Next at 1. cbv beta iota.
  reflexivity.
Qed.

(** X18. [func name(params): type = "primitive"]: a prototype.  It records the
    name, the parameters in the order they are written, the return type and
    the name of the primitive; no body is looked for, and the parser stands
    right after the string. *)
Theorem prototype_declaration :
  forall h pairs eq str rest eof,
    header_kinds h = true ->
    params_pairs (h_params h) = Some pairs ->
    Token.GetKind eq = Token.EQUAL ->
    Token.GetKind str = Token.STRING ->
    ParseTopLevel arg (mkLexer (header_tokens h (eq :: str :: rest)) eof)
    = Ok (ProtoDecl (Token.StringValue (h_name h)) pairs
                    (Token.StringValue (h_type h)) (Token.StringValue str),
          mkLexer rest eof).
Proof.
  intros h pairs eq str rest eof Hkinds Hps Heq Hstr.
  rewrite (header_parses _ _ _ Hkinds Hps). cbn [GetToken tokens].
  unfold Token.Is at 1. rewrite Heq. cbn [Token.Kind_eqb].
  rewrite Kind_eqb_refl.
  unfold bind at 1. unfold bind at 1.
  rewrite Expect_next by exact Hstr.
  unfold GetString, Token.Is. rewrite Hstr, Kind_eqb_refl.
  reflexivity.
Qed.

(** X19. [func name(params): type { ... }]: a definition.  Whatever block
    follows the return type is the body. *)
Theorem function_definition :
  forall h pairs body block lx' eof,
    header_kinds h = true ->
    params_pairs (h_params h) = Some pairs ->
    ParseBlockStmt (ParseStmt arg) (mkLexer body eof) = Ok (block, lx') ->
    ParseTopLevel arg (mkLexer (header_tokens h body) eof)
    = Ok (FuncDecl (Token.StringValue (h_name h)) pairs
                   (Token.StringValue (h_type h)) block,
          lx').
Proof.
  intros h pairs body block lx' eof Hkinds Hps Hbody.
  rewrite (header_parses _ _ _ Hkinds Hps).
  assert (Hlb : Token.GetKind (GetToken (mkLexer body eof)) = Token.LBRACE).
  { unfold ParseBlockStmt in Hbody.
    apply bind_Ok in Hbody as (tk & lx1 & Hcheck & _).
    now apply Check_Ok in Hcheck as (_ & -> & Hk). }
  unfold Token.Is at 1. rewrite Hlb. cbn [Token.Kind_eqb].
  replace (Token.Kind_eqb Token.LBRACE Token.EQUAL) with false
    by reflexivity.
  unfold bind at 1. now rewrite Hbody.
Qed.

(** X20. [func name(params): type] followed by neither [=] nor an open brace:
    the declaration is taken for a definition and the error asks for the
    open brace of its body, at the token found in its place. *)
Theorem declaration_without_body :
  forall h pairs after eof,
    header_kinds h = true ->
    params_pairs (h_params h) = Some pairs ->
    Token.GetKind (GetToken (mkLexer after eof)) <> Token.EQUAL ->
    Token.GetKind (GetToken (mkLexer after eof)) <> Token.LBRACE ->
    ParseTopLevel arg (mkLexer (header_tokens h after) eof)
    = Throw (expecting Token.LBRACE (GetToken (mkLexer after eof))).
Proof.
  intros h pairs after eof Hkinds Hps Heq Hlb.
  rewrite (header_parses _ _ _ Hkinds Hps).
  replace (Token.Is (GetToken (mkLexer after eof)) Token.EQUAL) with false.
  - apply bind_Throw. unfold ParseBlockStmt. apply bind_Throw.
    now apply Check_mismatch.
  - symmetry. unfold Token.Is.
    destruct (Token.Kind_eqb (Token.GetKind (GetToken (mkLexer after eof)))
                Token.EQUAL) eqn:E; [|reflexivity].
    apply Kind_eqb_eq in E. contradiction.
Qed.

End Declarations.

(* ------------------------------------------------------------------------- *)
(** * Further properties of the bytecode container *)

Section MoreReading.

Import Bytecode.
Local Open Scope Z_scope.

(** A read that returns: what it has read and where it stands. *)
Lemma Read_Returns :
  forall sizeofT p pc t pc',
    0 <= sizeofT -> size p < 2 ^ SIZE_WIDTH ->
    Read sizeofT p pc = Returns t pc' ->
    0 <= pc /\ pc + sizeofT <= size p /\ pc' = pc + sizeofT
    /\ t = firstn (Z.to_nat sizeofT) (skipn (Z.to_nat pc) (code_ p)).
Proof.
  intros sizeofT p pc t pc' Hw Hsize H. unfold Read in H.
  destruct (size_t_add pc sizeofT <=? size p); [|discriminate].
  unfold memcpy in H.
  destruct (0 <=? pc) eqn:Hpc; [|discriminate].
  destruct (pc + sizeofT <=? Z.of_nat (length (code_ p))) eqn:Hin;
    [|discriminate].
  cbn [andb] in H. injection H as <- <-.
  apply Z.leb_le in Hpc, Hin. unfold size in *.
  repeat split; try assumption.
  unfold size_t_add. apply Z.mod_small. lia.
Qed.

(** X21. A read that returns leaves the cursor inside the buffer, exactly
    [sizeof(T)] further on, and the value it returns has [sizeof(T)] bytes:
    the cursor of a run of reads never passes the end of the code. *)
Theorem Read_keeps_cursor_inside :
  forall sizeofT p pc t pc',
    0 <= sizeofT -> size p < 2 ^ SIZE_WIDTH ->
    Read sizeofT p pc = Returns t pc' ->
    0 <= pc <= pc' /\ pc' = pc + sizeofT /\ pc' <= size p
    /\ Z.of_nat (length t) = sizeofT.
Proof.
  intros sizeofT p pc t pc' Hw Hsize H.
  apply Read_Returns in H as (Hpc & Hin & -> & ->); try assumption.
  repeat split; try lia.
  rewrite length_firstn, length_skipn. unfold size in Hin. lia.
Qed.

Lemma firstn_plus :
  forall A (l : list A) a b,
    firstn (a + b) l = (firstn a l ++ firstn b (skipn a l))%list.
Proof.
  intros A l a. revert l. induction a as [|a IH]; intros l b.
  - reflexivity.
  - destruct l as [|x l]; cbn.
    + now rewrite firstn_nil.
    + now rewrite IH.
Qed.

(** X22. Two reads in a row are one read of both values: reading an opcode and
    then its operand yields the bytes of the whole instruction, in order. *)
Theorem Read_twice :
  forall w1 w2 p pc t1 pc1 t2 pc2,
    0 <= w1 -> 0 <= w2 -> size p < 2 ^ SIZE_WIDTH ->
    Read w1 p pc = Returns t1 pc1 ->
    Read w2 p pc1 = Returns t2 pc2 ->
    Read (w1 + w2) p pc = Returns (t1 ++ t2)%list pc2.
Proof.
  intros w1 w2 p pc t1 pc1 t2 pc2 Hw1 Hw2 Hsize H1 H2.
  apply Read_Returns in H1 as (Hpc & Hin1 & -> & ->); try assumption.
  apply Read_Returns in H2 as (_ & Hin2 & -> & ->); try assumption.
  assert (Hin : pc + (w1 + w2) <= size p) by lia.
  unfold Read, size_t_add in *.
  rewrite Z.mod_small in * by lia.
  replace (pc + (w1 + w2) <=? size p) with true
    by (symmetry; now apply Z.leb_le).
  unfold memcpy, size in *.
  replace (0 <=? pc) with true by (symmetry; now apply Z.leb_le).
  replace (pc + (w1 + w2) <=? Z.of_nat (length (code_ p))) with true
    by (symmetry; now apply Z.leb_le).
  cbn [andb]. f_equal; [|lia].
  rewrite Z2Nat.inj_add by lia. rewrite firstn_plus. f_equal.
  rewrite skipn_skipn. f_equal. f_equal. lia.
Qed.

(** X23. What was laid down is what is read back: in a program made of the bytes
    [before], then [value], then [after], a read of as many bytes as [value]
    has, with the cursor right after [before], returns [value] and leaves the
    cursor right before [after]. *)
Theorem Read_round_trip :
  forall before value after,
    Z.of_nat (length (before ++ value ++ after)) < 2 ^ SIZE_WIDTH ->
    Read (Z.of_nat (length value)) (mkProgram (before ++ value ++ after))
         (Z.of_nat (length before))
    = Returns value (Z.of_nat (length before) + Z.of_nat (length value)).
Proof.
  intros before value after Hsize.
  unfold Read, size_t_add, size. cbn [code_].
  rewrite !length_app in *.
  rewrite Z.mod_small by lia.
  replace (Z.of_nat (length before) + Z.of_nat (length value)
           <=? Z.of_nat (length before + (length value + length after)))
    with true by (symmetry; apply Z.leb_le; lia).
  unfold memcpy. rewrite !length_app.
  replace (0 <=? Z.of_nat (length before)) with true
    by (symmetry; apply Z.leb_le; lia).
  replace (Z.of_nat (length before) + Z.of_nat (length value)
           <=? Z.of_nat (length before + (length value + length after)))
    with true by (symmetry; apply Z.leb_le; lia).
  cbn [andb]. rewrite !Nat2Z.id.
  rewrite skipn_app, skipn_all, Nat.sub_diag. cbn [app skipn].
  rewrite firstn_app, firstn_all, Nat.sub_diag. cbn [firstn].
  now rewrite app_nil_r.
Qed.

End MoreReading.

Section Opcodes.

Local Open Scope Z_scope.

(** X24. The fourteen opcodes print under fourteen different names, so a listing
    tells them apart; any other byte an [Opcode] object may hold takes the
    default branch, for which the function streams nothing. *)
Theorem Opcode_names :
  (forall a b,
      Opcode.print (Opcode.value a) = Opcode.print (Opcode.value b) -> a = b)
  /\ (forall op, Opcode.print (Opcode.value op) <> None)
  /\ (forall kind, 13 < kind -> Opcode.print kind = None).
Proof.
  repeat split.
  - intros a b H. destruct a, b; try reflexivity; discriminate H.
  - intros op. destruct op; discriminate.
  - intros kind H. unfold Opcode.print.
    repeat match goal with
           | |- context [kind =? ?v] =>
               replace (kind =? v) with false
                 by (symmetry; apply Z.eqb_neq; cbn; lia)
           end.
    reflexivity.
Qed.

End Opcodes.

(* ------------------------------------------------------------------------- *)
(** * Further properties of the host primitives *)

Lemma append_empty_r : forall s : string, s ++ EmptyString = s.
Proof. induction s as [|c s IH]; cbn; [reflexivity | now rewrite IH]. Qed.

Lemma append_associative :
  forall s1 s2 s3 : string, (s1 ++ s2) ++ s3 = s1 ++ (s2 ++ s3).
Proof.
  induction s1 as [|c s1 IH]; intros s2 s3; cbn;
    [reflexivity | now rewrite IH].
Qed.

(** X25. [print_int] called [n] times in a row on a stack whose top is [v]:
    every call leaves one more [v] on the stack and prints [v] once more, so
    [n] calls leave [n] more elements and print [v] [n] times. *)
Theorem PrintInt_repeated :
  forall n interp v,
    Runtime.PeekInt interp = Some v ->
    PrintInt_times n interp
    = Some (Runtime.mkInterp
              (repeat v n ++ Runtime.stack_ interp)
              (Runtime.cout interp ++ copies n (decimal v))).
Proof.
  induction n as [|n IH]; intros [stack out] v Hpeek.
  - cbn. now rewrite append_empty_r.
  - cbn [PrintInt_times]. unfold Runtime.PrintInt. rewrite Hpeek.
    erewrite IH by reflexivity.
    cbn [Runtime.stack_ Runtime.cout Runtime.Push Runtime.print copies].
    rewrite append_associative. do 2 f_equal.
    change (repeat v (S n)) with (v :: repeat v n).
    unfold Runtime.PeekInt in Hpeek. cbn in Hpeek.
    rewrite (repeat_cons n v), <- app_assoc. reflexivity.
Qed.

(* ------------------------------------------------------------------------- *)
(** * The error policy *)

Section ErrorPolicy.

Context {show_token : Show Token.t} {show_kind : Show Token.Kind}.
Variable arg : string.

(** *** The places where an error is raised *)

(** The diagnostic of a place is the [ParserError] the code raises there. *)
Lemma diagnostic_ParserError :
  forall tk e,
    diagnostic tk e
    = ParserError (Token.GetLocation tk)
        ("unexpected " ++ show tk ++ ", expecting " ++ expected e).
Proof. reflexivity. Qed.

(** A token that is not what a place asked for is the end of the whole
    computation: the error raised at that place is what it throws. *)
Lemma asks_throws :
  forall A (m : M A) lx e lx',
    asks arg m lx e lx' ->
    meets (GetToken lx') e = false ->
    m lx = Throw (diagnostic (GetToken lx') e).
Proof.
  intros A m lx e lx' H. induction H; intros Hmiss.
  - cbn [meets] in Hmiss. unfold Check, bind, Current. now rewrite Hmiss.
  - cbn [meets] in Hmiss. unfold term_of in Hmiss.
    unfold ParseTermExpr, bind, Current.
    destruct (Token.GetKind (GetToken lx)); try discriminate; reflexivity.
  - apply bind_Throw. auto.
  - eapply bind_Throw_later; eauto.
  - unfold While. cbn [while_fuel]. now rewrite IHasks.
  - eapply While_throw; eauto.
  - erewrite While_round by (try eassumption; rewrite IHasks by assumption;
                             discriminate).
    auto.
  - rewrite ParseExpr_unfold. auto.
  - rewrite ParseStmt_unfold. auto.
Qed.


Lemma traced_below_S :
  forall n A (m : M A), traced_below arg (S n) m -> traced_below arg n m.
Proof. intros n A m H lx what Hlt. apply H. lia. Qed.

Lemma traced_ret : forall n A (a : A), traced_below arg n (ret a).
Proof. intros n A a lx what _ H. discriminate. Qed.

Lemma traced_abort : forall n A, traced_below arg n (@abort A).
Proof. intros n A lx what _ H. discriminate. Qed.

Lemma traced_Current : forall n, traced_below arg n Current.
Proof. intros n lx what _ H. discriminate. Qed.

Lemma traced_Next : forall n, traced_below arg n Next.
Proof. intros n lx what _ H. discriminate. Qed.

Lemma traced_GetIdent : forall n tk, traced_below arg n (GetIdent tk).
Proof.
  intros n tk lx what _ H. unfold GetIdent in H.
  destruct (Token.Is tk Token.IDENT); discriminate.
Qed.

Lemma traced_GetString : forall n tk, traced_below arg n (GetString tk).
Proof.
  intros n tk lx what _ H. unfold GetString in H.
  destruct (Token.Is tk Token.STRING); discriminate.
Qed.

Lemma traced_GetInt : forall n tk, traced_below arg n (GetInt tk).
Proof.
  intros n tk lx what _ H. unfold GetInt in H.
  destruct (Token.Is tk Token.INT); discriminate.
Qed.

(** [Check] throws about the token it was called on. *)
Lemma traced_Check : forall n kind, traced_below arg n (Check kind).
Proof.
  intros n kind lx what _ H. exists (OfKind kind), lx.
  assert (Hmiss : meets (GetToken lx) (OfKind kind) = false).
  { cbn [meets]. unfold Check, bind, Current in H.
    destruct (Token.Kind_eqb kind (Token.GetKind (GetToken lx)));
      [discriminate | reflexivity]. }
  repeat split; try assumption.
  - apply asks_Check.
  - apply reaches_refl.
  - pose proof (asks_throws (asks_Check arg kind lx) Hmiss) as Hthrow.
    congruence.
Qed.

(** [ParseTermExpr] throws about the token it was called on. *)
Lemma traced_ParseTermExpr : forall n, traced_below arg n ParseTermExpr.
Proof.
  intros n lx what _ H. exists Term, lx.
  assert (Hmiss : meets (GetToken lx) Term = false).
  { cbn [meets]. unfold term_of.
    unfold ParseTermExpr, bind, Current, GetInt, GetIdent, Token.Is in H.
    destruct (Token.GetKind (GetToken lx)); try reflexivity;
      cbn in H; discriminate. }
  repeat split; try assumption.
  - apply asks_ParseTermExpr.
  - apply reaches_refl.
  - pose proof (asks_throws (asks_ParseTermExpr arg lx) Hmiss) as Hthrow.
    congruence.
Qed.

(** In a sequence, an error is raised in the first part, or in the second
    once the first has returned. *)
Lemma traced_bind :
  forall n A B (m : M A) (k : A -> M B),
    traced_below arg n m -> steady m ->
    (forall a, traced_below arg n (k a)) ->
    traced_below arg n (bind m k).
Proof.
  intros n A B m k Hm Hs Hk lx what Hlt H. unfold bind in H.
  destruct (m lx) as [[a lx1]|w| |] eqn:E; try discriminate.
  - pose proof (@steady_remaining _ _ _ _ _ _ Hs E) as Hle.
    pose proof (Hs lx) as Hr. rewrite E in Hr.
    destruct (Hk a lx1 what) as (e & lx' & Hasks & Hreach & Hmiss & ->);
      [lia | assumption |].
    exists e, lx'. repeat split; try assumption.
    + eapply asks_then; eassumption.
    + eapply reaches_trans; eassumption.
  - injection H as <-.
    destruct (Hm lx w Hlt E) as (e & lx' & Hasks & Hreach & Hmiss & ->).
    exists e, lx'. repeat split; try assumption.
    now apply asks_first.
Qed.

(** After a consuming first part, the second part has one token less. *)
Lemma traced_bind_consuming :
  forall n A B (m : M A) (k : A -> M B),
    traced_below arg (S n) m -> steady m -> consuming m ->
    (forall a, traced_below arg n (k a)) ->
    traced_below arg (S n) (bind m k).
Proof.
  intros n A B m k Hm Hs Hc Hk lx what Hlt H. unfold bind in H.
  destruct (m lx) as [[a lx1]|w| |] eqn:E; try discriminate.
  - pose proof (Hc _ _ _ E) as Hless.
    pose proof (Hs lx) as Hr. rewrite E in Hr.
    destruct (Hk a lx1 what) as (e & lx' & Hasks & Hreach & Hmiss & ->);
      [lia | assumption |].
    exists e, lx'. repeat split; try assumption.
    + eapply asks_then; eassumption.
    + eapply reaches_trans; eassumption.
  - injection H as <-.
    destruct (Hm lx w Hlt E) as (e & lx' & Hasks & Hreach & Hmiss & ->).
    exists e, lx'. repeat split; try assumption.
    now apply asks_first.
Qed.

(** In a loop, an error is raised in the condition, in the body, or in a
    later round. *)
Lemma traced_While :
  forall n S (cond : M bool) (body : S -> M (LoopCtl S)),
    traced_below arg n cond -> steady cond ->
    (forall s, traced_below arg n (body s)) ->
    (forall s, steady (body s)) -> (forall s, consuming (body s)) ->
    forall s, traced_below arg n (While cond body s).
Proof.
  intros n S cond body Hc Hsc Hb Hsb Hcb s lx what Hlt H. unfold While in H.
  remember (Datatypes.S (remaining lx)) as fuel eqn:Hfuel. clear Hfuel.
  revert s lx Hlt H.
  induction fuel as [|fuel IH]; intros s lx Hlt H; [discriminate|].
  cbn [while_fuel] in H.
  destruct (cond lx) as [[[|] lx1]|w| |] eqn:Ec; try discriminate.
  - pose proof (@steady_remaining _ _ _ _ _ _ Hsc Ec) as Hle.
    pose proof (Hsc lx) as Hr. rewrite Ec in Hr.
    destruct (body s lx1) as [[[s'|s'] lx2]|w| |] eqn:Eb; try discriminate.
    + pose proof (Hcb _ _ _ _ Eb) as Hless.
      pose proof (Hsb s lx1) as Hr2. rewrite Eb in Hr2.
      destruct (IH s' lx2) as (e & lx' & Hasks & Hreach & Hmiss & ->);
        [lia | assumption |].
      exists e, lx'. repeat split; try assumption.
      * eapply asks_While_round; try eassumption. lia.
      * eapply reaches_trans; [|eassumption].
        eapply reaches_trans; eassumption.
    + injection H as <-.
      destruct (Hb s lx1 w) as (e & lx' & Hasks & Hreach & Hmiss & ->);
        [lia | assumption |].
      exists e, lx'. repeat split; try assumption.
      * eapply asks_While_body; eassumption.
      * eapply reaches_trans; eassumption.
  - injection H as <-.
    destruct (Hc lx w Hlt Ec) as (e & lx' & Hasks & Hreach & Hmiss & ->).
    exists e, lx'. repeat split; try assumption.
    now apply asks_While_cond.
Qed.

(** [Check(kind); Next(); ...]: what follows has one token less. *)
Lemma traced_Check_Next :
  forall n kind A (k : Token.t -> M A),
    kind <> Token.END -> (forall tk, traced_below arg n (k tk)) ->
    traced_below arg (S n) (bind (Check kind) (fun _ => bind Next k)).
Proof.
  intros n kind A k Hkind Hk lx what Hlt H. unfold bind at 1 in H.
  destruct (Check kind lx) as [[tk lx1]|w| |] eqn:E; try discriminate.
  - pose proof E as Hcheck. apply Check_Ok in E as (-> & -> & Hk1).
    assert (Hless : remaining (Advance lx) < remaining lx)
      by (apply Next_after; congruence).
    unfold bind, Next in H.
    destruct (Hk (GetToken (Advance lx)) (Advance lx) what)
      as (e & lx' & Hasks & Hreach & Hmiss & ->); [lia | assumption |].
    exists e, lx'. repeat split; try assumption.
    + eapply asks_then; [exact Hcheck|].
      eapply asks_then; [reflexivity | exact Hasks].
    + eapply reaches_trans; [apply reaches_Advance | eassumption].
  - injection H as <-.
    destruct (@traced_Check (S n) kind lx w Hlt E)
      as (e & lx' & Hasks & Hreach & Hmiss & ->).
    exists e, lx'. repeat split; try assumption.
    now apply asks_first.
Qed.

Lemma traced_Expect : forall n kind, traced_below arg n (Expect kind).
Proof.
  intros n kind. unfold Expect.
  apply traced_bind;
    [apply traced_Next | apply steady_Next | intros _; apply traced_Check].
Qed.

#[local] Hint Resolve traced_below_S traced_ret traced_abort traced_Current
  traced_Next traced_GetIdent traced_GetString traced_GetInt traced_Check
  traced_Expect traced_ParseTermExpr : parser.

(** Finds the step of a loop body that consumes a token. *)
Ltac round_consumes :=
  cbv beta zeta;
  first
    [ solve [auto with parser]
    | apply consuming_Check_Next; [discriminate | solve [steady_rest]]
    | apply consuming_Expect; discriminate
    | apply consuming_bind_l; [round_consumes | solve [steady_rest]]
    | apply consuming_bind_r; [solve [steady_rest] | intros ?; round_consumes]
    ].

(** Walks down a computation, leaving what no hint settles. *)
Ltac traced_walk :=
  repeat
    (cbv beta zeta;
     match goal with
     | |- traced_below _ _ (bind _ _) =>
         apply traced_bind; [| solve [steady_rest] | intros ?]
     | |- traced_below _ _ (While _ _ _) =>
         apply traced_While;
         [| solve [steady_rest] | intros ? | intros ?; solve [steady_rest]
          | intros ?; solve [round_consumes]]
     | |- traced_below _ _ (match ?x with _ => _ end) => destruct x
     | |- traced_below _ _ _ => solve [auto with parser]
     end).

Section Ladder.

Variable n : nat.
Hypothesis traced_ParseExpr_n : traced_below arg n ParseExpr.

Lemma traced_ParseCallExpr :
  traced_below arg (S n) (ParseCallExpr ParseExpr).
Proof.
  unfold ParseCallExpr.
  apply traced_bind_consuming;
    [auto with parser | auto with parser | auto with parser | intros ?].
  traced_walk.
Qed.

#[local] Hint Resolve traced_ParseCallExpr : parser.

Lemma traced_ParseMulExpr :
  traced_below arg (S n) (ParseMulExpr ParseExpr).
Proof.
  unfold ParseMulExpr.
  apply traced_bind_consuming;
    [auto with parser | auto with parser | auto with parser | intros ?].
  traced_walk.
Qed.

#[local] Hint Resolve traced_ParseMulExpr : parser.

Lemma traced_ParseAddSubExpr :
  traced_below arg (S n) (ParseAddSubExpr ParseExpr).
Proof.
  unfold ParseAddSubExpr.
  apply traced_bind_consuming;
    [auto with parser | auto with parser | auto with parser | intros ?].
  traced_walk.
Qed.

#[local] Hint Resolve traced_ParseAddSubExpr : parser.

Lemma traced_ParseEqualityExpr :
  traced_below arg (S n) (ParseEqualityExpr ParseExpr).
Proof.
  unfold ParseEqualityExpr.
  apply traced_bind_consuming;
    [auto with parser | auto with parser | auto with parser | intros ?].
  traced_walk.
Qed.

End Ladder.

Lemma traced_ParseExpr : forall n, traced_below arg n ParseExpr.
Proof.
  induction n as [|n IH]; intros lx what Hlt H; [lia|].
  rewrite ParseExpr_unfold in H.
  destruct (@traced_ParseEqualityExpr n IH lx what Hlt H)
    as (e & lx' & Hasks & Hrest).
  exists e, lx'. split; [now apply asks_ParseExpr | exact Hrest].
Qed.

#[local] Hint Resolve traced_ParseExpr : parser.

Lemma traced_ParseReturnStmt : forall n, traced_below arg n ParseReturnStmt.
Proof. intros n. unfold ParseReturnStmt. traced_walk. Qed.

Lemma traced_ParseLetStmt : forall n, traced_below arg n (ParseLetStmt arg).
Proof. intros n. unfold ParseLetStmt. traced_walk. Qed.

#[local] Hint Resolve traced_ParseReturnStmt traced_ParseLetStmt : parser.

Section Statements.

Variable n : nat.
Hypothesis traced_ParseStmt_n : traced_below arg n (ParseStmt arg).

Lemma traced_ParseBlockStmt :
  traced_below arg (S n) (ParseBlockStmt (ParseStmt arg)).
Proof.
  unfold ParseBlockStmt.
  apply traced_Check_Next; [discriminate | intros ?]. traced_walk.
Qed.

Lemma traced_ParseWhileStmt :
  traced_below arg (S n) (ParseWhileStmt (ParseStmt arg)).
Proof.
  unfold ParseWhileStmt.
  apply traced_bind; [auto with parser | auto with parser | intros ?].
  apply traced_bind_consuming;
    [auto with parser | auto with parser
     | apply consuming_Expect; discriminate | intros ?].
  traced_walk.
Qed.

Lemma traced_ParseIfStmt :
  traced_below arg (S n) (ParseIfStmt (ParseStmt arg)).
Proof.
  unfold ParseIfStmt.
  apply traced_bind; [auto with parser | auto with parser | intros ?].
  apply traced_bind_consuming;
    [auto with parser | auto with parser
     | apply consuming_Expect; discriminate | intros ?].
  traced_walk.
Qed.

#[local] Hint Resolve traced_ParseBlockStmt traced_ParseWhileStmt
  traced_ParseIfStmt : parser.

Lemma traced_ParseStmt_body :
  traced_below arg (S n) (ParseStmt_body arg (ParseStmt arg)).
Proof. unfold ParseStmt_body. traced_walk. Qed.

End Statements.

Lemma traced_ParseStmt : forall n, traced_below arg n (ParseStmt arg).
Proof.
  induction n as [|n IH]; intros lx what Hlt H; [lia|].
  rewrite ParseStmt_unfold in H.
  destruct (@traced_ParseStmt_body n IH lx what Hlt H)
    as (e & lx' & Hasks & Hrest).
  exists e, lx'. split; [now apply asks_ParseStmt | exact Hrest].
Qed.

#[local] Hint Resolve traced_ParseStmt : parser.

Lemma traced_ParseTopLevel : forall n, traced_below arg n (ParseTopLevel arg).
Proof.
  intros n. unfold ParseTopLevel. traced_walk.
  apply traced_below_S. apply traced_ParseBlockStmt. auto with parser.
Qed.

#[local] Hint Resolve traced_ParseTopLevel : parser.






End ErrorPolicy.

(* ------------------------------------------------------------------------- *)
(** * The further properties on sample inputs *)

Section MoreSamples.

#[local] Existing Instance show_kind_name.
#[local] Existing Instance show_token_kind.

(** [x; return]: the statement [x;] is parsed and leaves [return]. *)
Lemma ParseStmt_advances_witness :
  ParseStmt "arg" sample_module
  = Ok (ExprStmt (RefExpr "x"), sample_return)
  /\ reaches sample_module sample_return
  /\ remaining sample_return < remaining sample_module.
Proof.
  split; [reflexivity|].
  exact (@ParseStmt_advances _ _ "arg" sample_module
           (ExprStmt (RefExpr "x")) sample_return eq_refl).
Defined.

(** [a + b * 3;]: the expression is parsed and leaves the semicolon. *)
Lemma ParseExpr_advances_witness :
  reaches (sample_binary Token.PLUS Token.MUL) sample_rest
  /\ remaining sample_rest < remaining (sample_binary Token.PLUS Token.MUL).
Proof.
  exact (@ParseExpr_advances _ _ (sample_binary Token.PLUS Token.MUL)
           (BinaryExpr BinaryExpr.ADD (RefExpr "a")
              (BinaryExpr BinaryExpr.MUL (RefExpr "b") (IntExpr 3)))
           sample_rest eq_refl).
Defined.

(** [(a);]: an open parenthesis starts no expression. *)
Lemma ParseExpr_rejects_non_term_witness :
  ParseExpr sample_parenthesised
  = Throw "[main.imp:1:1] unexpected LPAREN, expecting term".
Proof.
  exact (@ParseExpr_rejects_non_term _ _ sample_parenthesised eq_refl).
Defined.

(** [a * b * 3;] *)
Lemma ParseMulExpr_nests_products_left_witness :
  ParseMulExpr ParseExpr
    (mkLexer (product_tokens sample_product ++ [tok_semi]) sample_eof)
  = Ok (BinaryExpr BinaryExpr.MUL
          (BinaryExpr BinaryExpr.MUL (RefExpr "a") (RefExpr "b"))
          (IntExpr 3),
        sample_rest).
Proof.
  exact (@ParseMulExpr_nests_products_left _ _ sample_product _ [tok_semi]
           sample_eof eq_refl eq_refl).
Defined.

(** [a * b + 3 * a - b;] *)
Lemma ParseAddSubExpr_nests_sums_left_witness :
  ParseAddSubExpr ParseExpr
    (mkLexer (sum_tokens sample_sum ++ [tok_semi]) sample_eof)
  = Ok (BinaryExpr BinaryExpr.SUB
          (BinaryExpr BinaryExpr.ADD
             (BinaryExpr BinaryExpr.MUL (RefExpr "a") (RefExpr "b"))
             (BinaryExpr BinaryExpr.MUL (IntExpr 3) (RefExpr "a")))
          (RefExpr "b"),
        sample_rest).
Proof.
  exact (@ParseAddSubExpr_nests_sums_left _ _ sample_sum _ [tok_semi]
           sample_eof eq_refl eq_refl).
Defined.

(** [a * b + 3 * a - b == 3 == a;] *)
Lemma ParseExpr_operator_precedence_witness :
  ParseExpr
    (mkLexer (comparison_tokens sample_comparison ++ [tok_semi]) sample_eof)
  = Ok (BinaryExpr BinaryExpr.EQUALS
          (BinaryExpr BinaryExpr.EQUALS
             (BinaryExpr BinaryExpr.SUB
                (BinaryExpr BinaryExpr.ADD
                   (BinaryExpr BinaryExpr.MUL (RefExpr "a") (RefExpr "b"))
                   (BinaryExpr BinaryExpr.MUL (IntExpr 3) (RefExpr "a")))
                (RefExpr "b"))
             (IntExpr 3))
          (RefExpr "a"),
        sample_rest).
Proof.
  exact (@ParseExpr_operator_precedence _ _ sample_comparison _ [tok_semi]
           sample_eof eq_refl eq_refl).
Defined.

(** [f(a, 3 * b)()(b,);] *)
Lemma ParseCallExpr_applies_calls_witness :
  ParseCallExpr ParseExpr
    (mkLexer (ident "f" (at_ 1 1)
                :: flat_map call_tokens sample_applications ++ [tok_semi])
             sample_eof)
  = Ok (CallExpr
          (CallExpr
             (CallExpr (RefExpr "f")
                [RefExpr "a";
                 BinaryExpr BinaryExpr.MUL (IntExpr 3) (RefExpr "b")])
             [])
          [RefExpr "b"],
        sample_rest).
Proof.
  exact (@ParseCallExpr_applies_calls _ _ (ident "f" (at_ 1 1)) _
           sample_applications _ [tok_semi] sample_eof
           eq_refl eq_refl eq_refl).
Defined.

(** [return a;], and [return a] at the end of the stream. *)
Lemma return_statement_witness :
  ParseStmt "arg" sample_return_a
  = Ok (ReturnStmt (RefExpr "a"), mkLexer [] sample_eof)
  /\ ParseStmt "arg" sample_return_open
     = Throw "[main.imp:2:1] unexpected END, expecting SEMI".
Proof.
  split.
  - exact (@return_statement _ _ "arg" sample_return_a (RefExpr "a")
             sample_rest eq_refl eq_refl).
  - exact (@return_statement _ _ "arg" sample_return_open (RefExpr "a")
             (mkLexer [] sample_eof) eq_refl eq_refl).
Defined.

(** [a + b * 3;] *)
Lemma expression_statement_witness :
  ParseStmt "arg" (sample_binary Token.PLUS Token.MUL)
  = Ok (ExprStmt
          (BinaryExpr BinaryExpr.ADD (RefExpr "a")
             (BinaryExpr BinaryExpr.MUL (RefExpr "b") (IntExpr 3))),
        mkLexer [] sample_eof).
Proof.
  exact (@expression_statement _ _ "arg"
           (sample_binary Token.PLUS Token.MUL) _ sample_rest eq_refl).
Defined.

(** [;]: the empty statement is not a statement. *)
Lemma ParseStmt_rejects_stray_token_witness :
  ParseStmt "arg" sample_rest
  = Throw "[main.imp:1:10] unexpected SEMI, expecting term".
Proof.
  assert (Hstray : In (Token.GetKind (GetToken sample_rest))
                     [Token.FUNC; Token.ELSE; Token.LPAREN; Token.RPAREN;
                      Token.RBRACE; Token.COLON; Token.SEMI; Token.EQUAL;
                      Token.COMMA; Token.PLUS; Token.SUB; Token.MUL;
                      Token.EQUALS; Token.STRING; Token.END])
    by (do 6 right; left; reflexivity).
  exact (@ParseStmt_rejects_stray_token _ _ "arg" sample_rest Hstray).
Defined.

(** [while (a) b;] *)
Lemma while_statement_iff_witness :
  ParseStmt "arg" sample_while
  = Ok (WhileStmt (RefExpr "a") (ExprStmt (RefExpr "b")),
        mkLexer [] sample_eof).
Proof.
  apply (proj2 (@while_statement_iff _ _ "arg" sample_while
                  (WhileStmt (RefExpr "a") (ExprStmt (RefExpr "b")))
                  (mkLexer [] sample_eof) eq_refl)).
  exists (RefExpr "a"), (skip 3 sample_while), (ExprStmt (RefExpr "b")).
  repeat split.
Defined.

(** [if (a) b; else 3;] *)
Lemma if_statement_iff_witness :
  ParseStmt "arg" sample_if
  = Ok (IfStmt (RefExpr "a") (ExprStmt (RefExpr "b"))
          (Some (ExprStmt (IntExpr 3))),
        mkLexer [] sample_eof).
Proof.
  apply (proj2 (@if_statement_iff _ _ "arg" sample_if
                  (IfStmt (RefExpr "a") (ExprStmt (RefExpr "b"))
                     (Some (ExprStmt (IntExpr 3))))
                  (mkLexer [] sample_eof) eq_refl)).
  exists (RefExpr "a"), (skip 3 sample_if), (ExprStmt (RefExpr "b")),
         (skip 6 sample_if).
  repeat (split; [reflexivity|]).
  right. split; [reflexivity|].
  exists (ExprStmt (IntExpr 3)). split; reflexivity.
Defined.

(** [if (a) if (b) a; else 3;] *)
Lemma else_binds_to_nearest_if_witness :
  ParseStmt "arg" sample_dangling
  = Ok (IfStmt (RefExpr "a")
          (IfStmt (RefExpr "b") (ExprStmt (RefExpr "a"))
             (Some (ExprStmt (IntExpr 3))))
          None,
        mkLexer [] sample_eof).
Proof.
  assert (Hend : Token.GetKind (GetToken (mkLexer [] sample_eof))
                 <> Token.ELSE) by discriminate.
  exact (@else_binds_to_nearest_if _ _ "arg" sample_dangling
           (RefExpr "a") (skip 3 sample_dangling)
           (RefExpr "b") (skip 7 sample_dangling)
           (ExprStmt (RefExpr "a")) (skip 10 sample_dangling)
           (ExprStmt (IntExpr 3)) (mkLexer [] sample_eof)
           eq_refl eq_refl eq_refl eq_refl eq_refl eq_refl
           eq_refl eq_refl eq_refl eq_refl eq_refl Hend).
Defined.

(** [{ a; b; }] *)
Lemma block_statement_iff_witness :
  ParseStmt "arg" sample_block
  = Ok (BlockStmt [ExprStmt (RefExpr "a"); ExprStmt (RefExpr "b")],
        mkLexer [] sample_eof).
Proof.
  apply (proj2 (@block_statement_iff _ _ "arg" sample_block
                  (BlockStmt [ExprStmt (RefExpr "a"); ExprStmt (RefExpr "b")])
                  (mkLexer [] sample_eof) eq_refl)).
  exists [ExprStmt (RefExpr "a"); ExprStmt (RefExpr "b")],
         (skip 5 sample_block).
  repeat split.
  apply block_run_cons with (lx1 := skip 3 sample_block);
    [reflexivity | reflexivity |].
  apply block_run_cons with (lx1 := skip 5 sample_block);
    [reflexivity | reflexivity |].
  apply block_run_nil.
Defined.

(** [{ a;] and nothing more: the missing close brace is reported as a missing
    term at the end of the stream. *)
Lemma block_statement_throws_witness :
  ParseStmt "arg" sample_open_block
  = Throw "[main.imp:2:1] unexpected END, expecting term".
Proof.
  assert (Hrun : block_run "arg" (Advance sample_open_block)
                   [ExprStmt (RefExpr "a")] (mkLexer [] sample_eof)).
  { apply block_run_cons with (lx1 := mkLexer [] sample_eof);
      [reflexivity | reflexivity | apply block_run_nil]. }
  destruct (@block_statement_throws _ _ "arg" sample_open_block
              [ExprStmt (RefExpr "a")] (mkLexer [] sample_eof)
              eq_refl Hrun) as [_ Hend].
  exact (Hend eq_refl).
Defined.

(** [func f(a: int, b: int): int = "print_int"] *)
Lemma prototype_declaration_witness :
  ParseTopLevel "arg"
    (mkLexer (header_tokens sample_header
                [sym Token.EQUAL (at_ 1 29); sample_primitive])
             sample_eof)
  = Ok (ProtoDecl "f" [("a", "int"); ("b", "int")] "int" "print_int",
        mkLexer [] sample_eof).
Proof.
  exact (@prototype_declaration _ _ "arg" sample_header
           [("a", "int"); ("b", "int")] (sym Token.EQUAL (at_ 1 29))
           sample_primitive [] sample_eof
           eq_refl eq_refl eq_refl eq_refl).
Defined.

(** [func f(a: int, b: int): int { return a; }] *)
Lemma function_definition_witness :
  ParseTopLevel "arg"
    (mkLexer (header_tokens sample_header sample_body) sample_eof)
  = Ok (FuncDecl "f" [("a", "int"); ("b", "int")] "int"
          (BlockStmt [ReturnStmt (RefExpr "a")]),
        mkLexer [] sample_eof).
Proof.
  exact (@function_definition _ _ "arg" sample_header
           [("a", "int"); ("b", "int")] sample_body
           (BlockStmt [ReturnStmt (RefExpr "a")]) (mkLexer [] sample_eof)
           sample_eof eq_refl eq_refl eq_refl).
Defined.

(** [func f(a: int, b: int): int ;] *)
Lemma declaration_without_body_witness :
  ParseTopLevel "arg"
    (mkLexer (header_tokens sample_header [tok_semi]) sample_eof)
  = Throw "[main.imp:1:10] unexpected SEMI, expecting LBRACE".
Proof.
  assert (Heq : Token.GetKind (GetToken sample_rest) <> Token.EQUAL)
    by discriminate.
  assert (Hlb : Token.GetKind (GetToken sample_rest) <> Token.LBRACE)
    by discriminate.
  exact (@declaration_without_body _ _ "arg" sample_header
           [("a", "int"); ("b", "int")] [tok_semi] sample_eof
           eq_refl eq_refl Heq Hlb).
Defined.

(** A 32-bit operand read at offset 1 of a program of five bytes. *)
Lemma Read_keeps_cursor_inside_witness :
  Bytecode.Read 4 sample_program 1
  = Bytecode.Returns [x2a; x00; x00; x00] 5%Z
  /\ (0 <= 1 <= 5 /\ 5 = 1 + 4 /\ 5 <= Bytecode.size sample_program
      /\ Z.of_nat (length [x2a; x00; x00; x00]) = 4)%Z.
Proof.
  split; [reflexivity|].
  assert (Hw : (0 <= 4)%Z) by discriminate.
  exact (@Read_keeps_cursor_inside 4 sample_program 1
           [x2a; x00; x00; x00] 5%Z Hw eq_refl eq_refl).
Defined.

(** The opcode, then its operand: the five bytes of the instruction. *)
Lemma Read_twice_witness :
  Bytecode.Read (1 + 4) sample_program 0
  = Bytecode.Returns ([x02] ++ [x2a; x00; x00; x00])%list 5%Z.
Proof.
  assert (Hw1 : (0 <= 1)%Z) by discriminate.
  assert (Hw2 : (0 <= 4)%Z) by discriminate.
  exact (@Read_twice 1 4 sample_program 0 [x02] 1%Z
           [x2a; x00; x00; x00] 5%Z Hw1 Hw2 eq_refl eq_refl eq_refl).
Defined.

(** An operand between an opcode and the byte of the next instruction. *)
Lemma Read_round_trip_witness :
  Bytecode.Read 4 (Bytecode.mkProgram [x02; x2a; x00; x00; x00; x0d]) 1
  = Bytecode.Returns [x2a; x00; x00; x00] 5%Z.
Proof.
  exact (@Read_round_trip [x02] [x2a; x00; x00; x00] [x0d] eq_refl).
Defined.

(** [print_int] three times on the stack [7; 1], after "x=" was printed. *)
Lemma PrintInt_repeated_witness :
  PrintInt_times 3 (Runtime.mkInterp [7; 1]%Z "x=")
  = Some (Runtime.mkInterp [7; 7; 7; 7; 1]%Z "x=777").
Proof.
  exact (@PrintInt_repeated 3 (Runtime.mkInterp [7; 1]%Z "x=") 7%Z eq_refl).
Defined.





End MoreSamples.
